(** * Gompertz growth-curve forecaster: a shallow embedding of [app.js]

    The numerical core of the application is embedded over Rocq's primitive
    binary64 floats, which are exactly the values of the JavaScript [Number]
    type.  Arithmetic, comparisons and [Math.sqrt] are the IEEE-754
    operations of [PrimFloat]; the transcendental builtins ([Math.exp],
    [Math.log], [Math.pow]), which ECMAScript leaves
    implementation-approximated, are taken through the interface [JSMath]. *)

From Stdlib Require Import Floats ZArith Bool Ascii String List Lia.
Import ListNotations.

Set Warnings "-inexact-float".
Local Open Scope float_scope.

(** ** JavaScript numbers *)

(** The global [isFinite] and [isNaN], on an argument that is a Number. *)
Definition isFinite (x : float) : bool := is_finite x.
Definition isNaN (x : float) : bool := is_nan x.

(** [Math.max] and [Math.min] on two arguments: NaN if either is NaN, and
    [+0] counts as larger than [-0]. *)
Definition Math_max (x y : float) : float :=
  if is_nan x || is_nan y then nan
  else if x <? y then y
  else if y <? x then x
  else if get_sign x then y else x.

Definition Math_min (x y : float) : float :=
  if is_nan x || is_nan y then nan
  else if x <? y then x
  else if y <? x then y
  else if get_sign x then x else y.

(** A loop counter or an array length as a Number (exact below 2^53). *)
Definition num_of_nat (i : nat) : float := of_uint63 (Uint63.of_Z (Z.of_nat i)).

(** The builtins whose results the language does not fix bit for bit. *)
Class JSMath : Type := {
  Math_exp : float -> float;
  Math_log : float -> float;
  Math_pow : float -> float -> float
}.

(** ** Strings

    A string is modelled by the bytes of its UTF-8 encoding, a lone
    surrogate by the three bytes of its code unit, so that every string of
    the language has a model.  The characters the program looks for (comma,
    line feed, digits, signs, letters of [null] and [na], [Q]) are ASCII:
    each is one byte, and that byte occurs in no longer sequence, so that
    splitting and matching on bytes is splitting and matching on
    characters. *)

Definition isContinuation (c : ascii) : bool :=
  let n := N_of_ascii c in ((128 <=? n) && (n <? 192))%N.

(** The code point that one, two or three bytes encode; [None] when they
    are not the encoding of a code point. *)
Definition codePoint1 (c1 : ascii) : option N :=
  let n1 := N_of_ascii c1 in
  if (n1 <? 128)%N then Some n1 else None.

Definition codePoint2 (c1 c2 : ascii) : option N :=
  let n1 := N_of_ascii c1 in
  let n2 := N_of_ascii c2 in
  if ((194 <=? n1) && (n1 <? 224))%N && isContinuation c2
  then Some ((n1 - 192) * 64 + (n2 - 128))%N
  else None.

Definition codePoint3 (c1 c2 c3 : ascii) : option N :=
  let n1 := N_of_ascii c1 in
  let n2 := N_of_ascii c2 in
  let n3 := N_of_ascii c3 in
  let cp := ((n1 - 224) * 4096 + (n2 - 128) * 64 + (n3 - 128))%N in
  if ((224 <=? n1) && (n1 <? 240))%N && isContinuation c2 && isContinuation c3
     && (2048 <=? cp)%N
  then Some cp
  else None.

(** [WhiteSpace] and [LineTerminator] of the language, which [trim] and
    [parseFloat] strip: TAB, LF, VT, FF, CR, SP, NBSP, U+1680, U+2000 to
    U+200A, LS, PS, U+202F, U+205F, U+3000 and U+FEFF. *)
Definition isWhiteSpace (cp : N) : bool :=
  ((cp =? 32) || ((9 <=? cp) && (cp <=? 13)) || (cp =? 160) || (cp =? 5760)
   || ((8192 <=? cp) && (cp <=? 8202)) || (cp =? 8232) || (cp =? 8233)
   || (cp =? 8239) || (cp =? 8287) || (cp =? 12288) || (cp =? 65279))%N.

Definition isWhiteSpaceCode (cp : option N) : bool :=
  match cp with
  | Some cp => isWhiteSpace cp
  | None => false
  end.

(** [s.trimStart()]: no white space character takes more than three
    bytes. *)
Fixpoint trimStart (s : string) : string :=
  match s with
  | EmptyString => EmptyString
  | String c1 r1 =>
      if isWhiteSpaceCode (codePoint1 c1) then trimStart r1
      else
        match r1 with
        | EmptyString => s
        | String c2 r2 =>
            if isWhiteSpaceCode (codePoint2 c1 c2) then trimStart r2
            else
              match r2 with
              | EmptyString => s
              | String c3 r3 =>
                  if isWhiteSpaceCode (codePoint3 c1 c2 c3) then trimStart r3 else s
              end
        end
  end.

(** The string is one white space character. *)
Definition isWhiteSpaceString (t : string) : bool :=
  match t with
  | String c1 EmptyString => isWhiteSpaceCode (codePoint1 c1)
  | String c1 (String c2 EmptyString) => isWhiteSpaceCode (codePoint2 c1 c2)
  | String c1 (String c2 (String c3 EmptyString)) =>
      isWhiteSpaceCode (codePoint3 c1 c2 c3)
  | _ => false
  end.

(** [s.trimEnd()], from the end of the string backwards: what is left of
    the text from a byte on is dropped when it is one white space
    character. *)
Fixpoint trimEnd (s : string) : string :=
  match s with
  | EmptyString => EmptyString
  | String c r =>
      let t := String c (trimEnd r) in
      if isWhiteSpaceString t then EmptyString else t
  end.

(** [s.trim()]. *)
Definition trim (s : string) : string := trimEnd (trimStart s).

(** [s.split(sep)] for a one-character separator: never the empty list. *)
Fixpoint split (sep : ascii) (s : string) : list string :=
  match s with
  | EmptyString => [EmptyString]
  | String c r =>
      if Ascii.eqb c sep then EmptyString :: split sep r
      else match split sep r with
           | h :: t => String c h :: t
           | [] => [String c EmptyString]
           end
  end.

Definition toLowerCase_char (c : ascii) : ascii :=
  let n := N_of_ascii c in
  if ((65 <=? n) && (n <=? 90))%N then ascii_of_N (n + 32) else c.

(** [s.toLowerCase()], on the letters A to Z.  The program only compares
    the result with [null] and [na], and no other character of Unicode has
    a lower case with the letters n, u, l or a in it. *)
Fixpoint toLowerCase (s : string) : string :=
  match s with
  | EmptyString => EmptyString
  | String c r => String (toLowerCase_char c) (toLowerCase r)
  end.

(** *** [parseFloat]

    The builtin reads the longest prefix of the left-trimmed string that is
    a [StrDecimalLiteral] and returns its value rounded to the nearest
    Number, or NaN when there is no such prefix. *)

Definition isDigit (c : ascii) : bool :=
  let n := N_of_ascii c in ((48 <=? n) && (n <=? 57))%N.

(** The leading decimal digits of [s]: their value after [acc], their
    number after [cnt], and the rest of the string. *)
Fixpoint readDigits (s : string) (acc : Z) (cnt : nat) : Z * nat * string :=
  match s with
  | String c r =>
      if isDigit c
      then readDigits r (10 * acc + Z.of_N (N_of_ascii c) - 48)%Z (S cnt)
      else (acc, cnt, s)
  | EmptyString => (acc, cnt, s)
  end.

(** [m * 10^e10], for [m >= 0], rounded to nearest even: an integer is
    rounded as it is; a quotient is computed to more than 64 bits with a
    sticky last bit. *)
Definition decimalToNumber (m e10 : Z) : float :=
  if (m =? 0)%Z then 0
  else if (0 <=? e10)%Z then SF2Prim (binary_normalize prec emax (m * 10 ^ e10) 0 false)
  else
    let d := (10 ^ (- e10))%Z in
    let s := Z.max 0 (Z.log2 d + 66 - Z.log2 m) in
    let num := (m * 2 ^ s)%Z in
    let sticky := if (num mod d =? 0)%Z then 0%Z else 1%Z in
    SF2Prim (binary_normalize prec emax (2 * (num / d) + sticky) (- s - 1) false).

(** An [ExponentPart], when one follows: [e] or [E], an optional sign and
    at least one digit. *)
Definition readExponent (s : string) : Z * string :=
  match s with
  | String c r =>
      if Ascii.eqb c "e" || Ascii.eqb c "E" then
        let '(neg, r') :=
          match r with
          | String c' r'' =>
              if Ascii.eqb c' "-" then (true, r'')
              else if Ascii.eqb c' "+" then (false, r'')
              else (false, r)
          | EmptyString => (false, r)
          end in
        let '(v, cnt, rest) := readDigits r' 0 0 in
        match cnt with
        | O => (0%Z, s)
        | S _ => ((if neg then - v else v)%Z, rest)
        end
      else (0%Z, s)
  | EmptyString => (0%Z, s)
  end.

(** The value of the longest [StrUnsignedDecimalLiteral] prefix and the
    text left after it; [None] when no prefix is a literal. *)
Definition readUnsignedDecimal (s : string) : option (float * string) :=
  if String.prefix "Infinity" s then Some (infinity, String.substring 8 (String.length s - 8) s)
  else
    let '(ip, nI, r1) := readDigits s 0 0 in
    let '(m, nF, r2) :=
      match r1 with
      | String c r =>
          if Ascii.eqb c "." then
            let '(m', nF', r') := readDigits r ip 0 in
            match nI, nF' with
            | O, O => (ip, O, r1)
            | _, _ => (m', nF', r')
            end
          else (ip, O, r1)
      | EmptyString => (ip, O, r1)
      end in
    match nI, nF with
    | O, O => None
    | _, _ =>
        let '(e, rest) := readExponent r2 in
        Some (decimalToNumber m (e - Z.of_nat nF), rest)
    end.

(** A [StrDecimalLiteral] prefix: an optional sign and an unsigned literal. *)
Definition readDecimal (s : string) : option (float * string) :=
  match s with
  | String c r =>
      if Ascii.eqb c "-" then
        match readUnsignedDecimal r with
        | Some (v, rest) => Some (- v, rest)
        | None => None
        end
      else if Ascii.eqb c "+" then readUnsignedDecimal r
      else readUnsignedDecimal s
  | EmptyString => None
  end.

Definition parseFloat (s : string) : float :=
  match readDecimal (trimStart s) with
  | Some (v, _) => v
  | None => nan
  end.

(** ** Data model *)

(** [SAMPLE_DATA.accounts] (app.js, line 4). *)
Definition SAMPLE_accounts : list float :=
  [28988; 75699; 170312; 323900; 475110; 684196; 992318; 1191417; 1331101;
   1601099; 1690404; 1833495; 2024223; 1900206; 1995234; 2186658; 2186357;
   2382030; 2270589; 2235095].

(** The [dataType] tag of a historical point. *)
Inductive DataType : Type :=
  | Original | Missing | Interpolated | Corrected | Confirmed.

(** One element of [state.historicalData].  [accounts] is [None] for
    [null]; [isOutlier] is absent until it is first written and only its
    truthiness is ever read, so absent is [false]. *)
Record DataPoint : Type := mkPoint {
  period : string;
  accounts : option float;
  isMissing : bool;
  dataType : DataType;
  isOutlier : bool
}.

(** [d.accounts] where a Number is expected: [null] converts to [+0]. *)
Definition accountsNumber (d : DataPoint) : float :=
  match accounts d with
  | Some v => v
  | None => 0
  end.

Definition flagOutlier (d : DataPoint) : DataPoint :=
  mkPoint (period d) (accounts d) (isMissing d) (dataType d) true.

(** The [type] of a quality issue. *)
Inductive IssueType : Type := IssueSuccess | IssueWarning | IssueError.

(** The issues [analyzeDataQuality] can report, with the numbers their
    texts display. *)
Inductive Issue : Type :=
  | DataComplete (total : nat)
  | FewMissing (missing : nat)
  | SomeMissing (missing total : nat)
  | ManyMissing (missing total : nat)
  | OutliersDetected (outlierCount : nat)
  | NegativeGrowth (nonMonotonicCount : nat)
  | InsufficientPoints (validCount : nat)
  | FewPoints (validCount : nat).

Definition issueType (i : Issue) : IssueType :=
  match i with
  | DataComplete _ => IssueSuccess
  | FewMissing _ | SomeMissing _ _ => IssueWarning
  | ManyMissing _ _ => IssueError
  | OutliersDetected _ | NegativeGrowth _ => IssueWarning
  | InsufficientPoints _ => IssueError
  | FewPoints _ => IssueWarning
  end.

(** [state.dataQuality]. *)
Record QualityReport : Type := mkQuality {
  score : Z;
  issues : list Issue;
  missingCount : nat;
  validCount : nat;
  totalCount : nat
}.

(** The errors [parseAndDisplayData] throws and reports. *)
Inductive ParseError : Type :=
  | RowFieldCount
  | InvalidAccounts (accountsStr : string)
  | NegativeAccounts (accountsStr : string)
  | TooFewPoints.

(** The part of the application state the data-input step works on, with
    the text and the visibility of the [dataError] element. *)
Record State : Type := mkState {
  historicalData : list DataPoint;
  dataQuality : option QualityReport;
  dataErrorText : option ParseError;
  dataErrorShown : bool
}.

(** The fitted parameters [{ K, b, t0 }]. *)
Record Params : Type := mkParams { pK : float; pb : float; pt0 : float }.

(** One entry of [state.scenarioParams]. *)
Record InterventionParams : Type := mkIntervention {
  alpha : float;
  delta_t : float;
  kappa : float;
  half_life : float;
  window_length : float;
  expansion_length : float
}.

Section Model.

Context {M : JSMath}.

(** ** [gompertzModel] (app.js, lines 67-101) *)
Definition gompertzModel (t K b t0 : float) : float :=
  if negb (isFinite K) || negb (isFinite b) || negb (isFinite t0) then nan
  else if (K <=? 0) || (b <=? 0) then nan
  else
    let exponent := (- b) * (t - t0) in
    let exponent := Math_max (-700) (Math_min 700 exponent) in
    let inner_exp := Math_exp exponent in
    if negb (isFinite inner_exp) then nan
    else
      let outer_exp := - inner_exp in
      let outer_exp := Math_max (-700) (Math_min 700 outer_exp) in
      let result := K * Math_exp outer_exp in
      if negb (isFinite result) then nan else result.

(** ** [applyIntervention] (app.js, lines 275-363) *)

(** The acceleration factor of lines 297-313. *)
Definition accelerationFactor (tSinceLaunch : float) (ip : InterventionParams) : float :=
  if tSinceLaunch <? window_length ip then
    let decayExponent := (- (Math_log 2)) * tSinceLaunch / half_life ip in
    let clampedExp := Math_max (-100) (Math_min 0 decayExponent) in
    let decayFactor := Math_exp clampedExp in
    if negb (isFinite decayFactor) then 1
    else
      let cappedAlpha := Math_min 0.5 (Math_max 0 (alpha ip)) in
      1 + cappedAlpha * decayFactor
  else 1.

(** The capacity factor of lines 315-335. *)
Definition capacityFactor (tSinceLaunch : float) (ip : InterventionParams) : float :=
  if tSinceLaunch <? expansion_length ip then
    let expansionProgress := tSinceLaunch / expansion_length ip in
    let expansionExp := (-3) * expansionProgress in
    let clampedExpansion := Math_max (-100) (Math_min 0 expansionExp) in
    let expansionSmoother := 1 - Math_exp clampedExpansion in
    if negb (isFinite expansionSmoother) then 1
    else
      let cappedKappa := Math_min 0.2 (Math_max 0 (kappa ip)) in
      1 + cappedKappa * expansionSmoother
  else
    let cappedKappa := Math_min 0.2 (Math_max 0 (kappa ip)) in
    1 + cappedKappa.

(** The three adjusted parameters of lines 344-346. *)
Definition adjustedParams (params : Params) (ip : InterventionParams)
    (acceleration capacity : float) : Params :=
  {| pK := pK params * capacity;
     pb := pb params * Math_min 2.0 acceleration;
     pt0 := pt0 params - Math_min 5 (Math_max 0 (delta_t ip)) |}.

Definition applyIntervention (t baselineValue : float) (params : Params)
    (interventionParams : InterventionParams) (launchQuarter : float) : float :=
  if negb (isFinite t) || negb (isFinite baselineValue) then baselineValue
  else if negb (isFinite (pK params)) || negb (isFinite (pb params))
          || negb (isFinite (pt0 params)) then baselineValue
  else if t <? launchQuarter then baselineValue
  else
    let tSinceLaunch := t - launchQuarter in
    let acceleration := accelerationFactor tSinceLaunch interventionParams in
    let capacity := capacityFactor tSinceLaunch interventionParams in
    if negb (isFinite acceleration) || negb (isFinite capacity) then baselineValue
    else
      let adj := adjustedParams params interventionParams acceleration capacity in
      if negb (isFinite (pK adj)) || negb (isFinite (pb adj)) || negb (isFinite (pt0 adj))
      then baselineValue
      else
        let result := gompertzModel t (pK adj) (pb adj) (pt0 adj) in
        if negb (isFinite result) then baselineValue else result.

(** ** [fitGompertzCurve] (app.js, lines 103-273) *)

(** [Math.max(...data)]: the fold of the language's definition, from [-Infinity]. *)
Definition Math_max_list (data : list float) : float :=
  fold_left Math_max data neg_infinity.

Definition K_steps : list float := [1.1; 1.3; 1.5; 2.0; 2.5].
Definition b_steps : list float := [0.05; 0.1; 0.15; 0.2; 0.3; 0.4].
Definition t0_steps (n : float) : list float :=
  [-2; 0; n * 0.3; n * 0.5; n * 0.7; n + 2].

(** Lines 128-138: the squared error of one candidate over the indices from
    [i] on; [None] is [hasNaN = true] (the loop breaks at the first
    non-finite prediction). *)
Fixpoint candidateError (data : list float) (i : nat) (K b t0 error : float)
    : option float :=
  match data with
  | [] => Some error
  | d :: rest =>
      let predicted := gompertzModel (num_of_nat i) K b t0 in
      if negb (isFinite predicted) then None
      else candidateError rest (S i) K b t0 (error + Math_pow (d - predicted) 2)
  end.

(** The variables the grid search updates: [bestParams] ([None] is [null]),
    [bestError] and [validFits]. *)
Record Search : Type := mkSearch {
  bestParams : option Params;
  bestError : float;
  validFits : nat
}.

(** Lines 127-145: one [(K, b, t0)] combination. *)
Definition tryCandidate (data : list float) (K b t0 : float) (s : Search) : Search :=
  match candidateError data 0 K b t0 0 with
  | Some error =>
      if isFinite error && (error <? bestError s)
      then mkSearch (Some (mkParams K b t0)) error (S (validFits s))
      else s
  | None => s
  end.

(** Lines 120-147: the three nested loops, with their [continue] guards. *)
Definition gridSearch (data : list float) (n maxAccounts : float) : Search :=
  fold_left (fun s k_mult =>
    let K := maxAccounts * k_mult in
    if K <=? maxAccounts then s
    else fold_left (fun s b =>
      if (b <=? 0) || (1.0 <? b) then s
      else fold_left (fun s t0 => tryCandidate data K b t0 s) (t0_steps n) s)
      b_steps s)
    K_steps (mkSearch None infinity 0).

(** Lines 171-194: the gradient accumulated over the indices from [i] on;
    [None] is [validGrads = false]. *)
Fixpoint gradients (data : list float) (i : nat) (p : Params)
    (gradK gradB gradT0 : float) : option (float * float * float) :=
  match data with
  | [] => Some (gradK, gradB, gradT0)
  | d :: rest =>
      let fi := num_of_nat i in
      let predicted := gompertzModel fi (pK p) (pb p) (pt0 p) in
      if negb (isFinite predicted) then None
      else
        let error := predicted - d in
        let exponent := (- (pb p)) * (fi - pt0 p) in
        if 100 <? abs exponent then gradients rest (S i) p gradK gradB gradT0
        else
          let exp_inner := Math_exp exponent in
          let exp_outer := Math_exp (- exp_inner) in
          if negb (isFinite exp_inner) || negb (isFinite exp_outer) then None
          else
            gradients rest (S i) p
              (gradK + 2 * error * exp_outer)
              (gradB + 2 * error * pK p * exp_outer * exp_inner * (fi - pt0 p))
              (gradT0 + 2 * error * pK p * exp_outer * exp_inner * pb p)
  end.

Definition learningRate : float := 0.001.
Definition iterations : nat := 50.

(** Lines 167-217: [iters] more rounds of the refinement loop; every [break]
    leaves the last accepted parameters. *)
Fixpoint refine (iters : nat) (data : list float) (n maxAccounts : float)
    (p : Params) : Params :=
  match iters with
  | O => p
  | S iters' =>
      match gradients data 0 p 0 0 0 with
      | None => p
      | Some (gradK, gradB, gradT0) =>
          if negb (isFinite gradK) || negb (isFinite gradB) || negb (isFinite gradT0)
          then p
          else
            let newK := pK p - learningRate * gradK / n in
            let newB := pb p - learningRate * gradB / n in
            let newT0 := pt0 p - learningRate * gradT0 / n in
            if (maxAccounts <? newK) && (newK <? maxAccounts * 5)
               && (0.01 <? newB) && (newB <? 1.0)
               && isFinite newK && isFinite newB && isFinite newT0
            then refine iters' data n maxAccounts (mkParams newK newB newT0)
            else p
      end
  end.

(** Lines 228-236: the two corrections applied to finite parameters. *)
Definition correctParams (maxAccounts : float) (p : Params) : Params :=
  let K := if pK p <=? maxAccounts then maxAccounts * 1.2 else pK p in
  let b := if (pb p <=? 0) || (1.0 <? pb p)
           then Math_max 0.05 (Math_min 0.5 (pb p)) else pb p in
  mkParams K b (pt0 p).

(** Line 239: [data.reduce((sum, val) => sum + val, 0) / n]. *)
Definition mean_of (data : list float) (n : float) : float :=
  fold_left (fun sum val => sum + val) data 0 / n.

(** The variables of the loop of lines 243-252. *)
Record Residuals : Type := mkResiduals {
  ssRes : float;
  ssTot : float;
  hasNaNPredictions : bool
}.

Fixpoint residuals (data : list float) (i : nat) (p : Params) (mean : float)
    (acc : Residuals) : Residuals :=
  match data with
  | [] => acc
  | d :: rest =>
      let predicted := gompertzModel (num_of_nat i) (pK p) (pb p) (pt0 p) in
      if negb (isFinite predicted)
      then residuals rest (S i) p mean (mkResiduals (ssRes acc) (ssTot acc) true)
      else residuals rest (S i) p mean
             (mkResiduals (ssRes acc + Math_pow (d - predicted) 2)
                          (ssTot acc + Math_pow (d - mean) 2)
                          (hasNaNPredictions acc))
  end.

(** Line 258. *)
Definition r2_of (res : Residuals) : float :=
  if 0 <? ssTot res
  then Math_max 0 (Math_min 1 (1 - ssRes res / ssTot res))
  else 0.

Record FitResult : Type := mkFitResult {
  params : Params;
  r2 : float;
  rmse : float;
  valid : bool
}.

(** Lines 238-272: the quality metrics of the final parameters. *)
Definition fitQuality (data : list float) (n : float) (p : Params) : FitResult :=
  let res := residuals data 0 p (mean_of data n) (mkResiduals 0 0 false) in
  let r2 := r2_of res in
  let rmse := sqrt (ssRes res / n) in
  {| params := p;
     r2 := if isFinite r2 then r2 else 0;
     rmse := if isFinite rmse then rmse else infinity;
     valid := negb (hasNaNPredictions res) && isFinite r2 |}.

(** Lines 151-159: the grid's winner, or the fallback parameters. *)
Definition initialParams (data : list float) (n maxAccounts : float) : Params :=
  match bestParams (gridSearch data n maxAccounts) with
  | Some p => p
  | None => mkParams (maxAccounts * 1.5) 0.2 (n * 0.5)
  end.

(** The parameters at line 219, before the final checks. *)
Definition refinedParams (data : list float) : Params :=
  let n := num_of_nat (length data) in
  let maxAccounts := Math_max_list data in
  refine iterations data n maxAccounts (initialParams data n maxAccounts).

(** [None] is the [null] of line 225. *)
Definition fitGompertzCurve (data : list float) : option FitResult :=
  let n := num_of_nat (length data) in
  let maxAccounts := Math_max_list data in
  let p := refinedParams data in
  if negb (isFinite (pK p)) || negb (isFinite (pb p)) || negb (isFinite (pt0 p))
  then None
  else Some (fitQuality data n (correctParams maxAccounts p)).

(** ** [analyzeDataQuality] (app.js, lines 456-571) *)

(** Lines 462-496: the issue and the deduction for missing points. *)
Definition missingIssue (missingCount total : nat) : Issue * Z :=
  if (missingCount =? 0)%nat then (DataComplete total, 0%Z)
  else if (missingCount <=? 2)%nat then (FewMissing missingCount, (10 * Z.of_nat missingCount)%Z)
  else if (missingCount <=? 5)%nat then (SomeMissing missingCount total, 30%Z)
  else (ManyMissing missingCount total, 50%Z).

(** Lines 501-503. *)
Definition accountsMean (accounts : list float) : float :=
  fold_left (fun sum v => sum + v) accounts 0 / num_of_nat (length accounts).

Definition accountsStdDev (accounts : list float) (mean : float) : float :=
  sqrt (fold_left (fun sum v => sum + Math_pow (v - mean) 2) accounts 0
        / num_of_nat (length accounts)).

(** Line 507. *)
Definition zScore (mean stdDev : float) (d : DataPoint) : float :=
  abs ((accountsNumber d - mean) / stdDev).

(** Lines 498-512, the test of one point: it is not missing, at least five
    points are not missing, and its z-score exceeds 2. *)
Definition exceedsThreshold (data : list DataPoint) (d : DataPoint) : bool :=
  let validData := filter (fun d => negb (isMissing d)) data in
  let accounts := map accountsNumber validData in
  let mean := accountsMean accounts in
  let stdDev := accountsStdDev accounts mean in
  negb (isMissing d) && (5 <=? length validData)%nat && (2 <? zScore mean stdDev d).

(** The write of line 509, on the points that [validData] shares with
    [data]: the flag is set, never reset. *)
Definition markOutliers (data : list DataPoint) : list DataPoint :=
  map (fun d => if exceedsThreshold data d then flagOutlier d else d) data.

Definition countOutliers (data : list DataPoint) : nat :=
  length (filter (exceedsThreshold data) data).

(** Lines 526-530: the points below their predecessor in [validData]. *)
Fixpoint countDrops (prev : float) (rest : list float) : nat :=
  match rest with
  | [] => O
  | v :: rest' => (if v <? prev then 1 else 0) + countDrops v rest'
  end.

Definition countNonMonotonic (accounts : list float) : nat :=
  match accounts with
  | [] => O
  | v :: rest => countDrops v rest
  end.

Definition qualityReport (data : list DataPoint) : QualityReport :=
  let missingCount := length (filter isMissing data) in
  let '(issue1, deduction1) := missingIssue missingCount (length data) in
  let issues := [issue1] in
  let score := (100 - deduction1)%Z in
  let validData := filter (fun d => negb (isMissing d)) data in
  let outlierCount := countOutliers data in
  let '(issues, score) :=
    if (0 <? outlierCount)%nat
    then (issues ++ [OutliersDetected outlierCount], (score - 5 * Z.of_nat outlierCount)%Z)
    else (issues, score) in
  let nonMonotonicCount := countNonMonotonic (map accountsNumber validData) in
  let '(issues, score) :=
    if (0 <? nonMonotonicCount)%nat
    then (issues ++ [NegativeGrowth nonMonotonicCount],
          (score - 5 * Z.of_nat nonMonotonicCount)%Z)
    else (issues, score) in
  let validCount := length validData in
  let '(issues, score) :=
    if (validCount <? 8)%nat then (issues ++ [InsufficientPoints validCount], (score - 40)%Z)
    else if (validCount <? 12)%nat then (issues ++ [FewPoints validCount], (score - 10)%Z)
    else (issues, score) in
  mkQuality (Z.max 0 (Z.min 100 score)) issues missingCount validCount (length data).

Definition analyzeDataQuality (st : State) : State :=
  let data := historicalData st in
  mkState (markOutliers data) (Some (qualityReport data))
          (dataErrorText st) (dataErrorShown st).

(** ** [parseAndDisplayData] (app.js, lines 398-453) *)

(** Line 421: the markers of a missing value. *)
Definition isMissingMarker (accountsStr : string) : bool :=
  String.eqb accountsStr "" || String.eqb accountsStr "-"
  || String.eqb (toLowerCase accountsStr) "null"
  || String.eqb (toLowerCase accountsStr) "na".

(** Lines 409-433: one line that is not blank, as the point it pushes or
    the error it throws. *)
Definition parseLine (line : string) : ParseError + DataPoint :=
  match split "," line with
  | [part0; part1] =>
      let period := trim part0 in
      let accountsStr := trim part1 in
      if isMissingMarker accountsStr then inr (mkPoint period None true Missing false)
      else
        let accounts := parseFloat accountsStr in
        if isNaN accounts then inl (InvalidAccounts accountsStr)
        else if accounts <? 0 then inl (NegativeAccounts accountsStr)
        else inr (mkPoint period (Some accounts) false Original false)
  | _ => inl RowFieldCount
  end.

(** Lines 406-434: the loop over the lines, [data] being the points pushed
    so far. *)
Fixpoint parseLines (lines : list string) (data : list DataPoint)
    : ParseError + list DataPoint :=
  match lines with
  | [] => inr data
  | line :: rest =>
      if String.eqb (trim line) "" then parseLines rest data
      else match parseLine line with
           | inl e => inl e
           | inr d => parseLines rest (data ++ [d])
           end
  end.

(** Line 400: [dataInput.trim().split('\n')]. *)
Definition inputLines (dataInput : string) : list string :=
  split "010" (trim dataInput).

(** Lines 399-438: the [try] block up to the assignment of line 440. *)
Definition parseData (dataInput : string) : ParseError + list DataPoint :=
  match parseLines (inputLines dataInput) [] with
  | inl e => inl e
  | inr data => if (length data <? 8)%nat then inl TooFewPoints else inr data
  end.

Definition parseAndDisplayData (st : State) (dataInput : string) : State :=
  match parseData dataInput with
  | inr data =>
      let st' := analyzeDataQuality
                   (mkState data (dataQuality st) (dataErrorText st) (dataErrorShown st)) in
      mkState (historicalData st') (dataQuality st') (dataErrorText st') false
  | inl e =>
      mkState (historicalData st) (dataQuality st) (Some e) true
  end.

(** *** The rows the parser rejects *)

(** A line that the loop does not skip. *)
Definition isBlank (line : string) : bool := String.eqb (trim line) "".

Definition dataRows (dataInput : string) : list string :=
  filter (fun line => negb (isBlank line)) (inputLines dataInput).

Definition wrongFieldCount (line : string) : bool :=
  negb (length (split "," line) =? 2)%nat.

(** The trimmed second field of a line. *)
Definition valueField (line : string) : string :=
  trim (nth 1 (split "," line) EmptyString).

Definition hasValue (line : string) : bool :=
  negb (wrongFieldCount line) && negb (isMissingMarker (valueField line)).

(** The value is present and [parseFloat] finds no number at its start. *)
Definition unreadableValue (line : string) : bool :=
  hasValue line && isNaN (parseFloat (valueField line)).

Definition negativeValue (line : string) : bool :=
  hasValue line && (parseFloat (valueField line) <? 0).

Definition rejectedRow (line : string) : bool :=
  wrongFieldCount line || unreadableValue line || negativeValue line.

(** Follows the spec's words (a raw value is "a non-negative decimal" or a
    missing marker): a text is numeric when the whole of it reads as one
    decimal literal. *)
Definition isNumericText (s : string) : bool :=
  match readDecimal s with
  | Some (_, EmptyString) => true
  | _ => false
  end.

Definition nonNumericValue (line : string) : bool :=
  hasValue line && negb (isNumericText (valueField line)).

(** *** Series without a drop *)

Fixpoint nonDecreasingFrom (prev : float) (rest : list float) : bool :=
  match rest with
  | [] => true
  | v :: rest' => (prev <=? v) && nonDecreasingFrom v rest'
  end.

(** Each value is at least the value of the quarter before. *)
Definition nonDecreasing (accounts : list float) : bool :=
  match accounts with
  | [] => true
  | v :: rest => nonDecreasingFrom v rest
  end.

(** The z-score of line 507 for a point of a series without missing
    values. *)
Definition seriesZScore (data : list DataPoint) (d : DataPoint) : float :=
  let accounts := map accountsNumber data in
  let mean := accountsMean accounts in
  zScore mean (accountsStdDev accounts mean) d.

(** ** [editCell] and [confirmCell] (app.js, lines 707-730) *)

(** [data[index]] replaced by [f data[index]]; [None] when the index is
    out of range, where the source throws a [TypeError]. *)
Fixpoint updateAt (data : list DataPoint) (index : nat) (f : DataPoint -> DataPoint)
    : option (list DataPoint) :=
  match data, index with
  | [], _ => None
  | d :: rest, O => Some (f d :: rest)
  | d :: rest, S index' =>
      match updateAt rest index' f with
      | Some rest' => Some (d :: rest')
      | None => None
      end
  end.

(** [value] is what [prompt] returned, [None] when it was cancelled. *)
Definition editCell (st : State) (index : nat) (value : option string) : option State :=
  match nth_error (historicalData st) index with
  | None => None
  | Some _ =>
      match value with
      | None => Some st
      | Some value =>
          let accounts := parseFloat value in
          if negb (isNaN accounts) && (0 <=? accounts) then
            match updateAt (historicalData st) index
                    (fun d => mkPoint (period d) (Some accounts) false Corrected (isOutlier d)) with
            | Some data =>
                Some (analyzeDataQuality
                        (mkState data (dataQuality st) (dataErrorText st) (dataErrorShown st)))
            | None => None
            end
          else Some st
      end
  end.

Definition confirmCell (st : State) (index : nat) : option State :=
  match updateAt (historicalData st) index
          (fun d => mkPoint (period d) (accounts d) (isMissing d) Confirmed false) with
  | Some data =>
      Some (analyzeDataQuality
              (mkState data (dataQuality st) (dataErrorText st) (dataErrorShown st)))
  | None => None
  end.

(** ** Quarter labels (app.js, lines 39-64) *)

Definition digitValue (c : ascii) : nat := N.to_nat (N_of_ascii c) - 48.

(** The regular expression [/Q(\d) (\d{4})/] tried at the start of [s],
    with [parseInt] of its two groups. *)
Definition matchQuarterHere (s : string) : option (nat * nat) :=
  match s with
  | String q (String d (String sp (String y3 (String y2 (String y1 (String y0 _)))))) =>
      if Ascii.eqb q "Q" && isDigit d && Ascii.eqb sp " "
         && isDigit y3 && isDigit y2 && isDigit y1 && isDigit y0
      then Some (digitValue d,
                 1000 * digitValue y3 + 100 * digitValue y2
                 + 10 * digitValue y1 + digitValue y0)%nat
      else None
  | _ => None
  end.

(** [parseQuarter]: the first place of the string where the expression
    matches; [None] is [null]. *)
Fixpoint parseQuarter (quarterStr : string) : option (nat * nat) :=
  match matchQuarterHere quarterStr with
  | Some r => Some r
  | None =>
      match quarterStr with
      | String _ rest => parseQuarter rest
      | EmptyString => None
      end
  end.

(** The decimal digits of a natural number, most significant first. *)
Fixpoint natDigits (fuel n : nat) (acc : string) : string :=
  match fuel with
  | O => acc
  | S fuel' =>
      let acc' := String (ascii_of_nat (48 + n mod 10)) acc in
      if (n / 10 =? 0)%nat then acc' else natDigits fuel' (n / 10) acc'
  end.

(** A non-negative integer in a template literal. *)
Definition natToString (n : nat) : string := natDigits (S n) n EmptyString.

(** The template [`Q${quarter} ${year}`]. *)
Definition quarterLabel (quarter year : nat) : string :=
  String "Q" (natToString quarter ++ String " " (natToString year))%string.

(** Lines 56-60: the quarter after [(quarter, year)]. *)
Definition nextQuarter (qy : nat * nat) : nat * nat :=
  let '(quarter, year) := qy in
  if (4 <? S quarter)%nat then (1%nat, S year) else (S quarter, year).

(** The loop of lines 54-61. *)
Fixpoint quartersFrom (numQuarters : nat) (qy : nat * nat) : list string :=
  match numQuarters with
  | O => []
  | S k => quarterLabel (fst qy) (snd qy) :: quartersFrom k (nextQuarter qy)
  end.

Definition generateQuarters (startQuarter : string) (numQuarters : nat) : list string :=
  match parseQuarter startQuarter with
  | None => []
  | Some qy => quartersFrom numQuarters qy
  end.

(** ** Interpolation (app.js, lines 1536-1682)

    A result [None] is the [TypeError] the source throws when it reads a
    field of [data[i]] beyond the end of the array; [Some None] is [null]. *)

(** Lines 1618-1623: the nearest point before [index] that is not missing,
    with its index. *)
Fixpoint findPrev (data : list DataPoint) (index : nat)
    : option (option (nat * DataPoint)) :=
  match index with
  | O => Some None
  | S i =>
      match nth_error data i with
      | None => None
      | Some d => if isMissing d then findPrev data i else Some (Some (i, d))
      end
  end.

(** Lines 1625-1630: the nearest point after [index] that is not missing. *)
Fixpoint findNextFrom (rest : list DataPoint) (i : nat) : option (nat * DataPoint) :=
  match rest with
  | [] => None
  | d :: rest' => if isMissing d then findNextFrom rest' (S i) else Some (i, d)
  end.

Definition findNext (data : list DataPoint) (index : nat) : option (nat * DataPoint) :=
  findNextFrom (skipn (S index) data) (S index).

Definition linearInterpolation (data : list DataPoint) (index : nat)
    : option (option float) :=
  match findPrev data index with
  | None => None
  | Some prev =>
      match prev, findNext data index with
      | Some (prevIndex, dp), Some (nextIndex, dn) =>
          let prevValue := accountsNumber dp in
          let nextValue := accountsNumber dn in
          let gap := num_of_nat (nextIndex - prevIndex) in
          let position := num_of_nat (index - prevIndex) in
          Some (Some (prevValue + (nextValue - prevValue) * (position / gap)))
      | Some (_, dp), None => Some (accounts dp)
      | None, Some (_, dn) => Some (accounts dn)
      | None, None => Some None
      end
  end.

Definition forwardFill (data : list DataPoint) (index : nat) : option (option float) :=
  match findPrev data index with
  | None => None
  | Some (Some (_, dp)) => Some (accounts dp)
  | Some None =>
      match findNext data index with
      | Some (_, dn) => Some (accounts dn)
      | None => Some None
      end
  end.

Definition gompertzInterpolation (data : list DataPoint) (index : nat)
    : option (option float) :=
  let validData := map accountsNumber (filter (fun d => negb (isMissing d)) data) in
  if (length validData <? 8)%nat then linearInterpolation data index
  else
    match fitGompertzCurve validData with
    | None => linearInterpolation data index
    | Some result =>
        if negb (valid result) then linearInterpolation data index
        else
          let value := gompertzModel (num_of_nat index) (pK (params result))
                         (pb (params result)) (pt0 (params result)) in
          if isFinite value then Some (Some value) else linearInterpolation data index
    end.

(** The value of the checked [interpolation] radio button. *)
Inductive InterpolationMethod : Type :=
  | MethodIgnore | MethodLinear | MethodGompertz | MethodForward.

(** Line 1541. *)
Fixpoint missingIndicesFrom (data : list DataPoint) (i : nat) : list nat :=
  match data with
  | [] => []
  | d :: rest =>
      if isMissing d then i :: missingIndicesFrom rest (S i)
      else missingIndicesFrom rest (S i)
  end.

Definition missingIndices (data : list DataPoint) : list nat :=
  missingIndicesFrom data 0.

(** Lines 1555-1563. *)
Definition interpolatedValue (method : InterpolationMethod) (data : list DataPoint)
    (i : nat) : option (option float) :=
  match method with
  | MethodLinear => linearInterpolation data i
  | MethodGompertz => gompertzInterpolation data i
  | MethodForward => forwardFill data i
  | MethodIgnore => Some None
  end.

(** Lines 1566-1568. *)
Definition fillPoint (v : float) (d : DataPoint) : DataPoint :=
  mkPoint (period d) (Some v) false Interpolated (isOutlier d).

(** Lines 1554-1570: the points are filled one after the other, each one
    seeing the values filled before it. *)
Fixpoint fillMissing (method : InterpolationMethod) (indices : list nat)
    (data : list DataPoint) : option (list DataPoint) :=
  match indices with
  | [] => Some data
  | i :: rest =>
      match interpolatedValue method data i with
      | None => None
      | Some (Some v) =>
          if isFinite v then
            match updateAt data i (fillPoint v) with
            | Some data' => fillMissing method rest data'
            | None => None
            end
          else fillMissing method rest data
      | Some None => fillMissing method rest data
      end
  end.

(** [applyInterpolation], on the series and its quality report. *)
Definition applyInterpolation (st : State) (method : InterpolationMethod)
    : option State :=
  let data := historicalData st in
  match missingIndices data, method with
  | [], _ => Some st
  | _, MethodIgnore => Some st
  | indices, _ =>
      match fillMissing method indices data with
      | None => None
      | Some data' =>
          Some (analyzeDataQuality (analyzeDataQuality
                  (mkState data' (dataQuality st) (dataErrorText st) (dataErrorShown st))))
      end
  end.

(** ** [generateForecasts] (app.js, lines 1004-1084) *)

(** [state.scenarioParams]. *)
Record ScenarioParams : Type := mkScenarios {
  conservativeParams : InterventionParams;
  moderateParams : InterventionParams;
  aggressiveParams : InterventionParams
}.

(** [state.forecastData]. *)
Record ForecastData : Type := mkForecast {
  periods : list string;
  baseline : list float;
  conservative : list float;
  moderate : list float;
  aggressive : list float;
  uncertaintyPercent : Z
}.

(** One round of the loop of lines 1030-1062: the four values pushed for
    the time [t], and whether the round set [hasInvalidForecasts]. *)
Definition forecastStep (fitted : Params) (sc : ScenarioParams) (launch t : float)
    : float * float * float * float * bool :=
  let base := gompertzModel t (pK fitted) (pb fitted) (pt0 fitted) in
  if negb (isFinite base) then (nan, nan, nan, nan, true)
  else
    let c := applyIntervention t base fitted (conservativeParams sc) launch in
    let m := applyIntervention t base fitted (moderateParams sc) launch in
    let a := applyIntervention t base fitted (aggressiveParams sc) launch in
    (base, c, m, a, negb (isFinite c) || negb (isFinite m) || negb (isFinite a)).

(** The rounds [i], [i + 1], ..., [i + count - 1].  [fittedParams] is
    [state.fittedParams], [None] for [null]: each round reads its fields at
    line 1032, and [None] is the [TypeError] it throws then. *)
Fixpoint forecastLoop (fittedParams : option Params) (sc : ScenarioParams)
    (baseOffset : nat) (launch : float) (count i : nat) (acc : ForecastData)
    (invalid : bool) : option (ForecastData * bool) :=
  match count with
  | O => Some (acc, invalid)
  | S count' =>
      match fittedParams with
      | None => None
      | Some fitted =>
          let '(b, c, m, a, bad) :=
            forecastStep fitted sc launch (num_of_nat (baseOffset + i)) in
          forecastLoop fittedParams sc baseOffset launch count' (S i)
            (mkForecast (periods acc) (baseline acc ++ [b]) (conservative acc ++ [c])
                        (moderate acc ++ [m]) (aggressive acc ++ [a])
                        (uncertaintyPercent acc))
            (invalid || bad)
      end
  end.

(** Lines 1073-1074. *)
Definition uncertaintyOf (quality : option QualityReport) : Z :=
  let dataQualityScore := match quality with Some q => score q | None => 100%Z end in
  if (95 <=? dataQualityScore)%Z then 2%Z
  else if (80 <=? dataQualityScore)%Z then 5%Z else 8%Z.

(** The forecast stored in [state.forecastData] and the flag
    [hasInvalidForecasts]; [None] is a [TypeError]: that of line 1015 on an
    empty series, or that of line 1032 when there are no fitted parameters
    and at least one quarter is asked for. *)
Definition generateForecasts (st : State) (fittedParams : option Params)
    (sc : ScenarioParams) (forecastQuarters : nat) (platformLaunch : float)
    : option (ForecastData * bool) :=
  match last (map Some (historicalData st)) None with
  | None => None
  | Some lastPoint =>
      let forecastPeriods := tl (generateQuarters (period lastPoint) (S forecastQuarters)) in
      let baseOffset := length (historicalData st) in
      match forecastLoop fittedParams sc baseOffset (num_of_nat baseOffset + platformLaunch)
              forecastQuarters 0 (mkForecast forecastPeriods [] [] [] [] 0) false with
      | None => None
      | Some (f, invalid) =>
          Some (mkForecast (periods f) (baseline f) (conservative f) (moderate f)
                           (aggressive f) (uncertaintyOf (dataQuality st)), invalid)
      end
  end.

End Model.

(** ** The order of binary64 numbers, in integers

    Used to reason on rounding: a number other than NaN is ranked by an
    integer so that the comparison of two numbers is the comparison of
    their ranks, and the rank of a rounded product or difference is a
    monotone function of the exact value. *)

Definition SFsign (x : spec_float) : bool :=
  match x with
  | S754_zero s | S754_infinity s | S754_finite s _ _ => s
  | S754_nan => false
  end.

(** [2^52], the number of mantissas in a binade. *)
Definition halfRange : Z := (2 ^ (prec - 1))%Z.

(** The rank of the infinities, one binade above the largest finite
    number. *)
Definition ordInfinity : Z := ((emax - prec - emin + 2) * halfRange)%Z.

(** The rank of the magnitude. *)
Definition ordF (x : spec_float) : Z :=
  match x with
  | S754_zero _ => 0%Z
  | S754_infinity _ => ordInfinity
  | S754_nan => 0%Z
  | S754_finite _ m e => ((e - emin) * halfRange + Zpos m)%Z
  end.

Definition ordS (x : spec_float) : Z :=
  if SFsign x then (- ordF x)%Z else ordF x.

(** The signed mantissa and the exponent of a finite number; a zero is
    [0 * 2^0]. *)
Definition SFmant (x : spec_float) : Z :=
  match x with
  | S754_finite s m _ => cond_Zopp s (Zpos m)
  | _ => 0%Z
  end.

Definition SFexp (x : spec_float) : Z :=
  match x with
  | S754_finite _ _ e => e
  | _ => 0%Z
  end.

Definition SFis_infinity (x : spec_float) : bool :=
  match x with
  | S754_infinity _ => true
  | _ => false
  end.

(** [a / 2^n] rounded to the nearest integer, ties to even, for [n >= 0]. *)
Definition rne_div (a n : Z) : Z :=
  let q := (a / 2 ^ n)%Z in
  match (2 * (a mod 2 ^ n) ?= 2 ^ n)%Z with
  | Lt => q
  | Eq => if Z.even q then q else (q + 1)%Z
  | Gt => (q + 1)%Z
  end.

(** [a * 2^(-n)] rounded to an integer. *)
Definition scaled (a n : Z) : Z :=
  if (n <? 0)%Z then (a * 2 ^ (- n))%Z else rne_div a n.

(** The rank of the number nearest to [a * 2^e], for [a > 0], before the
    cut at [ordInfinity]. *)
Definition rank (a e : Z) : Z :=
  let e' := fexp prec emax (Zdigits2 a + e) in
  ((e' - emin) * halfRange + scaled a (e' - e))%Z.

(** The rank of the number nearest to [z * 2^e]. *)
Definition roundedOrd (z e : Z) : Z :=
  match z with
  | Z0 => 0%Z
  | Zpos _ => Z.min ordInfinity (rank z e)
  | Zneg m => (- Z.min ordInfinity (rank (Zpos m) e))%Z
  end.

(** The rank of a Number. *)
Definition ord (x : float) : Z := ordS (Prim2SF x).

(** ** A reference implementation of the builtins

    Used to run the model on concrete inputs: [Math.exp] by a Taylor
    polynomial on [x / 1024] and ten squarings, [Math.log] by the series of
    the inverse hyperbolic tangent on the mantissa, [Math.pow] exactly for
    the exponent 2 the program uses. *)

Definition exp_taylor (y : float) : float :=
  fold_right (fun k acc => 1 + y / k * acc) 1
    [1; 2; 3; 4; 5; 6; 7; 8; 9; 10; 11; 12; 13; 14].

Fixpoint square_n (k : nat) (x : float) : float :=
  match k with
  | O => x
  | S k' => square_n k' (x * x)
  end.

Definition exp_ref (x : float) : float :=
  if is_nan x then nan
  else if 710 <? x then infinity
  else if x <? -746 then 0
  else square_n 10 (exp_taylor (x / 1024)).

Definition atanh_series (z : float) : float :=
  let z2 := z * z in
  z * fold_right (fun k acc => 1 / k + z2 * acc) 0
        [1; 3; 5; 7; 9; 11; 13; 15; 17; 19; 21; 23; 25; 27; 29; 31; 33; 35].

Definition ln2 : float := 0.6931471805599453.

Definition log_ref (x : float) : float :=
  if is_nan x || (x <? 0) then nan
  else if x =? 0 then neg_infinity
  else if x =? infinity then infinity
  else
    let (m, e) := Z.frexp x in
    let m := 2 * m in
    let e := (e - 1)%Z in
    let fe := if (e <? 0)%Z then - of_uint63 (Uint63.of_Z (- e))
              else of_uint63 (Uint63.of_Z e) in
    fe * ln2 + 2 * atanh_series ((m - 1) / (m + 1)).

Definition pow_ref (x y : float) : float :=
  if y =? 2 then x * x else exp_ref (y * log_ref x).

Definition JSMath_ref : JSMath :=
  {| Math_exp := exp_ref; Math_log := log_ref; Math_pow := pow_ref |}.

(** ** What the properties of the curve ask of [Math.exp]

    The language leaves the accuracy of [Math.exp] to the implementation;
    the properties that depend on its values are stated for every
    implementation that is non-negative, at most 1 on arguments that are
    not positive, monotone, and finite between -700 and 700. *)

Definition exp_nonnegative (exp : float -> float) : Prop :=
  forall x, is_nan (exp x) = false -> (0 <=? exp x) = true.

Definition exp_at_most_one (exp : float -> float) : Prop :=
  forall x, (x <=? 0) = true -> is_nan (exp x) = false -> (exp x <=? 1) = true.

Definition exp_monotone (exp : float -> float) : Prop :=
  forall x y, (x <=? y) = true ->
    is_nan (exp x) = false -> is_nan (exp y) = false -> (exp x <=? exp y) = true.

Definition exp_finite_in_range (exp : float -> float) : Prop :=
  forall x, (-700 <=? x) = true -> (x <=? 700) = true -> isFinite (exp x) = true.

(** A coarse implementation that meets the four conditions. *)
Definition exp_step (x : float) : float :=
  if is_nan x then nan else if x <? 0 then 0.5 else 1.

Definition JSMath_step : JSMath :=
  {| Math_exp := exp_step; Math_log := log_ref; Math_pow := pow_ref |}.

(** ** Proof automation *)

(** Turns the powers of two of the goal and of the hypotheses into
    variables, for [lia]. *)
Ltac gen_pow :=
  repeat match goal with
         | |- context [Z.pow 2 ?e] => generalize dependent (Z.pow 2 e); intros
         | H : context [Z.pow 2 ?e] |- _ => generalize dependent (Z.pow 2 e); intros
         end.

(** ** Notions used to state the properties *)

Section Notions.

Context {M : JSMath}.

(** The deduction of lines 542-559 for the number of valid points. *)
Definition countDeduction (validCount : nat) : Z :=
  if (validCount <? 8)%nat then 40%Z else if (validCount <? 12)%nat then 10%Z else 0%Z.

(** What the analysis of [data] does to one of its points. *)
Definition mark (data : list DataPoint) (d : DataPoint) : DataPoint :=
  if exceedsThreshold data d then flagOutlier d else d.

(** Two points with the same value and the same missing mark. *)
Definition sameValue (d' d : DataPoint) : Prop :=
  accounts d' = accounts d /\ isMissing d' = isMissing d.

(** Two points that differ at most in their outlier flag. *)
Definition sameButFlag (d d' : DataPoint) : Prop :=
  period d' = period d /\ accounts d' = accounts d
  /\ isMissing d' = isMissing d /\ dataType d' = dataType d.

Definition isOriginal (t : DataType) : bool :=
  match t with Original => true | _ => false end.

Definition isMissingType (t : DataType) : bool :=
  match t with Missing => true | _ => false end.

(** A point as the parser pushes it: a missing point without a value, or
    an original point with a value that is a number and not negative; no
    flag yet. *)
Definition parsedPoint (d : DataPoint) : bool :=
  negb (isOutlier d)
  && match accounts d with
     | None => isMissing d && isMissingType (dataType d)
     | Some v => negb (isMissing d) && isOriginal (dataType d)
                 && negb (isNaN v) && (0 <=? v)
     end.

(** The four decimal digits of a year. *)
Definition digitChar (k : nat) : ascii := ascii_of_nat (48 + k).

Definition fourDigits (y : nat) : string :=
  String (digitChar (y / 1000)) (String (digitChar (y / 100 mod 10))
    (String (digitChar (y / 10 mod 10)) (String (digitChar (y mod 10)) EmptyString))).

(** The quarter [i] steps after quarter [q] of year [y], for [q] from 1 to 4. *)
Definition quarterAfter (q y i : nat) : nat * nat :=
  (((q - 1 + i) mod 4 + 1)%nat, (y + (q - 1 + i) / 4)%nat).

End Notions.

(** ** Notions for the interpolation and the forecast *)

Section Notions2.

Context {M : JSMath}.

(** Every point of [data] at an index from [lo] up to [hi], [hi] excluded,
    is missing. *)
Definition missingBetween (data : list DataPoint) (lo hi : nat) : Prop :=
  forall k d, (lo <= k < hi)%nat -> nth_error data k = Some d -> isMissing d = true.

(** [d] is the point at index [j], and it is not missing. *)
Definition validAt (data : list DataPoint) (j : nat) (d : DataPoint) : Prop :=
  nth_error data j = Some d /\ isMissing d = false.

(** What an interpolation may do to a point: nothing, or, if the point was
    missing, give it a finite value. *)
Definition filled (d d' : DataPoint) : Prop :=
  d' = d
  \/ (isMissing d = true /\ exists v, isFinite v = true /\ d' = fillPoint v d).

(** The same, up to the outlier flag that the analysis may set on a point
    that is not missing. *)
Definition interpolated (d d' : DataPoint) : Prop :=
  (sameButFlag d d' /\ (isMissing d = true -> d' = d))
  \/ (isMissing d = true /\ period d' = period d /\ isMissing d' = false
      /\ dataType d' = Interpolated
      /\ exists v, accounts d' = Some v /\ isFinite v = true).

(** A point that is not missing has a finite value. *)
Definition finiteIfValid (d : DataPoint) : bool :=
  isMissing d
  || match accounts d with Some v => isFinite v | None => false end.

(** Every point that is not missing has a finite value, and there is such
    a point. *)
Definition fillable (data : list DataPoint) : Prop :=
  forallb finiteIfValid data = true
  /\ existsb (fun d => negb (isMissing d)) data = true.

(** The values of round [j] of the forecast loop. *)
Definition forecastRow (fitted : Params) (sc : ScenarioParams) (baseOffset : nat)
    (launch : float) (j : nat) : float * float * float * float * bool :=
  forecastStep fitted sc launch (num_of_nat (baseOffset + j)).

Definition rowBaseline (r : float * float * float * float * bool) : float :=
  let '(b, _, _, _, _) := r in b.
Definition rowConservative (r : float * float * float * float * bool) : float :=
  let '(_, c, _, _, _) := r in c.
Definition rowModerate (r : float * float * float * float * bool) : float :=
  let '(_, _, m, _, _) := r in m.
Definition rowAggressive (r : float * float * float * float * bool) : float :=
  let '(_, _, _, a, _) := r in a.
Definition rowInvalid (r : float * float * float * float * bool) : bool :=
  let '(_, _, _, _, bad) := r in bad.

End Notions2.

(** ** Notions for the grid search *)

Section Notions3.

Context {M : JSMath}.

(** The combinations the three loops of lines 120-147 reach, in order. *)
Definition gridCandidates (n maxAccounts : float) : list (float * float * float) :=
  flat_map (fun k_mult =>
    let K := maxAccounts * k_mult in
    if K <=? maxAccounts then []
    else flat_map (fun b =>
      if (b <=? 0) || (1.0 <? b) then []
      else map (fun t0 => (K, b, t0)) (t0_steps n)) b_steps) K_steps.

(** The squared error of a combination over the series, [None] when a
    prediction is not finite. *)
Definition errorOf (data : list float) (c : float * float * float) : option float :=
  let '(K, b, t0) := c in candidateError data 0 K b t0 0.

Definition tryTriple (data : list float) (s : Search) (c : float * float * float)
    : Search :=
  let '(K, b, t0) := c in tryCandidate data K b t0 s.

Definition paramsOf (c : float * float * float) : Params :=
  let '(K, b, t0) := c in mkParams K b t0.

(** The search has seen no NaN error, and its best parameters are those
    of its best error. *)
Definition goodSearch (data : list float) (s : Search) : Prop :=
  is_nan (bestError s) = false
  /\ match bestParams s with
     | None => bestError s = infinity
     | Some p =>
         candidateError data 0 (pK p) (pb p) (pt0 p) 0 = Some (bestError s)
         /\ isFinite (bestError s) = true
     end.

(** NaN or plus infinity. *)
Definition topNumber (x : float) : Prop :=
  is_nan x = true \/ ord x = ordInfinity.

(** The bounds of lines 203-206 on refined parameters. *)
Definition withinBounds (maxAccounts : float) (p : Params) : Prop :=
  (maxAccounts <? pK p) = true /\ (pK p <? maxAccounts * 5) = true
  /\ (0.01 <? pb p) = true /\ (pb p <? 1.0) = true
  /\ isFinite (pK p) = true /\ isFinite (pb p) = true /\ isFinite (pt0 p) = true.

End Notions3.

(** ** Notions for the intervention *)

Section Notions4.

Context {M : JSMath}.

(** [decayFactor] of line 302 and [expansionSmoother] of line 321, as
    functions of the time since the launch. *)
Definition decayFactor (tSinceLaunch : float) (ip : InterventionParams) : float :=
  Math_exp (Math_max (-100) (Math_min 0 ((- (Math_log 2)) * tSinceLaunch / half_life ip))).

Definition expansionSmoother (tSinceLaunch : float) (ip : InterventionParams) : float :=
  1 - Math_exp (Math_max (-100) (Math_min 0 ((-3) * (tSinceLaunch / expansion_length ip)))).

(** The adjusted parameters of a call. *)
Definition adjustedFor (t : float) (params : Params) (ip : InterventionParams)
    (launchQuarter : float) : Params :=
  adjustedParams params ip (accelerationFactor (t - launchQuarter) ip)
                 (capacityFactor (t - launchQuarter) ip).

End Notions4.

(** ** A second implementation of [Math.exp] for the instances

    Four steps, at -1, 0 and 1: it meets the four conditions on
    [Math.exp], and the curve computed with it takes more than one value. *)

Definition exp_stairs (x : float) : float :=
  if is_nan x then nan
  else if x <? -1 then 0.25
  else if x <? 0 then 0.5
  else if x <? 1 then 1
  else 2.

Definition JSMath_stairs : JSMath :=
  {| Math_exp := exp_stairs; Math_log := log_ref; Math_pow := pow_ref |}.

(** ** White space beyond ASCII, for the instances *)

(** U+00A0, the no-break space, and U+3000, the ideographic space. *)
Definition noBreakSpace : string :=
  String (ascii_of_N 194) (String (ascii_of_N 160) EmptyString).

Definition ideographicSpace : string :=
  String (ascii_of_N 227) (String (ascii_of_N 128) (String (ascii_of_N 128) EmptyString)).

(** * Facts on binary64 comparison

    The comparisons of [PrimFloat] are read through their specification on
    [spec_float]. *)

Module FloatCompare.

Lemma SFcompare_antisym :
  forall f1 f2, SFcompare f2 f1 = option_map CompOpp (SFcompare f1 f2).
Proof.
  assert (P : forall m1 m2, Pos.compare_cont Eq m2 m1 = CompOpp (Pos.compare_cont Eq m1 m2)).
  { intros. now rewrite Pos.compare_cont_antisym. }
  intros [s1|s1| |s1 m1 e1] [s2|s2| |s2 m2 e2]; simpl;
    try destruct s1; try destruct s2; simpl; try reflexivity;
    rewrite (Z.compare_antisym e1 e2), (P m1 m2);
    destruct (e1 ?= e2)%Z; simpl; try reflexivity;
    now rewrite ?CompOpp_involutive.
Qed.

Lemma SFcompare_refl :
  forall f, f <> S754_nan -> SFcompare f f = Some Eq.
Proof.
  intros [s|s| |s m e] H; simpl; try destruct s; try reflexivity; try congruence.
  - now rewrite Z.compare_refl, Pos.compare_cont_refl.
  - now rewrite Z.compare_refl, Pos.compare_cont_refl.
Qed.

Lemma SFcompare_None :
  forall f1 f2, SFcompare f1 f2 = None <-> f1 = S754_nan \/ f2 = S754_nan.
Proof.
  intros [s1|s1| |s1 m1 e1] [s2|s2| |s2 m2 e2]; simpl; split; intros H;
    try discriminate; try (destruct H; discriminate); auto.
Qed.

Lemma is_nan_spec : forall x, is_nan x = true <-> Prim2SF x = S754_nan.
Proof.
  intros x. unfold is_nan. rewrite FloatAxioms.eqb_spec. unfold SFeqb. split.
  - intros H. destruct (SFcompare (Prim2SF x) (Prim2SF x)) as [c|] eqn:E.
    + destruct (Prim2SF x) eqn:Ex; try reflexivity;
        rewrite SFcompare_refl in E by discriminate; injection E as <-; discriminate.
    + apply SFcompare_None in E. tauto.
  - intros ->. reflexivity.
Qed.

Lemma is_nan_false : forall x, is_nan x = false <-> Prim2SF x <> S754_nan.
Proof.
  intros x. rewrite <- is_nan_spec. destruct (is_nan x); split; congruence.
Qed.

(** Two numbers are comparable unless one is NaN. *)
Lemma compare_total :
  forall x y, is_nan x = false -> is_nan y = false ->
    exists c, SFcompare (Prim2SF x) (Prim2SF y) = Some c.
Proof.
  intros x y Hx Hy. apply is_nan_false in Hx, Hy.
  destruct (SFcompare (Prim2SF x) (Prim2SF y)) as [c|] eqn:E; [now exists c|].
  apply SFcompare_None in E. tauto.
Qed.

Lemma ltb_true_not_nan :
  forall x y, (x <? y) = true -> is_nan x = false /\ is_nan y = false.
Proof.
  intros x y H. rewrite ltb_spec in H. unfold SFltb in H.
  split; apply is_nan_false; intros E; rewrite E in H; simpl in H;
    try discriminate; destruct (Prim2SF x); discriminate.
Qed.

Lemma leb_true_not_nan :
  forall x y, (x <=? y) = true -> is_nan x = false /\ is_nan y = false.
Proof.
  intros x y H. rewrite leb_spec in H. unfold SFleb in H.
  split; apply is_nan_false; intros E; rewrite E in H; simpl in H;
    try discriminate; destruct (Prim2SF x); discriminate.
Qed.

Lemma leb_negb_ltb :
  forall x y, is_nan x = false -> is_nan y = false -> (x <=? y) = negb (y <? x).
Proof.
  intros x y Hx Hy. rewrite leb_spec, ltb_spec. unfold SFleb, SFltb.
  rewrite (SFcompare_antisym (Prim2SF x) (Prim2SF y)).
  destruct (compare_total x y Hx Hy) as [c ->]. now destruct c.
Qed.

Lemma ltb_negb_leb :
  forall x y, is_nan x = false -> is_nan y = false -> (x <? y) = negb (y <=? x).
Proof.
  intros x y Hx Hy. rewrite (leb_negb_ltb y x Hy Hx). now rewrite negb_involutive.
Qed.

Lemma leb_ltb_false : forall x y, (x <=? y) = true -> (y <? x) = false.
Proof.
  intros x y H. destruct (leb_true_not_nan x y H) as [Hx Hy].
  rewrite (leb_negb_ltb x y Hx Hy) in H. now destruct (y <? x).
Qed.

Lemma ltb_leb : forall x y, (x <? y) = true -> (x <=? y) = true.
Proof.
  intros x y. rewrite ltb_spec, leb_spec. unfold SFltb, SFleb.
  destruct (SFcompare (Prim2SF x) (Prim2SF y)) as [[]|]; congruence.
Qed.

Lemma eqb_ltb_false : forall x y, (x =? y) = true -> (y <? x) = false.
Proof.
  intros x y. rewrite FloatAxioms.eqb_spec, ltb_spec. unfold SFeqb, SFltb.
  rewrite (SFcompare_antisym (Prim2SF x) (Prim2SF y)).
  destruct (SFcompare (Prim2SF x) (Prim2SF y)) as [[]|]; simpl; congruence.
Qed.

Lemma leb_refl : forall x, is_nan x = false -> (x <=? x) = true.
Proof.
  intros x H. rewrite leb_spec. unfold SFleb.
  now rewrite SFcompare_refl by now apply is_nan_false.
Qed.

Lemma isFinite_not_nan : forall x, isFinite x = true -> is_nan x = false.
Proof.
  unfold isFinite, is_finite. intros x H. now destruct (is_nan x).
Qed.

(** [Math.max] and [Math.min] return one of their arguments, or NaN. *)
Lemma Math_max_cases :
  forall x y, Math_max x y = nan \/ Math_max x y = x \/ Math_max x y = y.
Proof.
  intros x y. unfold Math_max.
  destruct (is_nan x || is_nan y), (x <? y), (y <? x), (get_sign x); auto.
Qed.

Lemma Math_max_lower_l :
  forall x y, is_nan (Math_max x y) = false -> (x <=? Math_max x y) = true.
Proof.
  intros x y. unfold Math_max.
  destruct (is_nan x || is_nan y) eqn:Hn; [intros H; discriminate H|].
  apply orb_false_iff in Hn as [Hx Hy]. intros _.
  destruct (x <? y) eqn:E1; [now apply ltb_leb|].
  destruct (y <? x) eqn:E2; [now apply leb_refl|].
  destruct (get_sign x); [|now apply leb_refl].
  rewrite leb_negb_ltb by assumption. now rewrite E2.
Qed.

Lemma Math_min_upper_l :
  forall x y, is_nan (Math_min x y) = false -> (Math_min x y <=? x) = true.
Proof.
  intros x y. unfold Math_min.
  destruct (is_nan x || is_nan y) eqn:Hn; [intros H; discriminate H|].
  apply orb_false_iff in Hn as [Hx Hy]. intros _.
  destruct (x <? y) eqn:E1; [now apply leb_refl|].
  destruct (y <? x) eqn:E2; [now apply ltb_leb|].
  destruct (get_sign x); [now apply leb_refl|].
  rewrite leb_negb_ltb by assumption. now rewrite E1.
Qed.

End FloatCompare.

(** * Properties *)

(** ** The intervention model *)

Section Intervention.

Context {M : JSMath}.

(** C2: before the launch quarter the baseline value is returned as it is. *)
Theorem applyIntervention_before_launch :
  forall (t baselineValue : float) (params : Params)
         (scenarioParams : InterventionParams) (launchQuarter : float),
    (t <? launchQuarter) = true ->
    applyIntervention t baselineValue params scenarioParams launchQuarter = baselineValue.
Proof.
  intros t bv p sp lq Hlt. unfold applyIntervention.
  destruct (negb (isFinite t) || negb (isFinite bv)); [reflexivity|].
  destruct (negb (isFinite (pK p)) || negb (isFinite (pb p)) || negb (isFinite (pt0 p)));
    [reflexivity|].
  now rewrite Hlt.
Qed.

(** Every path of [applyIntervention] ends in the baseline value or in a
    finite evaluation of the model at the adjusted parameters. *)
Lemma applyIntervention_cases :
  forall t bv p sp lq,
    applyIntervention t bv p sp lq = bv \/
    (exists adj, applyIntervention t bv p sp lq = gompertzModel t (pK adj) (pb adj) (pt0 adj)
                 /\ isFinite (gompertzModel t (pK adj) (pb adj) (pt0 adj)) = true).
Proof.
  intros t bv p sp lq. unfold applyIntervention.
  repeat match goal with
         | |- context [if ?c then bv else _] => destruct c eqn:?; [now left|]
         end.
  match goal with
  | |- context [gompertzModel t (pK ?a) _ _] => set (adj := a) in *
  end.
  destruct (isFinite (gompertzModel t (pK adj) (pb adj) (pt0 adj))) eqn:Hfin; simpl.
  - right. exists adj. now split.
  - now left.
Qed.

(** A decay factor that is not finite makes the acceleration factor 1, and
    so does an expansion smoother for the capacity factor. *)
Lemma neutral_factors :
  forall tSinceLaunch ip,
    (isFinite (decayFactor tSinceLaunch ip) = false ->
     accelerationFactor tSinceLaunch ip = 1)
    /\ ((tSinceLaunch <? expansion_length ip) = true ->
        isFinite (expansionSmoother tSinceLaunch ip) = false ->
        capacityFactor tSinceLaunch ip = 1).
Proof.
  intros ts ip. unfold accelerationFactor, capacityFactor, decayFactor, expansionSmoother.
  split.
  - intros H. destruct (ts <? window_length ip); [|reflexivity]. now rewrite H.
  - intros Hlt H. now rewrite Hlt, H.
Qed.

(** Past the first three guards the call is decided by the factors, the
    adjusted parameters and the value of the model at them. *)
Lemma applyIntervention_after_launch :
  forall t bv p sp lq,
    let adj := adjustedFor t p sp lq in
    let result := gompertzModel t (pK adj) (pb adj) (pt0 adj) in
    applyIntervention t bv p sp lq = bv
    \/ (applyIntervention t bv p sp lq = result
        /\ isFinite (accelerationFactor (t - lq) sp) = true
        /\ isFinite (capacityFactor (t - lq) sp) = true
        /\ isFinite (pK adj) = true /\ isFinite (pb adj) = true
        /\ isFinite (pt0 adj) = true /\ isFinite result = true).
Proof.
  intros t bv p sp lq. cbv zeta. unfold applyIntervention, adjustedFor.
  destruct (negb (isFinite t) || negb (isFinite bv)); [now left|].
  destruct (negb (isFinite (pK p)) || negb (isFinite (pb p)) || negb (isFinite (pt0 p)));
    [now left|].
  destruct (t <? lq); [now left|].
  destruct (isFinite (accelerationFactor (t - lq) sp)) eqn:Fa; [|now left].
  destruct (isFinite (capacityFactor (t - lq) sp)) eqn:Fc; [|now left].
  cbn [negb orb].
  set (adj := adjustedParams p sp _ _).
  destruct (isFinite (pK adj)) eqn:FK; [|now left].
  destruct (isFinite (pb adj)) eqn:Fb; [|now left].
  destruct (isFinite (pt0 adj)) eqn:Ft; [|now left].
  cbn [negb orb].
  destruct (isFinite (gompertzModel t (pK adj) (pb adj) (pt0 adj))) eqn:Fr; [|now left].
  cbn [negb]. right. repeat split; auto.
Qed.

(** C4, as the code has it: on a finite baseline value the result is
    finite and not NaN, whatever the scenario parameters are (a zero
    [half_life] included).  The fall-backs are of two kinds.  A decay
    factor or an expansion smoother that is not finite gives the factor 1,
    not the baseline value.  An acceleration or capacity factor, an
    adjusted parameter or a value of the model that is not finite gives the
    baseline value; and any other result is the value of the model at the
    adjusted parameters. *)
Theorem applyIntervention_finite :
  forall (t baselineValue : float) (params : Params)
         (scenarioParams : InterventionParams) (launchQuarter : float),
    isFinite baselineValue = true ->
    let r := applyIntervention t baselineValue params scenarioParams launchQuarter in
    let tSinceLaunch := t - launchQuarter in
    let adj := adjustedFor t params scenarioParams launchQuarter in
    let result := gompertzModel t (pK adj) (pb adj) (pt0 adj) in
    (isFinite r = true /\ isNaN r = false)
    /\ (isFinite (decayFactor tSinceLaunch scenarioParams) = false ->
        accelerationFactor tSinceLaunch scenarioParams = 1)
    /\ ((tSinceLaunch <? expansion_length scenarioParams) = true ->
        isFinite (expansionSmoother tSinceLaunch scenarioParams) = false ->
        capacityFactor tSinceLaunch scenarioParams = 1)
    /\ (isFinite (accelerationFactor tSinceLaunch scenarioParams) = false
        \/ isFinite (capacityFactor tSinceLaunch scenarioParams) = false
        \/ isFinite (pK adj) = false \/ isFinite (pb adj) = false
        \/ isFinite (pt0 adj) = false \/ isFinite result = false ->
        r = baselineValue)
    /\ (r = baselineValue \/ r = result).
Proof.
  intros t bv p sp lq Hbv. cbv zeta.
  destruct (neutral_factors (t - lq) sp) as [Na Nc].
  pose proof (applyIntervention_after_launch t bv p sp lq) as C. cbv zeta in C.
  assert (Hfin : isFinite (applyIntervention t bv p sp lq) = true).
  { destruct C as [-> | (-> & _ & _ & _ & _ & _ & H)]; assumption. }
  split; [split; [exact Hfin|]|].
  { unfold isFinite, is_finite, isNaN in *.
    destruct (is_nan (applyIntervention t bv p sp lq)); [discriminate Hfin | reflexivity]. }
  split; [exact Na|]. split; [exact Nc|]. split.
  - intros H. destruct C as [E | (_ & Fa & Fc & FK & Fb & Ft & Fr)]; [exact E|].
    repeat destruct H as [H | H]; congruence.
  - destruct C as [E | (E & _)]; [now left | now right].
Qed.

(** C9: a non-finite [t] or baseline value is answered with the baseline
    value itself, so a NaN baseline comes back as NaN. *)
Theorem applyIntervention_nonfinite_input :
  forall (t baselineValue : float) (params : Params)
         (scenarioParams : InterventionParams) (launchQuarter : float),
    isFinite t = false \/ isFinite baselineValue = false ->
    applyIntervention t baselineValue params scenarioParams launchQuarter = baselineValue
    /\ (isNaN baselineValue = true ->
        isNaN (applyIntervention t baselineValue params scenarioParams launchQuarter) = true).
Proof.
  intros t bv p sp lq H.
  assert (E : applyIntervention t bv p sp lq = bv).
  { unfold applyIntervention. destruct H as [-> | ->]; simpl; [reflexivity|].
    now rewrite orb_true_r. }
  rewrite E. auto.
Qed.

End Intervention.

(** ** The curve fit *)

Section Fit.

Context {M : JSMath}.

Import FloatCompare.

(** The flag of the residual loop stays clear only if every prediction it
    met was finite. *)
Lemma residuals_hasNaN :
  forall data i p mean acc,
    hasNaNPredictions (residuals data i p mean acc) = false ->
    hasNaNPredictions acc = false /\
    forall j, (j < length data)%nat ->
      isFinite (gompertzModel (num_of_nat (i + j)) (pK p) (pb p) (pt0 p)) = true.
Proof.
  induction data as [|d rest IH]; intros i p mean acc H; simpl in *.
  - split; [assumption|]. intros j Hj. lia.
  - destruct (isFinite (gompertzModel (num_of_nat i) (pK p) (pb p) (pt0 p))) eqn:E;
      simpl in H; apply IH in H as [Hacc Hrest]; simpl in Hacc.
    + split; [assumption|]. intros [|j] Hj.
      * now rewrite Nat.add_0_r.
      * rewrite <- Nat.add_succ_comm. apply Hrest. lia.
    + discriminate Hacc.
Qed.

Lemma r2_of_range :
  forall res, is_nan (r2_of res) = false ->
    (0 <=? r2_of res) = true /\ (r2_of res <=? 1) = true.
Proof.
  intros res. unfold r2_of. destruct (0 <? ssTot res); [|intros _; now vm_compute].
  set (y := Math_min 1 (1 - ssRes res / ssTot res)). intros Hn. split.
  - now apply Math_max_lower_l.
  - destruct (Math_max_cases 0 y) as [E | [E | E]]; rewrite E in *.
    + discriminate Hn.
    + reflexivity.
    + now apply Math_min_upper_l.
Qed.

(** The metrics of any parameters, as [fitQuality] reports them. *)
Lemma fitQuality_spec :
  forall (data : list float) (n : float) (p : Params),
    let res := residuals data 0 p (mean_of data n) (mkResiduals 0 0 false) in
    let r := fitQuality data n p in
    params r = p
    /\ ((0 <=? r2 r) = true /\ (r2 r <=? 1) = true)
    /\ ((ssTot res =? 0) = true -> r2 r = 0)
    /\ (valid r = true ->
        (forall i, (i < length data)%nat ->
           isFinite (gompertzModel (num_of_nat i) (pK p) (pb p) (pt0 p)) = true)
        /\ isFinite (r2_of res) = true).
Proof.
  intros data n p res r. unfold r, fitQuality. fold res. cbn [params r2 valid].
  split; [reflexivity|]. split; [|split].
  - destruct (isFinite (r2_of res)) eqn:E; [|split; reflexivity].
    now apply r2_of_range, isFinite_not_nan.
  - intros Hz. apply eqb_ltb_false in Hz.
    unfold r2_of. rewrite Hz. reflexivity.
  - intros H. apply andb_true_iff in H as [H1 H2]. split; [|exact H2].
    apply negb_true_iff in H1. apply residuals_hasNaN in H1 as [_ H1].
    intros i Hi. exact (H1 i Hi).
Qed.

Lemma fitGompertzCurve_eq :
  forall data,
    fitGompertzCurve data =
    if negb (isFinite (pK (refinedParams data))) || negb (isFinite (pb (refinedParams data)))
       || negb (isFinite (pt0 (refinedParams data)))
    then None
    else Some (fitQuality data (num_of_nat (length data))
                 (correctParams (Math_max_list data) (refinedParams data))).
Proof. reflexivity. Qed.

(** C3: the reported R2 lies in [0, 1]; it is 0 whenever the total sum of
    squares is zero; and [valid] holds only if every prediction over the
    indices of the series was finite and the computed R2 is finite. *)
Theorem fitGompertzCurve_quality :
  forall (data : list float) (r : FitResult),
    fitGompertzCurve data = Some r ->
    let n := num_of_nat (length data) in
    let res := residuals data 0 (params r) (mean_of data n) (mkResiduals 0 0 false) in
    ((0 <=? r2 r) = true /\ (r2 r <=? 1) = true)
    /\ ((ssTot res =? 0) = true -> r2 r = 0)
    /\ (valid r = true ->
        (forall i, (i < length data)%nat ->
           isFinite (gompertzModel (num_of_nat i) (pK (params r)) (pb (params r))
                                   (pt0 (params r))) = true)
        /\ isFinite (r2_of res) = true).
Proof.
  intros data r Hfit. rewrite fitGompertzCurve_eq in Hfit.
  revert Hfit. generalize (refinedParams data) as p0. intros p0 Hfit.
  destruct (negb (isFinite (pK p0)) || _ || _); [discriminate|].
  revert Hfit. generalize (correctParams (Math_max_list data) p0) as p. intros p Hfit.
  injection Hfit as <-.
  destruct (fitQuality_spec data (num_of_nat (length data)) p) as (Hp & H).
  rewrite Hp. exact H.
Qed.

(** C1, at a series of eight zeros: the search rejects every candidate, the
    fallback and the final correction both multiply the maximum 0, and the
    fit is returned with [K] equal to the maximum of the series. *)
Theorem fitGompertzCurve_zero_series :
  let data := [0; 0; 0; 0; 0; 0; 0; 0] in
  exists r, fitGompertzCurve data = Some r
            /\ pK (params r) = 0
            /\ (pK (params r) <=? Math_max_list data) = true.
Proof.
  eexists. split; [vm_compute; reflexivity|]. split; vm_compute; reflexivity.
Qed.

End Fit.

(** ** Parsing the input *)

Section Parsing.

Context {M : JSMath}.

Lemma parseLine_rejects :
  forall line, rejectedRow line = true <-> exists e, parseLine line = inl e.
Proof.
  intros line.
  unfold rejectedRow, unreadableValue, negativeValue, hasValue, wrongFieldCount,
    valueField, parseLine.
  destruct (split "," line) as [|p0 [|p1 [|p2 rest]]]; simpl;
    try (split; [intros _; eexists; reflexivity | reflexivity]).
  destruct (isMissingMarker (trim p1)); simpl.
  - split; [discriminate | intros [e He]; discriminate].
  - destruct (isNaN (parseFloat (trim p1))); simpl.
    + split; [intros _; eexists; reflexivity | reflexivity].
    + destruct (parseFloat (trim p1) <? 0).
      * split; [intros _; eexists; reflexivity | reflexivity].
      * split; [discriminate | intros [e He]; discriminate].
Qed.

(** The loop over the lines throws as soon as a row is rejected, and pushes
    one point for each other row. *)
Lemma parseLines_spec :
  forall lines data,
    match parseLines lines data with
    | inl _ => exists line, In line lines /\ isBlank line = false /\ rejectedRow line = true
    | inr data' =>
        (forall line, In line lines -> isBlank line = false -> rejectedRow line = false)
        /\ length data' = (length data + length (filter (fun l => negb (isBlank l)) lines))%nat
    end.
Proof.
  induction lines as [|line rest IH]; intros data; simpl.
  - split; [intros line []|lia].
  - fold (isBlank line). destruct (isBlank line) eqn:Hb; simpl.
    + specialize (IH data). destruct (parseLines rest data) as [e|data'].
      * destruct IH as (l & Hin & H). exists l. auto.
      * destruct IH as [Hall Hlen]. split; [|exact Hlen].
        intros l [<- | Hin] Hl; [congruence | now apply Hall].
    + destruct (parseLine line) as [e|d] eqn:Hp.
      * exists line. repeat split; auto. apply parseLine_rejects. now exists e.
      * specialize (IH (data ++ [d])).
        destruct (parseLines rest (data ++ [d])) as [e|data'].
        -- destruct IH as (l & Hin & H). exists l. auto.
        -- destruct IH as [Hall Hlen]. split.
           ++ intros l [E | Hin] Hl; [subst l|now apply Hall].
              destruct (rejectedRow line) eqn:Hr; [|reflexivity].
              apply parseLine_rejects in Hr as [e He]. congruence.
           ++ rewrite Hlen, length_app. simpl. lia.
Qed.

Lemma parseData_fails :
  forall dataInput,
    (exists line, In line (dataRows dataInput) /\ rejectedRow line = true)
    \/ (length (dataRows dataInput) < 8)%nat ->
    exists e, parseData dataInput = inl e.
Proof.
  intros dataInput H. unfold parseData, dataRows in *.
  pose proof (parseLines_spec (inputLines dataInput) []) as S.
  destruct (parseLines (inputLines dataInput) []) as [e|data]; [now exists e|].
  destruct S as [Hall Hlen]. simpl in Hlen.
  destruct H as [(line & Hin & Hrej) | Hshort].
  - apply filter_In in Hin as [Hin Hb]. apply negb_true_iff in Hb.
    rewrite (Hall line Hin Hb) in Hrej. discriminate.
  - rewrite <- Hlen in Hshort. apply Nat.ltb_lt in Hshort. rewrite Hshort.
    now exists TooFewPoints.
Qed.

(** C7, as the code has it: a row that is not blank and has other than two
    comma-separated fields, a value in which [parseFloat] finds no number, a
    negative value, or fewer than 8 rows, make the call end in an error
    shown to the user, with the stored series and its quality report as they
    were. *)
Theorem parseAndDisplayData_rejects :
  forall (st : State) (dataInput : string),
    (exists line, In line (dataRows dataInput) /\ rejectedRow line = true)
    \/ (length (dataRows dataInput) < 8)%nat ->
    exists e,
      parseAndDisplayData st dataInput
      = mkState (historicalData st) (dataQuality st) (Some e) true.
Proof.
  intros st dataInput H. destruct (parseData_fails dataInput H) as [e He].
  exists e. unfold parseAndDisplayData. now rewrite He.
Qed.

End Parsing.

(** ** Data quality *)

Section Quality.

Context {M : JSMath}.

Import FloatCompare.

Lemma markOutliers_nth :
  forall data i d,
    nth_error data i = Some d ->
    nth_error (markOutliers data) i
    = Some (if exceedsThreshold data d then flagOutlier d else d).
Proof.
  intros data i d H. unfold markOutliers.
  now rewrite nth_error_map, H.
Qed.

(** An update that leaves [accounts] and [isMissing] alone leaves the
    outlier test alone. *)
Lemma updateAt_nth :
  forall data i f data',
    updateAt data i f = Some data' ->
    exists d, nth_error data i = Some d /\ nth_error data' i = Some (f d).
Proof.
  induction data as [|d rest IH]; intros [|i] f data' H; simpl in *; try discriminate.
  - injection H as <-. now exists d.
  - destruct (updateAt rest i f) as [rest'|] eqn:E; [|discriminate].
    injection H as <-. simpl. now apply IH.
Qed.


Lemma exceedsThreshold_ext :
  forall data data' d d',
    map accountsNumber (filter (fun d => negb (isMissing d)) data')
    = map accountsNumber (filter (fun d => negb (isMissing d)) data) ->
    accounts d' = accounts d -> isMissing d' = isMissing d ->
    exceedsThreshold data' d' = exceedsThreshold data d.
Proof.
  intros data data' d d' Hmap Ha Hm. unfold exceedsThreshold.
  rewrite Hmap, Hm.
  replace (length (filter (fun d0 => negb (isMissing d0)) data'))
    with (length (filter (fun d0 => negb (isMissing d0)) data)).
  - unfold zScore, accountsNumber. now rewrite Ha.
  - rewrite <- (length_map accountsNumber), <- Hmap. now rewrite length_map.
Qed.


Lemma filter_all :
  forall (A : Type) (f : A -> bool) (l : list A), forallb f l = true -> filter f l = l.
Proof.
  induction l as [|a l IH]; simpl; intros H; [reflexivity|].
  apply andb_true_iff in H as [Ha Hl]. now rewrite Ha, IH.
Qed.

Lemma filter_none :
  forall (A : Type) (f : A -> bool) (l : list A), existsb f l = false -> filter f l = [].
Proof.
  induction l as [|a l IH]; simpl; intros H; [reflexivity|].
  apply orb_false_iff in H as [Ha Hl]. now rewrite Ha, IH.
Qed.

Lemma countDrops_nonDecreasing :
  forall rest prev, nonDecreasingFrom prev rest = true -> countDrops prev rest = O.
Proof.
  induction rest as [|v rest IH]; simpl; intros prev H; [reflexivity|].
  apply andb_true_iff in H as [Hle Hrest].
  now rewrite (leb_ltb_false _ _ Hle), IH.
Qed.

(** C6: twenty points, none missing, no value below the one before and no
    z-score above 2 give the score 100 and the single issue that reports
    complete data. *)
Theorem analyzeDataQuality_clean_series :
  forall (st : State),
    let data := historicalData st in
    length data = 20%nat ->
    forallb (fun d => negb (isMissing d)) data = true ->
    nonDecreasing (map accountsNumber data) = true ->
    existsb (fun d => 2 <? seriesZScore data d) data = false ->
    dataQuality (analyzeDataQuality st)
    = Some (mkQuality 100 [DataComplete 20] 0 20 20).
Proof.
  intros st data Hlen Hpresent Hmono Hz. simpl. fold data. f_equal.
  assert (Hvalid : filter (fun d => negb (isMissing d)) data = data)
    by now apply filter_all.
  assert (Hmissing : filter isMissing data = []).
  { apply filter_none. clear -Hpresent.
    induction data as [|d l IH]; simpl in *; [reflexivity|].
    apply andb_true_iff in Hpresent as [Hd Hl]. rewrite (IH Hl).
    now destruct (isMissing d). }
  assert (Hout : countOutliers data = O).
  { unfold countOutliers. rewrite filter_none; [reflexivity|].
    rewrite <- Hz. clear Hz.
    assert (G : forall l, forallb (fun d => negb (isMissing d)) l = true ->
                existsb (exceedsThreshold data) l
                = existsb (fun d => 2 <? seriesZScore data d) l).
    { induction l as [|d l IH]; simpl; intros Hl; [reflexivity|].
      apply andb_true_iff in Hl as [Hd Hl]. rewrite (IH Hl). f_equal.
      unfold exceedsThreshold, seriesZScore. rewrite Hvalid, Hd, Hlen. reflexivity. }
    now apply G. }
  assert (Hdrop : countNonMonotonic (map accountsNumber data) = O).
  { unfold countNonMonotonic. unfold nonDecreasing in Hmono.
    destruct (map accountsNumber data) as [|v rest]; [reflexivity|].
    now apply countDrops_nonDecreasing. }
  unfold qualityReport. fold data. rewrite Hmissing, Hvalid, Hout, Hdrop, Hlen.
  reflexivity.
Qed.

End Quality.

(** ** The theorems at concrete inputs

    The builtins are those of [JSMath_ref]. *)

Lemma applyIntervention_before_launch_witness :
  (20 <? 21) = true
  /\ @applyIntervention JSMath_ref 20 2300000 (mkParams 2500000 0.2 8)
       (mkIntervention 0.2 1 0.05 8 8 10) 21 = 2300000.
Proof.
  split; [reflexivity|].
  apply (@applyIntervention_before_launch JSMath_ref). reflexivity.
Defined.

Lemma applyIntervention_finite_witness :
  let p := mkParams 2500000 0.2 8 in
  let ip := mkIntervention 0.2 1 0.05 0 8 10 in
  isFinite 2300000 = true
  /\ isFinite (@applyIntervention JSMath_ref 25 2300000 p ip 21) = true
  /\ isNaN (@applyIntervention JSMath_ref 25 2300000 p ip 21) = false.
Proof.
  intros p ip. split; [reflexivity|].
  apply (@applyIntervention_finite JSMath_ref 25 2300000 p ip 21). reflexivity.
Defined.

(** The claim of C4 as the spec words it fails: with [half_life = 0] at the
    launch quarter the decay exponent is [-0 / 0], the decay factor is NaN,
    and the call does not return the baseline value: the acceleration
    factor becomes 1 and the capacity and the time shift still apply. *)
Lemma applyIntervention_neutral_not_baseline :
  let p := mkParams 2500000 0.2 8 in
  let ip := mkIntervention 0.2 1 0.05 0 8 10 in
  isFinite (@decayFactor JSMath_ref (21 - 21) ip) = false
  /\ @accelerationFactor JSMath_ref (21 - 21) ip = 1
  /\ (@applyIntervention JSMath_ref 21 2300000 p ip 21 =? 2300000) = false
  /\ (2352504 <? @applyIntervention JSMath_ref 21 2300000 p ip 21) = true.
Proof.
  intros p ip. repeat split; vm_compute; reflexivity.
Qed.

Lemma applyIntervention_nonfinite_input_witness :
  isFinite nan = false
  /\ @applyIntervention JSMath_ref 25 nan (mkParams 2500000 0.2 8)
       (mkIntervention 0.2 1 0.05 8 8 10) 21 = nan.
Proof.
  split; [reflexivity|].
  apply (@applyIntervention_nonfinite_input JSMath_ref 25 nan). right. reflexivity.
Defined.

Lemma fitGompertzCurve_quality_witness :
  exists r, @fitGompertzCurve JSMath_ref SAMPLE_accounts = Some r
            /\ (0 <=? r2 r) = true /\ (r2 r <=? 1) = true /\ valid r = true.
Proof.
  destruct (@fitGompertzCurve JSMath_ref SAMPLE_accounts) as [r|] eqn:E.
  - exists r. split; [reflexivity|].
    destruct (@fitGompertzCurve_quality JSMath_ref SAMPLE_accounts r E) as [[H0 H1] _].
    repeat split; try assumption.
    vm_compute in E. injection E as <-. reflexivity.
  - vm_compute in E. discriminate E.
Defined.

Lemma analyzeDataQuality_clean_series_witness :
  let data := map (fun v => mkPoint "" (Some v) false Original false)
                [10; 20; 30; 40; 50; 60; 70; 80; 90; 100;
                 110; 120; 130; 140; 150; 160; 170; 180; 190; 200] in
  let st := mkState data None None false in
  (length data = 20%nat
   /\ forallb (fun d => negb (isMissing d)) data = true
   /\ nonDecreasing (map accountsNumber data) = true
   /\ existsb (fun d => 2 <? @seriesZScore JSMath_ref data d) data = false)
  /\ dataQuality (@analyzeDataQuality JSMath_ref st)
     = Some (mkQuality 100 [DataComplete 20] 0 20 20).
Proof.
  intros data st. split; [repeat split; vm_compute; reflexivity|].
  apply (@analyzeDataQuality_clean_series JSMath_ref st); vm_compute; reflexivity.
Defined.

Lemma parseAndDisplayData_rejects_witness :
  let st := mkState [] None None false in
  let dataInput := "Q1 2020,100
Q2 2020,abc"%string in
  In "Q2 2020,abc"%string (dataRows dataInput)
  /\ rejectedRow "Q2 2020,abc" = true
  /\ exists e, @parseAndDisplayData JSMath_ref st dataInput
               = mkState (historicalData st) (dataQuality st) (Some e) true.
Proof.
  intros st dataInput.
  assert (Hin : In "Q2 2020,abc"%string (dataRows dataInput))
    by (vm_compute; right; left; reflexivity).
  split; [exact Hin|]. split; [vm_compute; reflexivity|].
  apply (@parseAndDisplayData_rejects JSMath_ref st dataInput).
  left. exists "Q2 2020,abc"%string. split; [exact Hin | vm_compute; reflexivity].
Defined.

(** The claim of C7 as the spec words it fails: a row whose value is
    [12abc] is no decimal number, and the batch is accepted with the value
    12 stored for it. *)
Lemma parseAndDisplayData_accepts_nonnumeric :
  let st := mkState [] None None false in
  let dataInput := "Q1 2020,10
Q2 2020,12abc
Q3 2020,13
Q4 2020,14
Q1 2021,15
Q2 2021,16
Q3 2021,17
Q4 2021,18"%string in
  In "Q2 2020,12abc"%string (dataRows dataInput)
  /\ nonNumericValue "Q2 2020,12abc" = true
  /\ dataErrorShown (@parseAndDisplayData JSMath_ref st dataInput) = false
  /\ map accounts (historicalData (@parseAndDisplayData JSMath_ref st dataInput))
     = [Some 10; Some 12; Some 13; Some 14; Some 15; Some 16; Some 17; Some 18]
  /\ historicalData (@parseAndDisplayData JSMath_ref st dataInput) <> historicalData st.
Proof.
  intros st dataInput.
  split; [vm_compute; right; left; reflexivity|].
  split; [vm_compute; reflexivity|]. split; [vm_compute; reflexivity|].
  split; [vm_compute; reflexivity|].
  vm_compute. discriminate.
Qed.

(** * Rounding to nearest, in integers *)

Module Rounding.

Local Open Scope Z_scope.

Lemma prec_val : prec = 53.
Proof. reflexivity. Qed.

Lemma emax_val : emax = 1024.
Proof. reflexivity. Qed.

Lemma emin_val : emin = -1074.
Proof. reflexivity. Qed.

Lemma halfRange_pos : 0 < halfRange.
Proof. unfold halfRange. apply Z.pow_pos_nonneg; rewrite ?prec_val; lia. Qed.

Lemma fexp_val : forall g, fexp prec emax g = Z.max (g - 53) (-1074).
Proof. reflexivity. Qed.

(** ** The number of binary digits *)

Lemma digits2_pos_spec :
  forall m, 2 ^ (Zpos (digits2_pos m) - 1) <= Zpos m < 2 ^ Zpos (digits2_pos m).
Proof.
  induction m as [m IH|m IH|]; simpl digits2_pos.
  - rewrite Pos2Z.inj_succ. change (Zpos m~1) with (2 * Zpos m + 1).
    replace (Z.succ (Zpos (digits2_pos m)) - 1) with (Z.succ (Zpos (digits2_pos m) - 1)) by lia.
    rewrite !Z.pow_succ_r by lia. gen_pow. lia.
  - rewrite Pos2Z.inj_succ. change (Zpos m~0) with (2 * Zpos m).
    replace (Z.succ (Zpos (digits2_pos m)) - 1) with (Z.succ (Zpos (digits2_pos m) - 1)) by lia.
    rewrite !Z.pow_succ_r by lia. gen_pow. lia.
  - simpl. lia.
Qed.

Lemma digits2_pos_unique :
  forall m d, 2 ^ (d - 1) <= Zpos m < 2 ^ d -> Zpos (digits2_pos m) = d.
Proof.
  intros m d [Hlo Hhi]. pose proof (digits2_pos_spec m) as [Glo Ghi].
  assert (0 < d).
  { destruct (Z_lt_le_dec 0 d) as [|Hd]; [assumption|].
    assert (2 ^ d <= 1); [|lia].
    destruct (Z.eq_dec d 0) as [->|]; [simpl; lia|].
    rewrite Z.pow_neg_r by lia. lia. }
  destruct (Z.lt_trichotomy (Zpos (digits2_pos m)) d) as [Hc | [Hc | Hc]].
  - assert (2 ^ Zpos (digits2_pos m) <= 2 ^ (d - 1)) by (apply Z.pow_le_mono_r; lia).
    gen_pow. lia.
  - exact Hc.
  - assert (2 ^ d <= 2 ^ (Zpos (digits2_pos m) - 1)) by (apply Z.pow_le_mono_r; lia).
    gen_pow. lia.
Qed.

Lemma Zdigits2_pos : forall m, Zdigits2 (Zpos m) = Zpos (digits2_pos m).
Proof. reflexivity. Qed.

(** ** The shift with a round bit and a sticky bit *)

Lemma iter_pos_nat :
  forall (A : Type) (f : A -> A) (p : positive) (x : A),
    SpecFloat.iter_pos f p x = Nat.iter (Pos.to_nat p) f x.
Proof.
  intros A f. induction p as [p IH|p IH|]; intros x; simpl SpecFloat.iter_pos.
  - rewrite !IH, Pos2Nat.inj_xI.
    replace (S (2 * Pos.to_nat p))%nat with (Pos.to_nat p + (Pos.to_nat p + 1))%nat by lia.
    rewrite !Nat.iter_add. reflexivity.
  - rewrite !IH, Pos2Nat.inj_xO.
    replace (2 * Pos.to_nat p)%nat with (Pos.to_nat p + Pos.to_nat p)%nat by lia.
    rewrite Nat.iter_add. reflexivity.
  - reflexivity.
Qed.

Lemma shr_1_spec :
  forall q r s, 0 <= q ->
    shr_1 {| shr_m := q; shr_r := r; shr_s := s |}
    = {| shr_m := q / 2; shr_r := Z.odd q; shr_s := r || s |}.
Proof.
  intros q r s Hq. rewrite <- Z.div2_div.
  destruct q as [|[p|p|]|p]; try reflexivity. lia.
Qed.

(** The record after [k] shifts of [m]. *)
Lemma shr_iter :
  forall m k, 0 <= m ->
    Nat.iter (S k) shr_1 {| shr_m := m; shr_r := false; shr_s := false |}
    = {| shr_m := m / 2 ^ Z.of_nat (S k);
         shr_r := Z.odd (m / 2 ^ Z.of_nat k);
         shr_s := negb (m mod 2 ^ Z.of_nat k =? 0) |}.
Proof.
  intros m k Hm. induction k as [|k IH].
  - change (Nat.iter 1 shr_1 ?x) with (shr_1 x). rewrite shr_1_spec by assumption.
    simpl Z.of_nat. rewrite Z.pow_0_r, Z.pow_1_r, Z.div_1_r, Z.mod_1_r. reflexivity.
  - change (Nat.iter (S (S k)) shr_1 ?x) with (shr_1 (Nat.iter (S k) shr_1 x)).
    rewrite IH, shr_1_spec by (apply Z.div_pos; [lia | apply Z.pow_pos_nonneg; lia]).
    assert (P : 0 < 2 ^ Z.of_nat k) by (apply Z.pow_pos_nonneg; lia).
    f_equal.
    + rewrite Z.div_div by lia. f_equal.
      rewrite (Nat2Z.inj_succ (S k)), Z.pow_succ_r by lia. lia.
    + rewrite (Nat2Z.inj_succ k), Z.pow_succ_r by lia.
      rewrite (Z.mul_comm 2), Z.rem_mul_r by lia.
      rewrite (Zodd_mod (m / 2 ^ Z.of_nat k)).
      pose proof (Z.mod_pos_bound m (2 ^ Z.of_nat k) P) as B.
      pose proof (Z.mod_pos_bound (m / 2 ^ Z.of_nat k) 2 ltac:(lia)) as B2.
      set (a := m mod 2 ^ Z.of_nat k) in *.
      set (b := (m / 2 ^ Z.of_nat k) mod 2) in *.
      assert (Hb : b = 0 \/ b = 1) by lia.
      destruct Hb as [-> | ->]; simpl; rewrite ?Z.mul_0_r, ?Z.mul_1_r, ?Z.add_0_r.
      * reflexivity.
      * symmetry. apply negb_true_iff, Z.eqb_neq. lia.
Qed.

Lemma Zdigits2_spec :
  forall a, 0 < a -> 2 ^ (Zdigits2 a - 1) <= a < 2 ^ Zdigits2 a.
Proof.
  intros [|m|m] Ha; try lia. apply digits2_pos_spec.
Qed.

Lemma Zdigits2_unique :
  forall a d, 0 < a -> 2 ^ (d - 1) <= a < 2 ^ d -> Zdigits2 a = d.
Proof.
  intros [|m|m] d Ha H; try lia. now apply digits2_pos_unique.
Qed.

Lemma Zdigits2_nonneg : forall a, 0 < a -> 0 < Zdigits2 a.
Proof. intros [|m|m] Ha; try lia. simpl. lia. Qed.

Lemma Zdigits2_scale :
  forall a k, 0 < a -> 0 <= k -> Zdigits2 (a * 2 ^ k) = Zdigits2 a + k.
Proof.
  intros a k Ha Hk. pose proof (Zdigits2_spec a Ha) as [Hlo Hhi].
  pose proof (Zdigits2_nonneg a Ha) as Hd.
  assert (P : 0 < 2 ^ k) by (apply Z.pow_pos_nonneg; lia).
  apply Zdigits2_unique; [nia|].
  replace (Zdigits2 a + k - 1) with (Zdigits2 a - 1 + k) by lia.
  rewrite !Z.pow_add_r by lia. split; nia.
Qed.

Lemma Zdigits2_mono :
  forall a b, 0 < a -> a <= b -> Zdigits2 a <= Zdigits2 b.
Proof.
  intros a b Ha Hab.
  pose proof (Zdigits2_spec a Ha) as [Hlo _].
  pose proof (Zdigits2_spec b ltac:(lia)) as [_ Hhi].
  destruct (Z_lt_le_dec (Zdigits2 b) (Zdigits2 a)) as [Hc|]; [|assumption].
  assert (2 ^ Zdigits2 b <= 2 ^ (Zdigits2 a - 1)) by (apply Z.pow_le_mono_r; lia).
  gen_pow. lia.
Qed.

(** ** Division by a power of two, rounded to nearest even *)

Lemma rne_div_bounds :
  forall a n, 0 <= n -> a / 2 ^ n <= rne_div a n <= a / 2 ^ n + 1.
Proof.
  intros a n Hn. unfold rne_div.
  destruct (2 * (a mod 2 ^ n) ?= 2 ^ n); [destruct (Z.even _)| |]; lia.
Qed.

Lemma rne_div_0 : forall a, rne_div a 0 = a.
Proof.
  intros a. unfold rne_div. rewrite Z.pow_0_r, Z.mod_1_r, Z.div_1_r. reflexivity.
Qed.

Lemma rne_div_mono :
  forall a b n, 0 <= n -> a <= b -> rne_div a n <= rne_div b n.
Proof.
  intros a b n Hn Hab.
  assert (P : 0 < 2 ^ n) by (apply Z.pow_pos_nonneg; lia).
  pose proof (Z.div_le_mono a b (2 ^ n) P Hab) as Hq.
  destruct (Z.eq_dec (a / 2 ^ n) (b / 2 ^ n)) as [E|NE].
  - assert (Hr : a mod 2 ^ n <= b mod 2 ^ n).
    { rewrite !Z.mod_eq by lia. rewrite E. lia. }
    unfold rne_div. rewrite E.
    destruct (Z.compare_spec (2 * (a mod 2 ^ n)) (2 ^ n));
      destruct (Z.compare_spec (2 * (b mod 2 ^ n)) (2 ^ n));
      destruct (Z.even (b / 2 ^ n)); lia.
  - pose proof (rne_div_bounds a n Hn). pose proof (rne_div_bounds b n Hn). lia.
Qed.

Lemma rne_div_scale :
  forall a n k, 0 <= n -> 0 <= k -> rne_div (a * 2 ^ k) (n + k) = rne_div a n.
Proof.
  intros a n k Hn Hk.
  assert (P : 0 < 2 ^ n) by (apply Z.pow_pos_nonneg; lia).
  assert (Q : 0 < 2 ^ k) by (apply Z.pow_pos_nonneg; lia).
  unfold rne_div. rewrite Z.pow_add_r by lia.
  rewrite Z.div_mul_cancel_r by lia.
  rewrite Z.mul_mod_distr_r by lia.
  rewrite Z.mul_assoc, <- Zmult_compare_compat_r by lia. reflexivity.
Qed.

Lemma rne_div_exact :
  forall a n, 0 <= n -> rne_div (a * 2 ^ n) n = a.
Proof.
  intros a n Hn. rewrite <- (rne_div_0 a) at 2.
  apply (rne_div_scale a 0 n); lia.
Qed.

Lemma rne_div_upper :
  forall a n c, 0 <= n -> a < c * 2 ^ n -> rne_div a n <= c.
Proof.
  intros a n c Hn H.
  assert (P : 0 < 2 ^ n) by (apply Z.pow_pos_nonneg; lia).
  assert (a / 2 ^ n < c) by (apply Z.div_lt_upper_bound; lia).
  pose proof (rne_div_bounds a n Hn). lia.
Qed.

Lemma rne_div_lower :
  forall a n c, 0 <= n -> c * 2 ^ n <= a -> c <= rne_div a n.
Proof.
  intros a n c Hn H.
  assert (P : 0 < 2 ^ n) by (apply Z.pow_pos_nonneg; lia).
  assert (c <= a / 2 ^ n) by (apply Z.div_le_lower_bound; lia).
  pose proof (rne_div_bounds a n Hn). lia.
Qed.

(** ** The scaled mantissa *)

Lemma scaled_mono :
  forall a b n, a <= b -> scaled a n <= scaled b n.
Proof.
  intros a b n Hab. unfold scaled. destruct (Z.ltb_spec n 0).
  - assert (0 < 2 ^ (- n)) by (apply Z.pow_pos_nonneg; lia). nia.
  - now apply rne_div_mono.
Qed.

Lemma scaled_scale :
  forall a n k, 0 <= k -> scaled (a * 2 ^ k) (n + k) = scaled a n.
Proof.
  intros a n k Hk. unfold scaled.
  destruct (Z.ltb_spec n 0) as [Hn|Hn]; destruct (Z.ltb_spec (n + k) 0) as [Hnk|Hnk].
  - rewrite <- Z.mul_assoc, <- Z.pow_add_r by lia. f_equal. f_equal. lia.
  - replace (a * 2 ^ k) with (a * 2 ^ (- n) * 2 ^ (n + k)).
    + apply rne_div_exact. lia.
    + rewrite <- Z.mul_assoc, <- Z.pow_add_r by lia. f_equal. f_equal. lia.
  - lia.
  - now apply rne_div_scale.
Qed.

Lemma scaled_upper :
  forall a n c, 0 <= a -> a < 2 ^ (n + c) -> 0 <= c -> scaled a n <= 2 ^ c.
Proof.
  intros a n c Ha H Hc. unfold scaled. destruct (Z.ltb_spec n 0) as [Hn|Hn].
  - destruct (Z_lt_le_dec (n + c) 0) as [Hneg|Hpos].
    + rewrite (Z.pow_neg_r 2 (n + c)) in H by lia. lia.
    + replace c with ((n + c) + (- n)) at 1 by lia.
      rewrite Z.pow_add_r by lia.
      assert (0 < 2 ^ (- n)) by (apply Z.pow_pos_nonneg; lia). nia.
  - apply rne_div_upper; [assumption|]. rewrite <- Z.pow_add_r by lia.
    now rewrite Z.add_comm.
Qed.

Lemma scaled_lower :
  forall a n c, 2 ^ (n + c) <= a -> 0 <= c -> 0 <= n + c -> 2 ^ c <= scaled a n.
Proof.
  intros a n c H Hc Hnc. unfold scaled. destruct (Z.ltb_spec n 0) as [Hn|Hn].
  - replace c with ((n + c) + (- n)) by lia.
    rewrite Z.pow_add_r by lia.
    assert (0 < 2 ^ (- n)) by (apply Z.pow_pos_nonneg; lia). nia.
  - apply rne_div_lower; [assumption|]. rewrite <- Z.pow_add_r by lia.
    now rewrite Z.add_comm.
Qed.

(** ** The rank of a rounded value *)

Lemma halfRange_val : halfRange = 2 ^ 52.
Proof. reflexivity. Qed.

Lemma halfRange_double : 2 ^ 53 = 2 * halfRange.
Proof. reflexivity. Qed.

Lemma ordInfinity_val : ordInfinity = 2047 * halfRange.
Proof. reflexivity. Qed.

Lemma rank_scale :
  forall a e k, 0 < a -> 0 <= k -> rank (a * 2 ^ k) (e - k) = rank a e.
Proof.
  intros a e k Ha Hk. unfold rank. rewrite Zdigits2_scale by assumption.
  replace (Zdigits2 a + k + (e - k)) with (Zdigits2 a + e) by lia.
  set (e' := fexp prec emax (Zdigits2 a + e)).
  replace (e' - (e - k)) with (e' - e + k) by lia.
  now rewrite scaled_scale.
Qed.

Lemma rank_mono :
  forall a b e, 0 < a -> a <= b -> rank a e <= rank b e.
Proof.
  intros a b e Ha Hab. unfold rank. rewrite !fexp_val, emin_val.
  pose proof (Zdigits2_mono a b Ha Hab) as Hd.
  pose proof (Zdigits2_spec a Ha) as [_ Ha2].
  pose proof (Zdigits2_spec b ltac:(lia)) as [Hb1 _].
  pose proof (Zdigits2_nonneg b ltac:(lia)) as Hdb.
  pose proof halfRange_pos as HH.
  set (ea := Z.max (Zdigits2 a + e - 53) (-1074)).
  set (eb := Z.max (Zdigits2 b + e - 53) (-1074)).
  destruct (Z.eq_dec ea eb) as [E|NE].
  - rewrite E. pose proof (scaled_mono a b (eb - e) Hab). lia.
  - assert (Hlt : ea < eb) by lia.
    assert (Ua : scaled a (ea - e) <= 2 ^ 53).
    { apply scaled_upper; [lia| |lia].
      apply Z.lt_le_trans with (1 := Ha2). apply Z.pow_le_mono_r; lia. }
    assert (Lb : 2 ^ 52 <= scaled b (eb - e)).
    { apply scaled_lower; [|lia|lia].
      apply Z.le_trans with (2 := Hb1). apply Z.pow_le_mono_r; lia. }
    rewrite halfRange_double in Ua. rewrite <- halfRange_val in Lb. nia.
Qed.

Lemma shr_exact :
  forall a e n, 0 <= a -> 0 <= n ->
    exists mrs, shr {| shr_m := a; shr_r := false; shr_s := false |} e n = (mrs, e + n)
                /\ round_nearest_even (shr_m mrs) (loc_of_shr_record mrs) = rne_div a n.
Proof.
  intros a e [|p|p] Ha Hn; try lia.
  - eexists. split; [simpl; f_equal; lia|]. simpl. now rewrite rne_div_0.
  - unfold shr. rewrite iter_pos_nat.
    destruct (Pos2Nat.is_succ p) as [k Hk]. rewrite Hk, shr_iter by assumption.
    eexists. split; [reflexivity|].
    assert (Hp : Zpos p = Z.of_nat (S k)) by lia.
    rewrite Hp. unfold rne_div.
    rewrite (Nat2Z.inj_succ k), Z.pow_succ_r by lia.
    assert (P : 0 < 2 ^ Z.of_nat k) by (apply Z.pow_pos_nonneg; lia).
    rewrite (Z.mul_comm 2 (2 ^ Z.of_nat k)), Z.rem_mul_r by lia.
    rewrite (Zodd_mod (a / 2 ^ Z.of_nat k)).
    pose proof (Z.mod_pos_bound a (2 ^ Z.of_nat k) P) as B.
    pose proof (Z.mod_pos_bound (a / 2 ^ Z.of_nat k) 2 ltac:(lia)) as B2.
    set (r := a mod 2 ^ Z.of_nat k) in *.
    set (b := (a / 2 ^ Z.of_nat k) mod 2) in *.
    set (q := a / (2 ^ Z.of_nat k * 2)).
    simpl shr_m.
    assert (Hb : b = 0 \/ b = 1) by lia.
    destruct Hb as [-> | ->]; simpl Z.eqb; cbv iota.
    + assert (C : (2 * (r + 2 ^ Z.of_nat k * 0) ?= 2 ^ Z.of_nat k * 2) = Lt)
        by (apply Z.compare_lt_iff; lia).
      rewrite C. destruct (r =? 0); reflexivity.
    + destruct (Z.eqb_spec r 0) as [E|NE].
      * assert (C : (2 * (r + 2 ^ Z.of_nat k * 1) ?= 2 ^ Z.of_nat k * 2) = Eq)
          by (apply Z.compare_eq_iff; lia).
        rewrite C. reflexivity.
      * assert (C : (2 * (r + 2 ^ Z.of_nat k * 1) ?= 2 ^ Z.of_nat k * 2) = Gt)
          by (apply Z.compare_gt_iff; lia).
        rewrite C. reflexivity.
Qed.

Lemma Zdigits2_le :
  forall a c, 0 < a -> a < 2 ^ c -> Zdigits2 a <= c.
Proof.
  intros a c Ha H. pose proof (Zdigits2_spec a Ha) as [Hlo _].
  destruct (Z_lt_le_dec c (Zdigits2 a)) as [Hc|]; [|assumption].
  assert (2 ^ c <= 2 ^ (Zdigits2 a - 1)) by (apply Z.pow_le_mono_r; lia).
  gen_pow. lia.
Qed.

Lemma Zdigits2_gt :
  forall a c, 0 <= c -> 2 ^ c <= a -> c < Zdigits2 a.
Proof.
  intros a c Hc H.
  assert (Ha : 0 < a).
  { assert (0 < 2 ^ c) by (apply Z.pow_pos_nonneg; lia). lia. }
  pose proof (Zdigits2_spec a Ha) as [_ Hhi].
  pose proof (Zdigits2_nonneg a Ha).
  destruct (Z_lt_le_dec c (Zdigits2 a)) as [|Hd]; [assumption|].
  assert (2 ^ Zdigits2 a <= 2 ^ c) by (apply Z.pow_le_mono_r; lia).
  gen_pow. lia.
Qed.

Lemma shr_nonpos :
  forall mrs e n, n <= 0 -> shr mrs e n = (mrs, e).
Proof. intros mrs e [|p|p] H; try reflexivity. lia. Qed.

(** The second shift of [binary_round_aux] and its result, for a rounded
    mantissa [M] at the exponent [e']. *)
Lemma round_result :
  forall s M e',
    -1074 <= e' -> 0 <= M <= 2 * halfRange -> (-1074 < e' -> halfRange <= M) ->
    exists mrs e'',
      shr_fexp prec emax M e' loc_Exact = (mrs, e'') /\
      let R := match shr_m mrs with
               | Z0 => S754_zero s
               | Zpos p => if e'' <=? emax - prec then S754_finite s p e''
                           else S754_infinity s
               | Zneg _ => S754_nan
               end in
      R <> S754_nan /\ SFsign R = s
      /\ ordF R = Z.min ordInfinity ((e' + 1074) * halfRange + M).
Proof.
  intros s M e' He HM Hnorm. pose proof halfRange_pos as HH.
  unfold shr_fexp. simpl shr_record_of_loc. rewrite fexp_val, ordInfinity_val.
  destruct (Z.eq_dec M 0) as [-> | HM0].
  - rewrite shr_nonpos by (simpl Zdigits2; lia).
    do 2 eexists. split; [reflexivity|]. simpl.
    repeat split; [discriminate|]. assert (e' = -1074) by lia. subst e'. lia.
  - destruct (Z.eq_dec M (2 * halfRange)) as [-> | HM2].
    + assert (D : Zdigits2 (2 * halfRange) = 54) by reflexivity.
      rewrite D. replace (Z.max (54 + e' - 53) (-1074) - e') with 1 by lia.
      do 2 eexists. split; [reflexivity|].
      change (shr_m _) with (Zpos 4503599627370496).
      rewrite emax_val, prec_val. cbv zeta. cbv iota.
      destruct (Z.leb_spec (e' + 1) (1024 - 53)); simpl SFsign; unfold ordF;
        (repeat split; [discriminate|]);
        rewrite ?emin_val, ?ordInfinity_val, halfRange_val; lia.
    + assert (HMpos : 0 < M) by lia.
      assert (Dle : Zdigits2 M <= 53).
      { apply Zdigits2_le; [assumption|]. rewrite halfRange_double. lia. }
      assert (Dge : -1074 < e' -> 53 <= Zdigits2 M).
      { intros Hn. specialize (Hnorm Hn). rewrite halfRange_val in Hnorm.
        pose proof (Zdigits2_gt M 52 ltac:(lia) Hnorm). lia. }
      rewrite shr_nonpos by lia.
      do 2 eexists. split; [reflexivity|]. simpl shr_m.
      destruct M as [|p|p]; try lia.
      rewrite emax_val, prec_val.
      destruct (Z.leb_spec e' (1024 - 53)); simpl SFsign; unfold ordF;
        (repeat split; [discriminate|]); rewrite ?emin_val, ?ordInfinity_val; try lia.
      * nia.
      * specialize (Hnorm ltac:(lia)). nia.
Qed.

Lemma binary_round_aux_ord :
  forall s m e,
    e <= fexp prec emax (Zdigits2 (Zpos m) + e) ->
    let R := binary_round_aux prec emax s (Zpos m) e loc_Exact in
    R <> S754_nan /\ SFsign R = s
    /\ ordF R = Z.min ordInfinity (rank (Zpos m) e).
Proof.
  intros s m e He. unfold binary_round_aux.
  set (e' := fexp prec emax (Zdigits2 (Zpos m) + e)) in *.
  destruct (shr_exact (Zpos m) e (e' - e) ltac:(lia) ltac:(lia)) as (mrs & Hshr & Hrnd).
  assert (E1 : shr_fexp prec emax (Zpos m) e loc_Exact = (mrs, e')).
  { unfold shr_fexp. simpl shr_record_of_loc. fold e'. rewrite Hshr. f_equal. lia. }
  rewrite E1, Hrnd.
  pose proof (Zdigits2_spec (Zpos m) ltac:(lia)) as [Dlo Dhi].
  pose proof (Zdigits2_nonneg (Zpos m) ltac:(lia)) as Dpos.
  assert (Ee : e' = Z.max (Zdigits2 (Zpos m) + e - 53) (-1074)) by reflexivity.
  assert (B1 : 0 <= rne_div (Zpos m) (e' - e) <= 2 * halfRange).
  { split.
    - apply rne_div_lower; lia.
    - rewrite <- halfRange_double. apply rne_div_upper; [lia|].
      rewrite <- Z.pow_add_r by lia.
      apply Z.lt_le_trans with (1 := Dhi). apply Z.pow_le_mono_r; lia. }
  assert (B2 : -1074 < e' -> halfRange <= rne_div (Zpos m) (e' - e)).
  { intros Hn. rewrite halfRange_val. apply rne_div_lower; [lia|].
    rewrite <- Z.pow_add_r by lia.
    apply Z.le_trans with (2 := Dlo). apply Z.pow_le_mono_r; lia. }
  destruct (round_result s (rne_div (Zpos m) (e' - e)) e' ltac:(lia) B1 B2)
    as (mrs2 & e2 & E2 & HR).
  rewrite E2. unfold rank. fold e'. rewrite emin_val. unfold scaled.
  destruct (Z.ltb_spec (e' - e) 0); [lia|].
  replace (e' - -1074) with (e' + 1074) by lia. exact HR.
Qed.

(** ** Valid numbers and their ranks *)

Lemma valid_finite :
  forall s m e, valid_binary (S754_finite s m e) = true ->
    -1074 <= e <= 971
    /\ 0 < Zpos m < 2 * halfRange
    /\ (-1074 < e -> halfRange <= Zpos m)
    /\ fexp prec emax (Zdigits2 (Zpos m) + e) = e.
Proof.
  intros s m e H. unfold valid_binary, bounded, canonical_mantissa in H.
  apply andb_true_iff in H as [Hc Hb].
  apply Z.eqb_eq in Hc. apply Z.leb_le in Hb.
  rewrite emax_val, prec_val in Hb. change (Zpos (digits2_pos m)) with (Zdigits2 (Zpos m)) in Hc.
  pose proof (Zdigits2_spec (Zpos m) ltac:(lia)) as [Dlo Dhi].
  pose proof (Zdigits2_nonneg (Zpos m) ltac:(lia)) as Dpos.
  pose proof Hc as Hc'. rewrite fexp_val in Hc'.
  split; [lia|]. split; [split; [lia|]|split; [|exact Hc]].
  - rewrite <- halfRange_double.
    apply Z.lt_le_trans with (1 := Dhi). apply Z.pow_le_mono_r; lia.
  - intros He. rewrite halfRange_val.
    apply Z.le_trans with (2 := Dlo). apply Z.pow_le_mono_r; lia.
Qed.

Lemma ordF_finite_bounds :
  forall s m e, valid_binary (S754_finite s m e) = true ->
    0 < ordF (S754_finite s m e) < ordInfinity.
Proof.
  intros s m e H. destruct (valid_finite s m e H) as (He & Hm & _).
  pose proof halfRange_pos. unfold ordF. rewrite emin_val, ordInfinity_val. nia.
Qed.

Lemma ordF_nonneg : forall x, valid_binary x = true -> 0 <= ordF x <= ordInfinity.
Proof.
  intros [s|s| |s m e] H; pose proof halfRange_pos; simpl ordF;
    rewrite ?ordInfinity_val; try lia.
  pose proof (ordF_finite_bounds s m e H). unfold ordF in *.
  rewrite ordInfinity_val in *. lia.
Qed.

(** The rank of a valid number is the rank of its own value. *)
Lemma ordF_rank :
  forall s m e, valid_binary (S754_finite s m e) = true ->
    ordF (S754_finite s m e) = rank (Zpos m) e.
Proof.
  intros s m e H. destruct (valid_finite s m e H) as (_ & _ & _ & Hc).
  unfold rank, ordF. rewrite Hc, Z.sub_diag. unfold scaled. simpl Z.ltb.
  now rewrite rne_div_0.
Qed.

(** The comparison of two valid numbers is the comparison of their ranks. *)
Lemma SFcompare_ord :
  forall x y, valid_binary x = true -> valid_binary y = true ->
    x <> S754_nan -> y <> S754_nan ->
    SFcompare x y = Some (ordS x ?= ordS y).
Proof.
  intros x y Vx Vy Nx Ny. pose proof halfRange_pos as HH.
  assert (Lt_ : forall a b, a < b -> Some Lt = Some (a ?= b))
    by (intros a b Hab; f_equal; symmetry; now apply Z.compare_lt_iff).
  assert (Gt_ : forall a b, b < a -> Some Gt = Some (a ?= b))
    by (intros a b Hab; f_equal; symmetry; now apply Z.compare_gt_iff).
  assert (Eq_ : forall a b, a = b -> Some Eq = Some (a ?= b))
    by (intros a b Hab; f_equal; symmetry; now apply Z.compare_eq_iff).
  destruct x as [sx|sx| |sx mx ex]; try congruence;
    destruct y as [sy|sy| |sy my ey]; try congruence;
    try pose proof (ordF_finite_bounds _ _ _ Vx) as Bx;
    try pose proof (ordF_finite_bounds _ _ _ Vy) as By_;
    unfold ordS; simpl SFsign; simpl SFcompare;
    try (simpl ordF in *; rewrite ?ordInfinity_val in *;
         destruct sx; try destruct sy;
         first [apply Lt_; lia | apply Gt_; lia | apply Eq_; lia]).
  destruct (valid_finite _ _ _ Vx) as (Ex & Mx & Nmx & _).
  destruct (valid_finite _ _ _ Vy) as (Ey & My & Nmy & _).
  unfold ordF in *. rewrite emin_val in *.
  change (Pos.compare_cont Eq mx my) with (Z.compare (Zpos mx) (Zpos my)).
  destruct sx, sy; try (first [apply Lt_; nia | apply Gt_; nia]);
    destruct (Z.compare_spec ex ey) as [E|L|G];
    try destruct (Z.compare_spec (Zpos mx) (Zpos my)) as [E2|L2|G2];
    simpl CompOpp;
    first [apply Lt_; specialize (Nmx ltac:(lia)); nia
          |apply Lt_; specialize (Nmy ltac:(lia)); nia
          |apply Gt_; specialize (Nmx ltac:(lia)); nia
          |apply Gt_; specialize (Nmy ltac:(lia)); nia
          |apply Lt_; nia | apply Gt_; nia | apply Eq_; nia].
Qed.

(** ** Monotonicity of the rank in the exact value *)

Lemma scaled_nonneg : forall a n, 0 <= a -> 0 <= scaled a n.
Proof.
  intros a n Ha. unfold scaled. destruct (Z.ltb_spec n 0).
  - assert (0 < 2 ^ (- n)) by (apply Z.pow_pos_nonneg; lia). nia.
  - apply rne_div_lower; lia.
Qed.

Lemma rank_nonneg : forall a e, 0 <= a -> 0 <= rank a e.
Proof.
  intros a e Ha. unfold rank. rewrite fexp_val, emin_val.
  pose proof (scaled_nonneg a (Z.max (Zdigits2 a + e - 53) (-1074) - e) Ha).
  pose proof halfRange_pos. nia.
Qed.

Lemma rank_value_mono :
  forall a1 e1 a2 e2, 0 < a1 -> 0 < a2 ->
    a1 * 2 ^ (e1 - Z.min e1 e2) <= a2 * 2 ^ (e2 - Z.min e1 e2) ->
    rank a1 e1 <= rank a2 e2.
Proof.
  intros a1 e1 a2 e2 H1 H2 H. set (c := Z.min e1 e2) in *.
  rewrite <- (rank_scale a1 e1 (e1 - c)) by lia.
  rewrite <- (rank_scale a2 e2 (e2 - c)) by lia.
  replace (e1 - (e1 - c)) with c by lia. replace (e2 - (e2 - c)) with c by lia.
  apply rank_mono; [|assumption].
  assert (0 < 2 ^ (e1 - c)) by (apply Z.pow_pos_nonneg; lia). nia.
Qed.

Lemma roundedOrd_bounds :
  forall z e, - ordInfinity <= roundedOrd z e <= ordInfinity.
Proof.
  intros [|m|m] e; simpl roundedOrd; rewrite ?ordInfinity_val;
    pose proof halfRange_pos; try lia;
    pose proof (rank_nonneg (Zpos m) e ltac:(lia)); lia.
Qed.

Lemma roundedOrd_mono :
  forall z1 e1 z2 e2,
    z1 * 2 ^ (e1 - Z.min e1 e2) <= z2 * 2 ^ (e2 - Z.min e1 e2) ->
    roundedOrd z1 e1 <= roundedOrd z2 e2.
Proof.
  intros z1 e1 z2 e2 H.
  assert (P1 : 0 < 2 ^ (e1 - Z.min e1 e2)) by (apply Z.pow_pos_nonneg; lia).
  assert (P2 : 0 < 2 ^ (e2 - Z.min e1 e2)) by (apply Z.pow_pos_nonneg; lia).
  pose proof halfRange_pos as HH.
  destruct z1 as [|m1|m1], z2 as [|m2|m2]; simpl roundedOrd;
    rewrite ?ordInfinity_val;
    try pose proof (rank_nonneg (Zpos m1) e1 ltac:(lia));
    try pose proof (rank_nonneg (Zpos m2) e2 ltac:(lia));
    try lia; try nia.
  - pose proof (rank_value_mono (Zpos m1) e1 (Zpos m2) e2 ltac:(lia) ltac:(lia) H). lia.
  - assert (H' : Zpos m2 * 2 ^ (e2 - Z.min e2 e1) <= Zpos m1 * 2 ^ (e1 - Z.min e2 e1)).
    { rewrite (Z.min_comm e2 e1). lia. }
    pose proof (rank_value_mono (Zpos m2) e2 (Zpos m1) e1 ltac:(lia) ltac:(lia) H'). lia.
Qed.

(** ** The rank of [binary_normalize] *)

Lemma iter_xO_spec :
  forall m d, Zpos (Pos.iter xO m d) = Zpos m * 2 ^ Zpos d.
Proof.
  intros m d. induction d as [|d IH] using Pos.peano_ind.
  - simpl. lia.
  - rewrite Pos.iter_succ, Pos2Z.inj_succ, Z.pow_succ_r by lia.
    change (Zpos (Pos.iter xO m d)~0) with (2 * Zpos (Pos.iter xO m d)).
    rewrite IH. lia.
Qed.

Lemma binary_round_ord :
  forall s m e,
    let R := binary_round prec emax s m e in
    R <> S754_nan /\ SFsign R = s
    /\ ordF R = Z.min ordInfinity (rank (Zpos m) e).
Proof.
  intros s m e. unfold binary_round, shl_align.
  change (Zpos (digits2_pos m)) with (Zdigits2 (Zpos m)).
  set (e' := fexp prec emax (Zdigits2 (Zpos m) + e)).
  destruct (e' - e) as [|d|d] eqn:Hd.
  - apply binary_round_aux_ord. fold e'. lia.
  - apply binary_round_aux_ord. fold e'. lia.
  - assert (Hm : Zpos (Pos.iter xO m d) = Zpos m * 2 ^ Zpos d) by apply iter_xO_spec.
    assert (Hdig : Zdigits2 (Zpos (Pos.iter xO m d)) + e' = Zdigits2 (Zpos m) + e).
    { rewrite Hm, Zdigits2_scale by lia. lia. }
    rewrite <- (rank_scale (Zpos m) e (Zpos d)) by lia. rewrite <- Hm.
    replace (e - Zpos d) with e' by lia.
    apply binary_round_aux_ord. rewrite Hdig. fold e'. lia.
Qed.

Lemma binary_normalize_ord :
  forall z e szero,
    binary_normalize prec emax z e szero <> S754_nan
    /\ ordS (binary_normalize prec emax z e szero) = roundedOrd z e.
Proof.
  intros [|m|m] e szero; simpl binary_normalize.
  - split; [discriminate|]. unfold ordS. simpl. now destruct szero.
  - destruct (binary_round_ord false m e) as (Hn & Hs & Ho).
    split; [assumption|]. unfold ordS. rewrite Hs. exact Ho.
  - destruct (binary_round_ord true m e) as (Hn & Hs & Ho).
    split; [assumption|]. unfold ordS. rewrite Hs, Ho. reflexivity.
Qed.

Lemma roundedOrd_same_exp :
  forall z1 z2 e, z1 <= z2 -> roundedOrd z1 e <= roundedOrd z2 e.
Proof.
  intros z1 z2 e H. apply roundedOrd_mono.
  rewrite Z.min_id, Z.sub_diag, Z.pow_0_r. lia.
Qed.

Lemma roundedOrd_scale :
  forall z e k, 0 <= k -> roundedOrd (z * 2 ^ k) (e - k) = roundedOrd z e.
Proof.
  intros z e k Hk. assert (P : 0 < 2 ^ k) by (apply Z.pow_pos_nonneg; lia).
  destruct z as [|m|m].
  - reflexivity.
  - destruct (Zpos m * 2 ^ k) as [|m'|m'] eqn:E; try lia.
    simpl roundedOrd. rewrite <- E, rank_scale by lia. reflexivity.
  - destruct (Zneg m * 2 ^ k) as [|m'|m'] eqn:E; try lia.
    simpl roundedOrd.
    assert (E' : Zpos m' = Zpos m * 2 ^ k) by lia.
    rewrite E', rank_scale by lia. reflexivity.
Qed.

Lemma roundedOrd_opp : forall z e, roundedOrd (- z) e = - roundedOrd z e.
Proof. intros [|m|m] e; simpl; lia. Qed.

(** The rank of a valid finite number or zero is the rank of its value. *)
Lemma roundedOrd_valid :
  forall x, valid_binary x = true -> x <> S754_nan -> SFis_infinity x = false ->
    roundedOrd (SFmant x) (SFexp x) = ordS x.
Proof.
  intros [s|s| |s m e] V N I; try discriminate; try congruence.
  - unfold ordS. simpl. now destruct s.
  - pose proof (ordF_finite_bounds s m e V) as B.
    pose proof (ordF_rank s m e V) as R.
    unfold ordS. simpl SFsign. simpl SFmant. simpl SFexp.
    destruct s; simpl cond_Zopp; simpl roundedOrd; rewrite <- R; lia.
Qed.

(** The order of two valid finite numbers is the order of their values, at
    any common exponent. *)
Lemma ordS_value :
  forall x y c,
    valid_binary x = true -> valid_binary y = true ->
    x <> S754_nan -> y <> S754_nan ->
    SFis_infinity x = false -> SFis_infinity y = false ->
    c <= SFexp x -> c <= SFexp y ->
    ordS x <= ordS y ->
    SFmant x * 2 ^ (SFexp x - c) <= SFmant y * 2 ^ (SFexp y - c).
Proof.
  intros x y c Vx Vy Nx Ny Ix Iy Cx Cy H.
  pose proof halfRange_pos as HH.
  assert (Px : 0 < 2 ^ (SFexp x - c)) by (apply Z.pow_pos_nonneg; lia).
  assert (Py : 0 < 2 ^ (SFexp y - c)) by (apply Z.pow_pos_nonneg; lia).
  destruct x as [sx|sx| |sx mx ex]; try discriminate; try congruence;
    destruct y as [sy|sy| |sy my ey]; try discriminate; try congruence;
    try pose proof (ordF_finite_bounds _ _ _ Vx) as Bx;
    try pose proof (ordF_finite_bounds _ _ _ Vy) as By_;
    unfold ordS in H; simpl SFsign in H; simpl SFmant; simpl SFexp in *.
  - change (ordF (S754_zero sx)) with 0 in H.
    set (oy := ordF (S754_finite sy my ey)) in *.
    destruct sx, sy; simpl cond_Zopp; gen_pow; lia || nia.
  - change (ordF (S754_zero sy)) with 0 in H.
    set (ox := ordF (S754_finite sx mx ex)) in *.
    destruct sx, sy; simpl cond_Zopp; gen_pow; lia || nia.
  - destruct (valid_finite _ _ _ Vx) as (Ex & Mx & Nmx & _).
    destruct (valid_finite _ _ _ Vy) as (Ey & My & Nmy & _).
    unfold ordF in *. rewrite emin_val in *.
    assert (G : forall m1 e1 m2 e2,
               c <= e1 -> c <= e2 ->
               -1074 <= e1 -> -1074 <= e2 ->
               0 < m1 < 2 * halfRange -> 0 < m2 < 2 * halfRange ->
               (-1074 < e1 -> halfRange <= m1) -> (-1074 < e2 -> halfRange <= m2) ->
               (e1 - -1074) * halfRange + m1 <= (e2 - -1074) * halfRange + m2 ->
               m1 * 2 ^ (e1 - c) <= m2 * 2 ^ (e2 - c)).
    { clear. intros m1 e1 m2 e2 C1 C2 E1 E2 M1 M2 N1 N2 Hle.
      pose proof halfRange_pos as HH.
      assert (P1 : 0 < 2 ^ (e1 - c)) by (apply Z.pow_pos_nonneg; lia).
      destruct (Z.lt_trichotomy e1 e2) as [L | [E | G]].
      - replace (e2 - c) with ((e2 - e1) + (e1 - c)) by lia.
        rewrite Z.pow_add_r by lia.
        assert (2 ^ 1 <= 2 ^ (e2 - e1)) by (apply Z.pow_le_mono_r; lia).
        specialize (N2 ltac:(lia)).
        assert (m1 <= m2 * 2 ^ (e2 - e1)) by (rewrite Z.pow_1_r in *; nia).
        nia.
      - subst e2. nia.
      - specialize (N1 ltac:(lia)). nia. }
    destruct sx, sy; simpl cond_Zopp.
    + assert (Zpos my * 2 ^ (ey - c) <= Zpos mx * 2 ^ (ex - c));
        [apply G; try lia | lia].
    + nia.
    + lia.
    + apply G; lia.
Qed.

Lemma ordS_not_infinity :
  forall x, valid_binary x = true -> x <> S754_nan -> SFis_infinity x = false ->
    - ordInfinity < ordS x < ordInfinity.
Proof.
  intros [s|s| |s m e] V N I; try discriminate; try congruence;
    pose proof halfRange_pos; unfold ordS; simpl SFsign.
  - simpl. rewrite ordInfinity_val. destruct s; lia.
  - pose proof (ordF_finite_bounds s m e V). destruct s; lia.
Qed.

Lemma ordS_infinity :
  forall s, ordS (S754_infinity s) = if s then - ordInfinity else ordInfinity.
Proof. intros []; reflexivity. Qed.

(** ** Multiplication by a finite number *)

Lemma SFmul_ord :
  forall sc mc ec x,
    valid_binary (S754_finite sc mc ec) = true ->
    valid_binary x = true -> x <> S754_nan ->
    let r := SFmul prec emax (S754_finite sc mc ec) x in
    r <> S754_nan
    /\ ordS r = if SFis_infinity x
               then (if xorb sc (SFsign x) then - ordInfinity else ordInfinity)
               else roundedOrd (cond_Zopp sc (Zpos mc) * SFmant x) (ec + SFexp x).
Proof.
  intros sc mc ec x Vc Vx Nx.
  destruct x as [sx|sx| |sx mx ex]; try congruence; simpl SFmul; simpl SFis_infinity.
  - split; [discriminate|]. simpl SFmant. rewrite Z.mul_0_r. unfold ordS. simpl.
    now destruct (xorb sc sx).
  - split; [discriminate|]. simpl SFsign. now rewrite ordS_infinity.
  - destruct (valid_finite _ _ _ Vc) as (Ec & Mc & Nmc & Cc).
    destruct (valid_finite _ _ _ Vx) as (Ex & Mx & Nmx & Cx).
    assert (Hpre : ec + ex <= fexp prec emax (Zdigits2 (Zpos (mc * mx)) + (ec + ex))).
    { rewrite fexp_val in *.
      pose proof (Zdigits2_spec (Zpos mc) ltac:(lia)) as [Lc _].
      pose proof (Zdigits2_spec (Zpos mx) ltac:(lia)) as [Lx _].
      pose proof (Zdigits2_nonneg (Zpos mc) ltac:(lia)).
      pose proof (Zdigits2_nonneg (Zpos mx) ltac:(lia)).
      assert (D : Zdigits2 (Zpos mc) + Zdigits2 (Zpos mx) - 2 < Zdigits2 (Zpos (mc * mx))).
      { apply Zdigits2_gt; [lia|].
        replace (Zdigits2 (Zpos mc) + Zdigits2 (Zpos mx) - 2)
          with ((Zdigits2 (Zpos mc) - 1) + (Zdigits2 (Zpos mx) - 1)) by lia.
        rewrite Z.pow_add_r, Pos2Z.inj_mul by lia.
        apply Z.mul_le_mono_nonneg; try assumption; apply Z.pow_nonneg; lia. }
      lia. }
    destruct (binary_round_aux_ord (xorb sc sx) (mc * mx) (ec + ex) Hpre) as (Hn & Hs & Ho).
    split; [exact Hn|]. unfold ordS. rewrite Hs, Ho.
    simpl SFmant. simpl SFexp.
    destruct sc, sx; simpl cond_Zopp; simpl xorb; reflexivity.
Qed.

Lemma SFmul_mono :
  forall sc mc ec x y,
    valid_binary (S754_finite sc mc ec) = true ->
    valid_binary x = true -> valid_binary y = true ->
    x <> S754_nan -> y <> S754_nan ->
    ordS x <= ordS y ->
    let rx := ordS (SFmul prec emax (S754_finite sc mc ec) x) in
    let ry := ordS (SFmul prec emax (S754_finite sc mc ec) y) in
    if sc then ry <= rx else rx <= ry.
Proof.
  intros sc mc ec x y Vc Vx Vy Nx Ny H rx ry. unfold rx, ry. clear rx ry.
  destruct (SFmul_ord sc mc ec x Vc Vx Nx) as [_ ->].
  destruct (SFmul_ord sc mc ec y Vc Vy Ny) as [_ ->].
  pose proof halfRange_pos as HH.
  destruct (SFis_infinity x) eqn:Ix, (SFis_infinity y) eqn:Iy.
  - destruct x as [| sx | |]; try discriminate.
    destruct y as [| sy | |]; try discriminate.
    rewrite !ordS_infinity in H. simpl SFsign. rewrite ordInfinity_val in *.
    destruct sc, sx, sy; simpl xorb; cbv iota; lia.
  - destruct x as [| sx | |]; try discriminate.
    pose proof (ordS_not_infinity y Vy Ny Iy) as By_.
    rewrite ordS_infinity in H. simpl SFsign.
    pose proof (roundedOrd_bounds (cond_Zopp sc (Zpos mc) * SFmant y) (ec + SFexp y)).
    destruct sc, sx; simpl xorb; cbv iota; lia.
  - destruct y as [| sy | |]; try discriminate.
    pose proof (ordS_not_infinity x Vx Nx Ix) as Bx.
    rewrite ordS_infinity in H. simpl SFsign.
    pose proof (roundedOrd_bounds (cond_Zopp sc (Zpos mc) * SFmant x) (ec + SFexp x)).
    destruct sc, sy; simpl xorb; cbv iota; lia.
  - set (c := Z.min (SFexp x) (SFexp y)).
    pose proof (ordS_value x y c Vx Vy Nx Ny Ix Iy ltac:(lia) ltac:(lia) H) as Hv.
    rewrite <- (roundedOrd_scale _ (ec + SFexp x) (SFexp x - c)) by lia.
    rewrite <- (roundedOrd_scale _ (ec + SFexp y) (SFexp y - c)) by lia.
    replace (ec + SFexp x - (SFexp x - c)) with (ec + c) by lia.
    replace (ec + SFexp y - (SFexp y - c)) with (ec + c) by lia.
    destruct sc; simpl cond_Zopp; apply roundedOrd_same_exp; nia.
Qed.

(** ** Subtraction of a finite number *)

Lemma shl_align_fst :
  forall m e ez, ez <= e -> Zpos (fst (shl_align m e ez)) = Zpos m * 2 ^ (e - ez).
Proof.
  intros m e ez H. unfold shl_align. destruct (ez - e) as [|d|d] eqn:E; simpl fst.
  - replace (e - ez) with 0 by lia. simpl. lia.
  - lia.
  - rewrite iter_xO_spec. f_equal. f_equal. lia.
Qed.

Lemma cond_Zopp_mul : forall s a b, cond_Zopp s (a * b) = cond_Zopp s a * b.
Proof. intros [] a b; simpl; lia. Qed.

Lemma pow2_split : forall a b, 0 <= a -> 0 <= b -> 2 ^ (a + b) = 2 ^ a * 2 ^ b.
Proof. intros. now apply Z.pow_add_r. Qed.

Lemma SFsub_ord :
  forall x t0 c,
    valid_binary x = true -> valid_binary t0 = true ->
    x <> S754_nan -> t0 <> S754_nan -> SFis_infinity t0 = false ->
    c <= SFexp x -> c <= SFexp t0 ->
    let r := SFsub prec emax x t0 in
    r <> S754_nan
    /\ ordS r = if SFis_infinity x then ordS x
               else roundedOrd (SFmant x * 2 ^ (SFexp x - c)
                                - SFmant t0 * 2 ^ (SFexp t0 - c)) c.
Proof.
  intros x t0 c Vx V0 Nx N0 I0 Cx C0.
  destruct x as [sx|sx| |sx mx ex]; try congruence;
    destruct t0 as [s0|s0| |s0 m0 e0]; try congruence; try discriminate;
    simpl SFsub; simpl SFis_infinity; simpl SFmant; simpl SFexp in *.
  - split; [destruct sx, s0; discriminate|].
    rewrite !Z.mul_0_l. simpl. unfold ordS. destruct sx, s0; reflexivity.
  - split; [discriminate|].
    rewrite Z.mul_0_l, Z.sub_0_l, <- Z.mul_opp_l.
    pose proof (roundedOrd_valid (S754_finite s0 m0 e0) V0 N0 eq_refl) as R.
    simpl SFmant in R. simpl SFexp in R.
    transitivity (roundedOrd (- cond_Zopp s0 (Zpos m0)) e0).
    + rewrite roundedOrd_opp, R. unfold ordS. simpl SFsign.
      change (ordF (S754_finite (negb s0) m0 e0)) with (ordF (S754_finite s0 m0 e0)).
      destruct s0; simpl negb; cbv iota; lia.
    + rewrite <- (roundedOrd_scale (- cond_Zopp s0 (Zpos m0)) e0 (e0 - c)) by lia.
      f_equal. lia.
  - split; [discriminate|]. reflexivity.
  - split; [discriminate|]. reflexivity.
  - split; [discriminate|].
    rewrite Z.mul_0_l, Z.sub_0_r.
    pose proof (roundedOrd_valid (S754_finite sx mx ex) Vx Nx eq_refl) as R.
    simpl SFmant in R. simpl SFexp in R. rewrite <- R.
    rewrite <- (roundedOrd_scale (cond_Zopp sx (Zpos mx)) ex (ex - c)) by lia.
    f_equal. lia.
  - destruct (binary_normalize_ord
                (cond_Zopp sx (Zpos (fst (shl_align mx ex (Z.min ex e0))))
                 - cond_Zopp s0 (Zpos (fst (shl_align m0 e0 (Z.min ex e0)))))
                (Z.min ex e0) false) as [Hn Ho].
    split; [exact Hn|]. rewrite Ho.
    rewrite !shl_align_fst by lia. rewrite !cond_Zopp_mul.
    set (ez := Z.min ex e0).
    rewrite <- (roundedOrd_scale _ ez (ez - c)) by lia.
    replace (ez - (ez - c)) with c by lia. f_equal.
    rewrite Z.mul_sub_distr_r, <- !Z.mul_assoc, <- !pow2_split by lia.
    f_equal; f_equal; f_equal; lia.
Qed.

Lemma SFsub_mono :
  forall x y t0,
    valid_binary x = true -> valid_binary y = true -> valid_binary t0 = true ->
    x <> S754_nan -> y <> S754_nan -> t0 <> S754_nan -> SFis_infinity t0 = false ->
    ordS x <= ordS y ->
    ordS (SFsub prec emax x t0) <= ordS (SFsub prec emax y t0).
Proof.
  intros x y t0 Vx Vy V0 Nx Ny N0 I0 H.
  set (c := Z.min (Z.min (SFexp x) (SFexp y)) (SFexp t0)).
  destruct (SFsub_ord x t0 c Vx V0 Nx N0 I0 ltac:(lia) ltac:(lia)) as [_ ->].
  destruct (SFsub_ord y t0 c Vy V0 Ny N0 I0 ltac:(lia) ltac:(lia)) as [_ ->].
  pose proof halfRange_pos as HH.
  destruct (SFis_infinity x) eqn:Ix, (SFis_infinity y) eqn:Iy.
  - exact H.
  - destruct x as [| sx | |]; try discriminate.
    pose proof (ordS_not_infinity y Vy Ny Iy) as By_.
    rewrite ordS_infinity in *.
    pose proof (roundedOrd_bounds
                  (SFmant y * 2 ^ (SFexp y - c) - SFmant t0 * 2 ^ (SFexp t0 - c)) c).
    destruct sx; lia.
  - destruct y as [| sy | |]; try discriminate.
    pose proof (ordS_not_infinity x Vx Nx Ix) as Bx.
    rewrite ordS_infinity in *.
    pose proof (roundedOrd_bounds
                  (SFmant x * 2 ^ (SFexp x - c) - SFmant t0 * 2 ^ (SFexp t0 - c)) c).
    destruct sy; lia.
  - pose proof (ordS_value x y c Vx Vy Nx Ny Ix Iy ltac:(lia) ltac:(lia) H) as Hv.
    apply roundedOrd_same_exp. lia.
Qed.

End Rounding.

(** * The order of Numbers *)

Module FloatOrder.

Import FloatCompare Rounding.

Local Open Scope Z_scope.

Lemma valid_nn : forall x, is_nan x = false -> Prim2SF x <> S754_nan.
Proof. intros x. apply is_nan_false. Qed.

Lemma leb_ord :
  forall x y, (x <=? y)%float = true
              <-> is_nan x = false /\ is_nan y = false /\ ord x <= ord y.
Proof.
  intros x y. split.
  - intros H. destruct (leb_true_not_nan x y H) as [Nx Ny].
    split; [assumption|]. split; [assumption|].
    rewrite leb_spec in H. unfold SFleb in H.
    rewrite (SFcompare_ord _ _ (Prim2SF_valid x) (Prim2SF_valid y)
               (valid_nn x Nx) (valid_nn y Ny)) in H.
    unfold ord. destruct (Z.compare_spec (ordS (Prim2SF x)) (ordS (Prim2SF y)));
      try lia; discriminate.
  - intros (Nx & Ny & H). rewrite leb_spec. unfold SFleb.
    rewrite (SFcompare_ord _ _ (Prim2SF_valid x) (Prim2SF_valid y)
               (valid_nn x Nx) (valid_nn y Ny)).
    unfold ord in H. destruct (Z.compare_spec (ordS (Prim2SF x)) (ordS (Prim2SF y)));
      try reflexivity; lia.
Qed.

Lemma ltb_ord :
  forall x y, (x <? y)%float = true
              <-> is_nan x = false /\ is_nan y = false /\ ord x < ord y.
Proof.
  intros x y. split.
  - intros H. destruct (ltb_true_not_nan x y H) as [Nx Ny].
    split; [assumption|]. split; [assumption|].
    rewrite ltb_spec in H. unfold SFltb in H.
    rewrite (SFcompare_ord _ _ (Prim2SF_valid x) (Prim2SF_valid y)
               (valid_nn x Nx) (valid_nn y Ny)) in H.
    unfold ord. destruct (Z.compare_spec (ordS (Prim2SF x)) (ordS (Prim2SF y)));
      try lia; discriminate.
  - intros (Nx & Ny & H). rewrite ltb_spec. unfold SFltb.
    rewrite (SFcompare_ord _ _ (Prim2SF_valid x) (Prim2SF_valid y)
               (valid_nn x Nx) (valid_nn y Ny)).
    unfold ord in H. destruct (Z.compare_spec (ordS (Prim2SF x)) (ordS (Prim2SF y)));
      try reflexivity; lia.
Qed.

Lemma ltb_false_ord :
  forall x y, is_nan x = false -> is_nan y = false ->
    (x <? y)%float = false -> ord y <= ord x.
Proof.
  intros x y Nx Ny H.
  destruct (Z_lt_le_dec (ord x) (ord y)) as [L|]; [|assumption].
  assert ((x <? y)%float = true) by (apply ltb_ord; auto). congruence.
Qed.

(** [isFinite] excludes NaN and the infinities. *)
Lemma isFinite_spec :
  forall x, isFinite x = true
            <-> Prim2SF x <> S754_nan /\ SFis_infinity (Prim2SF x) = false.
Proof.
  intros x. unfold isFinite, is_finite, is_infinity.
  rewrite FloatAxioms.eqb_spec, abs_spec.
  change (Prim2SF infinity) with (S754_infinity false).
  destruct (is_nan x) eqn:N.
  - apply is_nan_spec in N. rewrite N. simpl. split; [discriminate|]. intros [H _].
    congruence.
  - apply is_nan_false in N. simpl.
    destruct (Prim2SF x) as [s|s| |s m e]; simpl; split; auto; try congruence;
      try discriminate; try (intros [_ H]; discriminate).
Qed.

Lemma isFinite_ord :
  forall x, isFinite x = true -> is_nan x = false /\ - ordInfinity < ord x < ordInfinity.
Proof.
  intros x H. apply isFinite_spec in H as [N I]. split.
  - now apply is_nan_false.
  - apply ordS_not_infinity; auto. apply Prim2SF_valid.
Qed.

Lemma ord_isFinite :
  forall x, is_nan x = false -> - ordInfinity < ord x < ordInfinity -> isFinite x = true.
Proof.
  intros x N H. apply isFinite_spec. apply is_nan_false in N. split; [assumption|].
  unfold ord in H. destruct (Prim2SF x) as [s|s| |s m e]; try reflexivity.
  rewrite ordS_infinity in H. destruct s; lia.
Qed.

Lemma ord_opp : forall x, ord (- x)%float = - ord x.
Proof.
  intros x. unfold ord. rewrite opp_spec.
  destruct (Prim2SF x) as [[]|[]| |[] m e]; unfold ordS;
    cbn [SFopp SFsign negb];
    try change (ordF (S754_finite true m e)) with (ordF (S754_finite false m e));
    try change (ordF (S754_infinity true)) with (ordF (S754_infinity false));
    try change (ordF (S754_zero true)) with 0;
    try change (ordF (S754_zero false)) with 0;
    try change (ordF S754_nan) with 0; lia.
Qed.

Lemma is_nan_opp : forall x, is_nan (- x)%float = is_nan x.
Proof.
  intros x. destruct (is_nan x) eqn:N.
  - apply is_nan_spec. rewrite opp_spec. apply is_nan_spec in N. now rewrite N.
  - apply is_nan_false. rewrite opp_spec. apply is_nan_false in N.
    destruct (Prim2SF x); simpl; congruence.
Qed.

Lemma isFinite_opp : forall x, isFinite (- x)%float = isFinite x.
Proof.
  intros x. destruct (isFinite x) eqn:F.
  - apply isFinite_ord in F as [N B]. apply ord_isFinite.
    + now rewrite is_nan_opp.
    + rewrite ord_opp. lia.
  - destruct (isFinite (- x)%float) eqn:F'; [|reflexivity].
    apply isFinite_ord in F' as [N B]. rewrite is_nan_opp in N. rewrite ord_opp in B.
    assert (isFinite x = true) by (apply ord_isFinite; [assumption|lia]). congruence.
Qed.

(** [Math.min] and [Math.max] are the minimum and the maximum of the ranks. *)
Lemma Math_min_ord :
  forall x y, is_nan x = false -> is_nan y = false ->
    is_nan (Math_min x y) = false /\ ord (Math_min x y) = Z.min (ord x) (ord y).
Proof.
  intros x y Nx Ny. unfold Math_min. rewrite Nx, Ny. simpl orb.
  destruct (x <? y)%float eqn:L1.
  - apply ltb_ord in L1 as (_ & _ & L1). split; [assumption|lia].
  - destruct (y <? x)%float eqn:L2.
    + apply ltb_ord in L2 as (_ & _ & L2). split; [assumption|lia].
    + pose proof (ltb_false_ord x y Nx Ny L1). pose proof (ltb_false_ord y x Ny Nx L2).
      destruct (get_sign x); split; try assumption; lia.
Qed.

Lemma Math_max_ord :
  forall x y, is_nan x = false -> is_nan y = false ->
    is_nan (Math_max x y) = false /\ ord (Math_max x y) = Z.max (ord x) (ord y).
Proof.
  intros x y Nx Ny. unfold Math_max. rewrite Nx, Ny. simpl orb.
  destruct (x <? y)%float eqn:L1.
  - apply ltb_ord in L1 as (_ & _ & L1). split; [assumption|lia].
  - destruct (y <? x)%float eqn:L2.
    + apply ltb_ord in L2 as (_ & _ & L2). split; [assumption|lia].
    + pose proof (ltb_false_ord x y Nx Ny L1). pose proof (ltb_false_ord y x Ny Nx L2).
      destruct (get_sign x); split; try assumption; lia.
Qed.

Lemma Math_min_nan :
  forall x y, is_nan x = true \/ is_nan y = true -> is_nan (Math_min x y) = true.
Proof.
  intros x y H. unfold Math_min.
  destruct (is_nan x), (is_nan y); simpl; try reflexivity. destruct H; discriminate.
Qed.

Lemma Math_max_nan :
  forall x y, is_nan x = true \/ is_nan y = true -> is_nan (Math_max x y) = true.
Proof.
  intros x y H. unfold Math_max.
  destruct (is_nan x), (is_nan y); simpl; try reflexivity. destruct H; discriminate.
Qed.

Lemma ord_zero : ord 0%float = 0.
Proof. reflexivity. Qed.

Lemma finite_pos_spec :
  forall c, isFinite c = true -> 0 < ord c ->
    exists m e, Prim2SF c = S754_finite false m e.
Proof.
  intros c F H. apply isFinite_spec in F as [N I]. unfold ord in H.
  pose proof (ordF_nonneg (Prim2SF c) (Prim2SF_valid c)) as B.
  destruct (Prim2SF c) as [s|s| |s m e]; try discriminate; try congruence.
  - unfold ordS in H. simpl in H. destruct s; lia.
  - destruct s; [|now exists m, e]. unfold ordS in H. simpl SFsign in H. lia.
Qed.

Lemma finite_neg_spec :
  forall c, isFinite c = true -> ord c < 0 ->
    exists m e, Prim2SF c = S754_finite true m e.
Proof.
  intros c F H. apply isFinite_spec in F as [N I]. unfold ord in H.
  pose proof (ordF_nonneg (Prim2SF c) (Prim2SF_valid c)) as B.
  destruct (Prim2SF c) as [s|s| |s m e]; try discriminate; try congruence.
  - unfold ordS in H. simpl in H. destruct s; lia.
  - destruct s; [now exists m, e|]. unfold ordS in H. simpl SFsign in H. lia.
Qed.

(** Multiplication by a positive finite number keeps the order. *)
Lemma mul_ord_mono_pos :
  forall c x y,
    isFinite c = true -> 0 < ord c ->
    is_nan x = false -> is_nan y = false -> ord x <= ord y ->
    is_nan (c * x)%float = false /\ is_nan (c * y)%float = false
    /\ ord (c * x)%float <= ord (c * y)%float.
Proof.
  intros c x y F Hc Nx Ny H.
  destruct (finite_pos_spec c F Hc) as (m & e & Ec).
  pose proof (Prim2SF_valid c) as Vc. rewrite Ec in Vc.
  pose proof (valid_nn x Nx) as Nx'. pose proof (valid_nn y Ny) as Ny'.
  unfold ord. rewrite !mul_spec. unfold SF64mul. rewrite Ec.
  destruct (SFmul_ord false m e _ Vc (Prim2SF_valid x) Nx') as [Rx _].
  destruct (SFmul_ord false m e _ Vc (Prim2SF_valid y) Ny') as [Ry _].
  split; [apply is_nan_false; rewrite mul_spec; unfold SF64mul; now rewrite Ec|].
  split; [apply is_nan_false; rewrite mul_spec; unfold SF64mul; now rewrite Ec|].
  exact (SFmul_mono false m e _ _ Vc (Prim2SF_valid x) (Prim2SF_valid y) Nx' Ny' H).
Qed.

(** Multiplication by a negative finite number reverses it. *)
Lemma mul_ord_mono_neg :
  forall c x y,
    isFinite c = true -> ord c < 0 ->
    is_nan x = false -> is_nan y = false -> ord x <= ord y ->
    is_nan (c * x)%float = false /\ is_nan (c * y)%float = false
    /\ ord (c * y)%float <= ord (c * x)%float.
Proof.
  intros c x y F Hc Nx Ny H.
  destruct (finite_neg_spec c F Hc) as (m & e & Ec).
  pose proof (Prim2SF_valid c) as Vc. rewrite Ec in Vc.
  pose proof (valid_nn x Nx) as Nx'. pose proof (valid_nn y Ny) as Ny'.
  unfold ord. rewrite !mul_spec. unfold SF64mul. rewrite Ec.
  destruct (SFmul_ord true m e _ Vc (Prim2SF_valid x) Nx') as [Rx _].
  destruct (SFmul_ord true m e _ Vc (Prim2SF_valid y) Ny') as [Ry _].
  split; [apply is_nan_false; rewrite mul_spec; unfold SF64mul; now rewrite Ec|].
  split; [apply is_nan_false; rewrite mul_spec; unfold SF64mul; now rewrite Ec|].
  exact (SFmul_mono true m e _ _ Vc (Prim2SF_valid x) (Prim2SF_valid y) Nx' Ny' H).
Qed.

Lemma mul_zero_ord :
  forall c, isFinite c = true -> 0 < ord c -> ord (c * 0)%float = 0.
Proof.
  intros c F Hc. destruct (finite_pos_spec c F Hc) as (m & e & Ec).
  unfold ord. rewrite mul_spec. unfold SF64mul. rewrite Ec.
  change (Prim2SF 0) with (S754_zero false). reflexivity.
Qed.

Lemma mul_one_ord :
  forall c, isFinite c = true -> 0 < ord c -> ord (c * 1)%float = ord c.
Proof.
  intros c F Hc. destruct (finite_pos_spec c F Hc) as (m & e & Ec).
  pose proof (Prim2SF_valid c) as Vc. rewrite Ec in Vc.
  unfold ord. rewrite mul_spec. unfold SF64mul. rewrite Ec.
  change (Prim2SF 1) with (S754_finite false 4503599627370496 (-52)).
  destruct (SFmul_ord false m e (S754_finite false 4503599627370496 (-52)) Vc
              eq_refl ltac:(discriminate)) as [_ ->].
  simpl SFis_infinity. cbv iota. simpl SFmant. simpl SFexp. simpl cond_Zopp.
  change (Zpos 4503599627370496) with (2 ^ 52).
  replace (e + -52) with (e - 52) by lia.
  rewrite roundedOrd_scale by lia.
  apply (roundedOrd_valid (S754_finite false m e) Vc ltac:(discriminate) eq_refl).
Qed.

Lemma mul_nan_r : forall c x, is_nan x = true -> is_nan (c * x)%float = true.
Proof.
  intros c x N. apply is_nan_spec. rewrite mul_spec. apply is_nan_spec in N.
  rewrite N. unfold SF64mul. now destruct (Prim2SF c).
Qed.

(** Subtraction of a finite number keeps the order. *)
Lemma sub_ord_mono :
  forall x y t0,
    isFinite t0 = true ->
    is_nan x = false -> is_nan y = false -> ord x <= ord y ->
    is_nan (x - t0)%float = false /\ is_nan (y - t0)%float = false
    /\ ord (x - t0)%float <= ord (y - t0)%float.
Proof.
  intros x y t0 F Nx Ny H. apply isFinite_spec in F as [N0 I0].
  pose proof (valid_nn x Nx) as Nx'. pose proof (valid_nn y Ny) as Ny'.
  set (c := Z.min (Z.min (SFexp (Prim2SF x)) (SFexp (Prim2SF y))) (SFexp (Prim2SF t0))).
  destruct (SFsub_ord (Prim2SF x) (Prim2SF t0) c (Prim2SF_valid x) (Prim2SF_valid t0)
              Nx' N0 I0 ltac:(lia) ltac:(lia)) as [Rx _].
  destruct (SFsub_ord (Prim2SF y) (Prim2SF t0) c (Prim2SF_valid y) (Prim2SF_valid t0)
              Ny' N0 I0 ltac:(lia) ltac:(lia)) as [Ry _].
  split; [apply is_nan_false; now rewrite sub_spec|].
  split; [apply is_nan_false; now rewrite sub_spec|].
  unfold ord. rewrite !sub_spec.
  apply SFsub_mono; auto using Prim2SF_valid.
Qed.

End FloatOrder.

(** * Further properties of the code *)

(** ** The growth curve *)

Module CurveFacts.

Import FloatCompare Rounding FloatOrder.

Lemma ord_700 : (0 < ord 700)%Z /\ ord (-700) = (- ord 700)%Z.
Proof. split; reflexivity. Qed.

Lemma ord_one_pos : (0 < ord 1)%Z.
Proof. reflexivity. Qed.

(** The clamp of lines 81 and 91. *)
Lemma clamp_ord :
  forall x, is_nan x = false ->
    is_nan (Math_max (-700) (Math_min 700 x)) = false
    /\ ord (Math_max (-700) (Math_min 700 x))
       = Z.max (- ord 700) (Z.min (ord 700) (ord x)).
Proof.
  intros x N.
  destruct (Math_min_ord 700 x eq_refl N) as [N1 E1].
  destruct (Math_max_ord (-700) _ eq_refl N1) as [N2 E2].
  split; [exact N2|]. rewrite E2, E1. now rewrite (proj2 ord_700).
Qed.

Lemma clamp_in_range :
  forall x, is_nan x = false ->
    (-700 <=? Math_max (-700) (Math_min 700 x)) = true
    /\ (Math_max (-700) (Math_min 700 x) <=? 700) = true.
Proof.
  intros x N. destruct (clamp_ord x N) as [Nc E]. pose proof ord_700 as [P Q].
  split; apply leb_ord; repeat split; auto; rewrite E, ?Q; lia.
Qed.

(** *** The coarse [exp_step] meets the four conditions *)

Lemma exp_step_cases :
  forall x, is_nan x = false -> exp_step x = 0.5 \/ exp_step x = 1.
Proof.
  intros x N. unfold exp_step. rewrite N. destruct (x <? 0); auto.
Qed.

Lemma exp_step_not_nan : forall x, is_nan (exp_step x) = false -> is_nan x = false.
Proof.
  intros x H. unfold exp_step in H. destruct (is_nan x); [discriminate H|reflexivity].
Qed.

Lemma exp_step_nonnegative : exp_nonnegative exp_step.
Proof.
  intros x H. apply exp_step_not_nan in H.
  destruct (exp_step_cases x H) as [-> | ->]; reflexivity.
Qed.

Lemma exp_step_at_most_one : exp_at_most_one exp_step.
Proof.
  intros x _ H. apply exp_step_not_nan in H.
  destruct (exp_step_cases x H) as [-> | ->]; reflexivity.
Qed.

Lemma exp_step_monotone : exp_monotone exp_step.
Proof.
  intros x y Hxy _ _. apply leb_ord in Hxy as (Nx & Ny & Hxy).
  unfold exp_step. rewrite Nx, Ny.
  destruct (y <? 0) eqn:Ly.
  - apply ltb_ord in Ly as (_ & _ & Ly).
    assert ((x <? 0) = true) as -> by (apply ltb_ord; repeat split; auto; lia).
    reflexivity.
  - destruct (x <? 0); reflexivity.
Qed.

Lemma exp_step_finite : exp_finite_in_range exp_step.
Proof.
  intros x H _. apply leb_true_not_nan in H as [_ N].
  destruct (exp_step_cases x N) as [-> | ->]; reflexivity.
Qed.

End CurveFacts.

Section WithMath.

Context {M : JSMath}.

Import FloatCompare Rounding FloatOrder CurveFacts.

(** X1: the model answers NaN to parameters it does not accept, and never
    answers an infinity. *)
Theorem gompertzModel_nan_or_finite :
  forall t K b t0,
    (isFinite K = false \/ isFinite b = false \/ isFinite t0 = false
     \/ (K <=? 0) = true \/ (b <=? 0) = true ->
     gompertzModel t K b t0 = nan)
    /\ (gompertzModel t K b t0 = nan \/ isFinite (gompertzModel t K b t0) = true).
Proof.
  intros t K b t0. unfold gompertzModel. split.
  - intros H.
    destruct (isFinite K); [|reflexivity]. destruct (isFinite b); [|reflexivity].
    destruct (isFinite t0); [|reflexivity]. simpl.
    destruct (K <=? 0); [reflexivity|]. destruct (b <=? 0); [reflexivity|].
    repeat destruct H as [H|H]; discriminate.
  - repeat match goal with
           | |- context [if ?c then nan else _] => destruct c eqn:?; [now left|]
           end.
    right. match goal with H : negb (isFinite ?r) = false |- isFinite ?r = true =>
      now apply negb_false_iff in H end.
Qed.

(** X2: if [Math.exp] returns no negative number, and at most 1 on an
    argument that is not positive, the model answers NaN or a value from 0
    to the capacity [K], both included. *)
Theorem gompertzModel_range :
  exp_nonnegative Math_exp -> exp_at_most_one Math_exp ->
  forall t K b t0,
    gompertzModel t K b t0 = nan
    \/ ((0 <=? gompertzModel t K b t0) = true
        /\ (gompertzModel t K b t0 <=? K) = true).
Proof.
  intros Hnn Hle1 t K b t0. unfold gompertzModel.
  destruct (negb (isFinite K) || negb (isFinite b) || negb (isFinite t0)) eqn:G1;
    [now left|].
  destruct ((K <=? 0) || (b <=? 0)) eqn:G2; [now left|].
  set (inner := Math_exp (Math_max (-700) (Math_min 700 (- b * (t - t0))))).
  destruct (isFinite inner) eqn:Fi; simpl; [|now left].
  set (e2 := Math_exp (Math_max (-700) (Math_min 700 (- inner)))).
  destruct (isFinite (K * e2)) eqn:Fr; simpl; [right|now left].
  apply orb_false_iff in G1 as [G1 _]. apply orb_false_iff in G1 as [FK _].
  apply negb_false_iff in FK. apply orb_false_iff in G2 as [K0 _].
  destruct (isFinite_ord K FK) as [NK BK].
  assert (PK : (0 < ord K)%Z).
  { destruct (Z_lt_le_dec 0 (ord K)) as [|Hc]; [assumption|].
    assert ((K <=? 0) = true) by (apply leb_ord; rewrite ord_zero; auto). congruence. }
  destruct (isFinite_ord inner Fi) as [Ni _].
  pose proof (Hnn _ Ni) as I0. fold inner in I0.
  apply leb_ord in I0 as (_ & _ & I0). rewrite ord_zero in I0.
  assert (Nneg : is_nan (- inner) = false) by now rewrite is_nan_opp.
  destruct (clamp_ord (- inner) Nneg) as [No Eo].
  rewrite ord_opp in Eo. pose proof ord_700 as [P7 _].
  assert (Ho : (Math_max (-700) (Math_min 700 (- inner)) <=? 0) = true).
  { apply leb_ord. rewrite ord_zero, Eo. repeat split; auto. lia. }
  assert (Ne : is_nan e2 = false).
  { destruct (is_nan e2) eqn:Ne; [|reflexivity].
    pose proof (mul_nan_r K e2 Ne) as X.
    pose proof (isFinite_not_nan _ Fr). congruence. }
  pose proof (Hnn _ Ne) as E0. pose proof (Hle1 _ Ho Ne) as E1.
  fold e2 in E0, E1.
  apply leb_ord in E0 as (_ & _ & E0). apply leb_ord in E1 as (_ & _ & E1).
  rewrite ord_zero in E0.
  destruct (mul_ord_mono_pos K 0 e2 FK PK eq_refl Ne ltac:(rewrite ord_zero; lia))
    as (_ & Nr & L0).
  destruct (mul_ord_mono_pos K e2 1 FK PK Ne eq_refl E1) as (_ & _ & L1).
  rewrite mul_zero_ord in L0 by assumption. rewrite mul_one_ord in L1 by assumption.
  split; apply leb_ord; rewrite ?ord_zero; auto.
Qed.

(** Under parameters the model accepts, and an argument that is not NaN,
    no guard fires: the value is [K * exp (clamp (- exp (clamp ...)))]. *)
Lemma gompertzModel_valid :
  exp_nonnegative Math_exp -> exp_at_most_one Math_exp ->
  exp_finite_in_range Math_exp ->
  forall t K b t0,
    isFinite K = true -> isFinite b = true -> isFinite t0 = true ->
    (0 <? K) = true -> (0 <? b) = true -> is_nan t = false ->
    let c := Math_max (-700) (Math_min 700 (- b * (t - t0))) in
    let o := Math_max (-700) (Math_min 700 (- Math_exp c)) in
    gompertzModel t K b t0 = K * Math_exp o
    /\ is_nan (- b * (t - t0)) = false
    /\ is_nan (Math_exp c) = false
    /\ is_nan (Math_exp o) = false
    /\ isFinite (K * Math_exp o) = true.
Proof.
  intros Hnn Hle1 Hfin t K b t0 FK Fb Ft0 PK Pb Nt c o.
  apply ltb_ord in PK as (_ & NK & PK). apply ltb_ord in Pb as (_ & Nb & Pb).
  rewrite ord_zero in PK, Pb.
  assert (GK : (K <=? 0) = false).
  { destruct (K <=? 0) eqn:E; [|reflexivity].
    apply leb_ord in E as (_ & _ & E). rewrite ord_zero in E. lia. }
  assert (Gb : (b <=? 0) = false).
  { destruct (b <=? 0) eqn:E; [|reflexivity].
    apply leb_ord in E as (_ & _ & E). rewrite ord_zero in E. lia. }
  destruct (sub_ord_mono t t t0 Ft0 Nt Nt ltac:(lia)) as (Ns & _ & _).
  assert (Fnb : isFinite (- b) = true) by now rewrite isFinite_opp.
  assert (Onb : (ord (- b) < 0)%Z) by (rewrite ord_opp; lia).
  destruct (mul_ord_mono_neg (- b) _ _ Fnb Onb Ns Ns ltac:(lia)) as (Np & _ & _).
  destruct (clamp_in_range _ Np) as [Lc Uc]. fold c in Lc, Uc.
  pose proof (Hfin c Lc Uc) as Fi.
  destruct (isFinite_ord _ Fi) as [Ni _].
  assert (Nneg : is_nan (- Math_exp c) = false) by now rewrite is_nan_opp.
  destruct (clamp_in_range _ Nneg) as [Lo Uo]. fold o in Lo, Uo.
  pose proof (Hfin o Lo Uo) as Fe.
  destruct (isFinite_ord _ Fe) as [Ne _].
  (* the outer argument is not positive *)
  pose proof (Hnn _ Ni) as I0. apply leb_ord in I0 as (_ & _ & I0).
  rewrite ord_zero in I0.
  destruct (clamp_ord _ Nneg) as [No Eo]. fold o in No, Eo. rewrite ord_opp in Eo.
  pose proof ord_700 as [P7 _].
  assert (Ho : (o <=? 0) = true).
  { apply leb_ord. rewrite ord_zero, Eo. repeat split; auto. lia. }
  pose proof (Hnn _ Ne) as E0. pose proof (Hle1 _ Ho Ne) as E1.
  apply leb_ord in E0 as (_ & _ & E0). apply leb_ord in E1 as (_ & _ & E1).
  rewrite ord_zero in E0.
  destruct (mul_ord_mono_pos K 0 _ FK PK eq_refl Ne ltac:(rewrite ord_zero; lia))
    as (_ & Nr & L0).
  destruct (mul_ord_mono_pos K _ 1 FK PK Ne eq_refl E1) as (_ & _ & L1).
  rewrite mul_zero_ord in L0 by assumption. rewrite mul_one_ord in L1 by assumption.
  destruct (isFinite_ord K FK) as [_ BK].
  assert (Fr : isFinite (K * Math_exp o) = true).
  { apply ord_isFinite; [assumption|]. pose proof halfRange_pos.
    rewrite ordInfinity_val in *. lia. }
  repeat split; try assumption.
  unfold gompertzModel. fold c. fold o.
  rewrite FK, Fb, Ft0, GK, Gb, Fi, Fr. reflexivity.
Qed.

(** X3: if [Math.exp] is moreover monotone, and finite between -700 and
    700, then for finite parameters with [K > 0] and [b > 0] the curve does
    not decrease with time: [t1 <= t2] gives a value at [t1] that is at most
    the value at [t2]. *)
Theorem gompertzModel_monotone :
  exp_nonnegative Math_exp -> exp_at_most_one Math_exp ->
  exp_monotone Math_exp -> exp_finite_in_range Math_exp ->
  forall t1 t2 K b t0,
    isFinite K = true -> isFinite b = true -> isFinite t0 = true ->
    (0 <? K) = true -> (0 <? b) = true ->
    (t1 <=? t2) = true ->
    (gompertzModel t1 K b t0 <=? gompertzModel t2 K b t0) = true.
Proof.
  intros Hnn Hle1 Hmono Hfin t1 t2 K b t0 FK Fb Ft0 PK Pb Ht.
  apply leb_ord in Ht as (N1 & N2 & Ht).
  destruct (gompertzModel_valid Hnn Hle1 Hfin t1 K b t0 FK Fb Ft0 PK Pb N1)
    as (-> & Np1 & Ni1 & Ne1 & Fr1).
  destruct (gompertzModel_valid Hnn Hle1 Hfin t2 K b t0 FK Fb Ft0 PK Pb N2)
    as (-> & Np2 & Ni2 & Ne2 & Fr2).
  apply ltb_ord in PK as (_ & NK & PK). apply ltb_ord in Pb as (_ & Nb & Pb).
  rewrite ord_zero in PK, Pb.
  destruct (sub_ord_mono t1 t2 t0 Ft0 N1 N2 Ht) as (Ns1 & Ns2 & Hs).
  assert (Fnb : isFinite (- b) = true) by now rewrite isFinite_opp.
  assert (Onb : (ord (- b) < 0)%Z) by (rewrite ord_opp; lia).
  destruct (mul_ord_mono_neg (- b) _ _ Fnb Onb Ns1 Ns2 Hs) as (_ & _ & Hp).
  destruct (clamp_ord _ Np1) as [Nc1 Ec1]. destruct (clamp_ord _ Np2) as [Nc2 Ec2].
  set (c1 := Math_max (-700) (Math_min 700 (- b * (t1 - t0)))) in *.
  set (c2 := Math_max (-700) (Math_min 700 (- b * (t2 - t0)))) in *.
  assert (Hc : (c2 <=? c1) = true).
  { apply leb_ord. repeat split; auto. rewrite Ec1, Ec2. lia. }
  pose proof (Hmono c2 c1 Hc Ni2 Ni1) as Hi.
  apply leb_ord in Hi as (_ & _ & Hi).
  assert (Nn1 : is_nan (- Math_exp c1) = false) by now rewrite is_nan_opp.
  assert (Nn2 : is_nan (- Math_exp c2) = false) by now rewrite is_nan_opp.
  destruct (clamp_ord _ Nn1) as [No1 Eo1]. destruct (clamp_ord _ Nn2) as [No2 Eo2].
  rewrite ord_opp in Eo1, Eo2.
  set (o1 := Math_max (-700) (Math_min 700 (- Math_exp c1))) in *.
  set (o2 := Math_max (-700) (Math_min 700 (- Math_exp c2))) in *.
  assert (Ho : (o1 <=? o2) = true).
  { apply leb_ord. repeat split; auto. rewrite Eo1, Eo2. lia. }
  pose proof (Hmono o1 o2 Ho Ne1 Ne2) as He.
  apply leb_ord in He as (_ & _ & He).
  destruct (mul_ord_mono_pos K _ _ FK PK Ne1 Ne2 He) as (Nr1 & Nr2 & Hr).
  apply leb_ord. auto.
Qed.

End WithMath.

(** *** Instances, with the coarse [exp_step] as [Math.exp] *)

Lemma gompertzModel_range_witness :
  (exp_nonnegative exp_step /\ exp_at_most_one exp_step)
  /\ (@gompertzModel JSMath_step 5 100 0.2 3 = nan
      \/ ((0 <=? @gompertzModel JSMath_step 5 100 0.2 3) = true
          /\ (@gompertzModel JSMath_step 5 100 0.2 3 <=? 100) = true)).
Proof.
  split; [split; [exact CurveFacts.exp_step_nonnegative | exact CurveFacts.exp_step_at_most_one]|].
  apply (@gompertzModel_range JSMath_step CurveFacts.exp_step_nonnegative CurveFacts.exp_step_at_most_one).
Defined.

Lemma gompertzModel_monotone_witness :
  (isFinite 100 = true /\ isFinite 0.2 = true /\ isFinite 3 = true
   /\ (0 <? 100) = true /\ (0 <? 0.2) = true /\ (2 <=? 5) = true)
  /\ (@gompertzModel JSMath_step 2 100 0.2 3
      <=? @gompertzModel JSMath_step 5 100 0.2 3) = true.
Proof.
  split; [repeat split; reflexivity|].
  apply (@gompertzModel_monotone JSMath_step CurveFacts.exp_step_nonnegative CurveFacts.exp_step_at_most_one
           CurveFacts.exp_step_monotone CurveFacts.exp_step_finite); reflexivity.
Defined.


(** ** The quality report *)

Section QualityReport.

Context {M : JSMath}.

Import FloatCompare.

Lemma filter_partition_length :
  forall (A : Type) (f : A -> bool) (l : list A),
    (length (filter f l) + length (filter (fun x => negb (f x)) l))%nat = length l.
Proof.
  induction l as [|a l IH]; simpl; [reflexivity|].
  destruct (f a); simpl; lia.
Qed.

(** The score is 100 less the four deductions, brought back into [0, 100]. *)
Lemma qualityReport_fields :
  forall data,
    let validData := filter (fun d => negb (isMissing d)) data in
    let q := qualityReport data in
    score q = Z.max 0 (Z.min 100
                (100 - snd (missingIssue (length (filter isMissing data)) (length data))
                 - 5 * Z.of_nat (countOutliers data)
                 - 5 * Z.of_nat (countNonMonotonic (map accountsNumber validData))
                 - countDeduction (length validData)))%Z
    /\ missingCount q = length (filter isMissing data)
    /\ validCount q = length validData
    /\ totalCount q = length data.
Proof.
  intros data validData q. unfold q, qualityReport, countDeduction. fold validData.
  destruct (missingIssue _ _) as [issue1 deduction1]. cbn [snd].
  destruct (0 <? countOutliers data)%nat eqn:Eo;
    destruct (0 <? countNonMonotonic (map accountsNumber validData))%nat eqn:En;
    destruct (length validData <? 8)%nat;
    try destruct (length validData <? 12)%nat;
    cbn [score missingCount validCount totalCount];
    try apply Nat.ltb_ge in Eo; try apply Nat.ltb_ge in En;
    (split; [|repeat split]); f_equal; lia.
Qed.

Lemma missingIssue_deduction :
  forall m t, (0 <= snd (missingIssue m t) <= 50)%Z
              /\ (snd (missingIssue m t) = 0%Z <-> m = O).
Proof.
  intros m t. unfold missingIssue.
  destruct (m =? 0)%nat eqn:E0; cbn [snd].
  - apply Nat.eqb_eq in E0. split; [lia|tauto].
  - apply Nat.eqb_neq in E0. destruct (m <=? 2)%nat eqn:E2; cbn [snd].
    + apply Nat.leb_le in E2. split; lia.
    + destruct (m <=? 5)%nat; cbn [snd]; split; lia.
Qed.

(** X4: whatever the series is, the report holds a score between 0 and 100,
    and its counts add up: the missing and the valid points are all the
    points of the series, whose length the analysis leaves as it is. *)
Theorem analyzeDataQuality_report :
  forall st : State,
    exists q,
      dataQuality (analyzeDataQuality st) = Some q
      /\ (0 <= score q <= 100)%Z
      /\ (missingCount q + validCount q)%nat = totalCount q
      /\ totalCount q = length (historicalData st)
      /\ length (historicalData (analyzeDataQuality st)) = length (historicalData st).
Proof.
  intros st. exists (qualityReport (historicalData st)).
  destruct (qualityReport_fields (historicalData st)) as (Hs & Hm & Hv & Ht).
  split; [reflexivity|]. split; [rewrite Hs; lia|].
  split; [rewrite Hm, Hv, Ht; apply filter_partition_length|].
  split; [exact Ht|]. simpl. unfold markOutliers. apply length_map.
Qed.

(** X5: the score is 100 exactly for a series with no missing point, no
    outlier, no drop and at least 12 points. *)
Theorem analyzeDataQuality_full_score :
  forall (st : State),
    let data := historicalData st in
    exists q,
      dataQuality (analyzeDataQuality st) = Some q
      /\ (score q = 100%Z
          <-> (filter isMissing data = []
               /\ countOutliers data = O
               /\ countNonMonotonic (map accountsNumber data) = O
               /\ (12 <= length data)%nat)).
Proof.
  intros st data. exists (qualityReport data). split; [reflexivity|].
  destruct (qualityReport_fields data) as (Hs & _). rewrite Hs. clear Hs.
  pose proof (missingIssue_deduction (length (filter isMissing data)) (length data))
    as [Hd Hd0].
  pose proof (filter_partition_length _ isMissing data) as Hp.
  set (validData := filter (fun d => negb (isMissing d)) data) in *.
  unfold countDeduction. split.
  - intros H.
    assert (Hm : length (filter isMissing data) = O).
    { apply Hd0. destruct (length validData <? 8)%nat;
        [|destruct (length validData <? 12)%nat]; lia. }
    assert (Hv : validData = data).
    { apply filter_all. apply forallb_forall. intros d Hin.
      destruct (isMissing d) eqn:E; [|reflexivity].
      assert (In d (filter isMissing data)) by (apply filter_In; auto).
      destruct (filter isMissing data); [contradiction|discriminate]. }
    rewrite Hv in *.
    destruct (length data <? 8)%nat eqn:E8; [lia|].
    destruct (length data <? 12)%nat eqn:E12; [lia|].
    apply Nat.ltb_ge in E12.
    repeat split; try lia. now apply length_zero_iff_nil.
  - intros (Hm & Ho & Hn & Hl).
    assert (Hv : validData = data).
    { apply filter_all. apply forallb_forall. intros d Hin.
      destruct (isMissing d) eqn:E; [|reflexivity].
      assert (X : In d (filter isMissing data)) by (apply filter_In; auto).
      rewrite Hm in X. contradiction. }
    rewrite Hv, Hm, Ho, Hn. cbn [length].
    destruct (length data <? 8)%nat eqn:E8; [apply Nat.ltb_lt in E8; lia|].
    destruct (length data <? 12)%nat eqn:E12; [apply Nat.ltb_lt in E12; lia|].
    reflexivity.
Qed.

(** X6: with fewer than 8 valid points the score is at most 60, the issue
    of too few points is reported, and a forecast made from this report
    carries the widest uncertainty band, 8 percent. *)
Theorem analyzeDataQuality_few_points :
  forall (st : State),
    let validData := filter (fun d => negb (isMissing d)) (historicalData st) in
    (length validData < 8)%nat ->
    exists q,
      dataQuality (analyzeDataQuality st) = Some q
      /\ (score q <= 60)%Z
      /\ In (InsufficientPoints (length validData)) (issues q)
      /\ uncertaintyOf (dataQuality (analyzeDataQuality st)) = 8%Z.
Proof.
  intros st validData Hlt. exists (qualityReport (historicalData st)).
  split; [reflexivity|].
  destruct (qualityReport_fields (historicalData st)) as (Hs & _).
  fold validData in Hs.
  pose proof (missingIssue_deduction (length (filter isMissing (historicalData st)))
                (length (historicalData st))) as [Hd _].
  assert (Hc : countDeduction (length validData) = 40%Z).
  { unfold countDeduction. apply Nat.ltb_lt in Hlt. now rewrite Hlt. }
  assert (H60 : (score (qualityReport (historicalData st)) <= 60)%Z)
    by (rewrite Hs, Hc; lia).
  split; [exact H60|]. split.
  - unfold qualityReport. fold validData.
    destruct (missingIssue _ _) as [issue1 deduction1].
    apply Nat.ltb_lt in Hlt. rewrite Hlt.
    destruct (0 <? countOutliers _)%nat;
      destruct (0 <? countNonMonotonic _)%nat; cbn [issues];
      apply in_or_app; right; left; reflexivity.
  - cbn [analyzeDataQuality dataQuality]. unfold uncertaintyOf.
    destruct (95 <=? _)%Z eqn:E1; [apply Z.leb_le in E1; lia|].
    destruct (80 <=? _)%Z eqn:E2; [apply Z.leb_le in E2; lia|reflexivity].
Qed.

(** *** A second analysis changes nothing *)

Lemma valid_accounts_map :
  forall (g : DataPoint -> DataPoint) (l : list DataPoint),
    (forall d, sameValue (g d) d) ->
    map accountsNumber (filter (fun d => negb (isMissing d)) (map g l))
    = map accountsNumber (filter (fun d => negb (isMissing d)) l).
Proof.
  intros g l Hg. induction l as [|d l IH]; simpl; [reflexivity|].
  destruct (Hg d) as [Ha Hm]. rewrite Hm.
  destruct (isMissing d); simpl; [exact IH|].
  rewrite IH. unfold accountsNumber. now rewrite Ha.
Qed.

Lemma filter_length_map :
  forall (g : DataPoint -> DataPoint) (p p' : DataPoint -> bool) (l : list DataPoint),
    (forall d, p' (g d) = p d) ->
    length (filter p' (map g l)) = length (filter p l).
Proof.
  intros g p p' l Hg. induction l as [|d l IH]; simpl; [reflexivity|].
  rewrite Hg. destruct (p d); simpl; now rewrite IH.
Qed.

Lemma mark_sameValue : forall data d, sameValue (mark data d) d.
Proof.
  intros data d. unfold mark, sameValue.
  destruct (exceedsThreshold data d); split; reflexivity.
Qed.

Lemma markOutliers_valid_accounts :
  forall data,
    map accountsNumber (filter (fun d => negb (isMissing d)) (markOutliers data))
    = map accountsNumber (filter (fun d => negb (isMissing d)) data).
Proof.
  intros data. apply (valid_accounts_map (mark data)). apply mark_sameValue.
Qed.

Lemma exceedsThreshold_marked :
  forall data d,
    exceedsThreshold (markOutliers data) (mark data d) = exceedsThreshold data d.
Proof.
  intros data d. destruct (mark_sameValue data d) as [Ha Hm].
  apply exceedsThreshold_ext; auto using markOutliers_valid_accounts.
Qed.

Lemma markOutliers_idempotent :
  forall data, markOutliers (markOutliers data) = markOutliers data.
Proof.
  intros data.
  change (map (mark (markOutliers data)) (map (mark data) data) = map (mark data) data).
  rewrite map_map. apply map_ext. intros d.
  unfold mark at 1. rewrite exceedsThreshold_marked.
  unfold mark. destruct (exceedsThreshold data d); reflexivity.
Qed.

Lemma qualityReport_marked :
  forall data, qualityReport (markOutliers data) = qualityReport data.
Proof.
  intros data. unfold qualityReport.
  assert (Hm : length (filter isMissing (markOutliers data))
               = length (filter isMissing data)).
  { apply (filter_length_map (mark data)). intros d. apply mark_sameValue. }
  assert (Hv : length (filter (fun d => negb (isMissing d)) (markOutliers data))
               = length (filter (fun d => negb (isMissing d)) data)).
  { apply (filter_length_map (mark data)). intros d.
    now rewrite (proj2 (mark_sameValue data d)). }
  assert (Ho : countOutliers (markOutliers data) = countOutliers data).
  { unfold countOutliers. apply (filter_length_map (mark data)).
    apply exceedsThreshold_marked. }
  assert (Hl : length (markOutliers data) = length data)
    by apply length_map.
  rewrite Hm, Hv, Ho, Hl, markOutliers_valid_accounts. reflexivity.
Qed.

(** X7: analysing twice gives what analysing once gives, for the series and
    for the report; in [applyInterpolation] the score read between the two
    analyses is therefore the final score. *)
Theorem analyzeDataQuality_idempotent :
  forall st : State,
    analyzeDataQuality (analyzeDataQuality st) = analyzeDataQuality st.
Proof.
  intros st. unfold analyzeDataQuality. cbn [historicalData dataErrorText dataErrorShown].
  now rewrite markOutliers_idempotent, qualityReport_marked.
Qed.

Lemma markOutliers_frame :
  forall data,
    Forall2 (fun d d' => sameButFlag d d' /\ (isMissing d = true -> d' = d))
            data (markOutliers data).
Proof.
  intros data. unfold markOutliers.
  generalize data at 1 3 as l. induction l as [|d l IH]; simpl; constructor; [|exact IH].
  unfold exceedsThreshold, sameButFlag.
  destruct (isMissing d) eqn:Em; simpl.
  - repeat split; auto.
  - match goal with |- context [if ?c then _ else _] => destruct c end;
      repeat split; auto; discriminate.
Qed.

(** X8: the analysis writes nothing but outlier flags: each point keeps its
    period, value, missing mark and type, a missing point keeps its flag as
    well, and the error display is not touched. *)
Theorem analyzeDataQuality_frame :
  forall (st : State),
    Forall2 (fun d d' => sameButFlag d d' /\ (isMissing d = true -> d' = d))
            (historicalData st) (historicalData (analyzeDataQuality st))
    /\ dataErrorText (analyzeDataQuality st) = dataErrorText st
    /\ dataErrorShown (analyzeDataQuality st) = dataErrorShown st.
Proof.
  intros st. split; [|split; reflexivity]. apply markOutliers_frame.
Qed.

(** X9: with fewer than 5 points present no point is tested: the analysis
    leaves the series as it is and counts no outlier. *)
Theorem analyzeDataQuality_small_series :
  forall (st : State),
    (length (filter (fun d => negb (isMissing d)) (historicalData st)) < 5)%nat ->
    historicalData (analyzeDataQuality st) = historicalData st
    /\ countOutliers (historicalData st) = O.
Proof.
  intros st H.
  assert (E : forall d, exceedsThreshold (historicalData st) d = false).
  { intros d. unfold exceedsThreshold. apply Nat.leb_gt in H. rewrite H.
    now rewrite andb_false_r. }
  split.
  - cbn [analyzeDataQuality historicalData]. unfold markOutliers.
    transitivity (map (fun d => d) (historicalData st)); [|apply map_id].
    apply map_ext. intros d. now rewrite E.
  - unfold countOutliers. rewrite filter_none; [reflexivity|].
    generalize (historicalData st) at 2 as l.
    induction l as [|d l IH]; simpl; [reflexivity|]. now rewrite E, IH.
Qed.

End QualityReport.

(** ** Accepted input *)

Section Accepting.

Context {M : JSMath}.

Import FloatCompare.

Lemma parseLine_point :
  forall line d, parseLine line = inr d -> parsedPoint d = true.
Proof.
  intros line d. unfold parseLine.
  destruct (split "," line) as [|p0 [|p1 [|p2 rest]]]; try discriminate.
  destruct (isMissingMarker (trim p1)).
  - intros H. injection H as <-. reflexivity.
  - destruct (isNaN (parseFloat (trim p1))) eqn:En; [discriminate|].
    destruct (parseFloat (trim p1) <? 0) eqn:El; [discriminate|].
    intros H. injection H as <-. unfold parsedPoint. cbn.
    rewrite En. cbn. unfold isNaN in En.
    rewrite (leb_negb_ltb 0 _ eq_refl En), El. reflexivity.
Qed.

Lemma parseLines_points :
  forall lines data data',
    parseLines lines data = inr data' ->
    forallb parsedPoint data = true -> forallb parsedPoint data' = true.
Proof.
  induction lines as [|line rest IH]; intros data data' H Hd; simpl in H.
  - now injection H as <-.
  - destruct (String.eqb (trim line) ""); [now apply (IH data)|].
    destruct (parseLine line) as [e|d] eqn:Hp; [discriminate|].
    apply (IH _ _ H). rewrite forallb_app, Hd. simpl.
    now rewrite (parseLine_point _ _ Hp).
Qed.

(** X10: an input of at least 8 rows, none of which is rejected, is
    accepted: one point per row, each a missing point without a value or an
    original point whose value is a number and not negative; the series is
    stored with its report and the error display is hidden. *)
Theorem parseAndDisplayData_accepts :
  forall (st : State) (dataInput : string),
    (forall line, In line (dataRows dataInput) -> rejectedRow line = false) ->
    (8 <= length (dataRows dataInput))%nat ->
    exists data,
      parseData dataInput = inr data
      /\ length data = length (dataRows dataInput)
      /\ forallb parsedPoint data = true
      /\ parseAndDisplayData st dataInput
         = mkState (markOutliers data) (Some (qualityReport data)) (dataErrorText st) false.
Proof.
  intros st dataInput Hall Hlen. unfold parseAndDisplayData, parseData, dataRows in *.
  pose proof (parseLines_spec (inputLines dataInput) []) as S.
  pose proof (parseLines_points (inputLines dataInput) []) as P.
  destruct (parseLines (inputLines dataInput) []) as [e|data].
  - destruct S as (line & Hin & Hb & Hr).
    rewrite Hall in Hr; [discriminate|].
    apply filter_In. split; [exact Hin|]. now rewrite Hb.
  - destruct S as [_ Hl]. simpl in Hl. rewrite <- Hl in Hlen.
    assert (E : (length data <? 8)%nat = false) by (apply Nat.ltb_ge; exact Hlen).
    rewrite E. exists data. repeat split; auto.
Qed.

End Accepting.

(** ** Editing a cell *)

Section Editing.

Context {M : JSMath}.

Import FloatCompare.

Lemma updateAt_some :
  forall data i f, (i < length data)%nat -> exists data', updateAt data i f = Some data'.
Proof.
  induction data as [|d rest IH]; intros [|i] f H; simpl in *; try lia.
  - eexists; reflexivity.
  - destruct (IH i f ltac:(lia)) as [rest' ->]. eexists; reflexivity.
Qed.

Lemma updateAt_none :
  forall data i f, (length data <= i)%nat -> updateAt data i f = None.
Proof.
  induction data as [|d rest IH]; intros [|i] f H; simpl in *; try lia; try reflexivity.
  now rewrite IH by lia.
Qed.

Lemma updateAt_length :
  forall data i f data', updateAt data i f = Some data' -> length data' = length data.
Proof.
  induction data as [|d rest IH]; intros [|i] f data' H; simpl in *; try discriminate.
  - now injection H as <-.
  - destruct (updateAt rest i f) as [rest'|] eqn:E; [|discriminate].
    injection H as <-. simpl. now rewrite (IH _ _ _ E).
Qed.

(** X11: [editCell] throws exactly when the index is outside the series;
    a cancelled prompt and a text that is not a number or is negative leave
    the state as it was; any other text makes the point a corrected,
    present point with the number read, which is not negative, and the
    series keeps its length. *)
Theorem editCell_result :
  forall (st : State) (index : nat) (value : option string),
    match editCell st index value with
    | None => (length (historicalData st) <= index)%nat
    | Some st' =>
        (index < length (historicalData st))%nat
        /\ match value with
           | None => st' = st
           | Some text =>
               let a := parseFloat text in
               if negb (isNaN a) && (0 <=? a)
               then length (historicalData st') = length (historicalData st)
                    /\ exists d', nth_error (historicalData st') index = Some d'
                         /\ accounts d' = Some a /\ isMissing d' = false
                         /\ dataType d' = Corrected
               else st' = st
           end
    end.
Proof.
  intros st index value. unfold editCell.
  destruct (nth_error (historicalData st) index) as [d|] eqn:En.
  - assert (Hi : (index < length (historicalData st))%nat).
    { apply nth_error_Some. congruence. }
    destruct value as [text|]; [|split; [exact Hi|reflexivity]].
    destruct (negb (isNaN (parseFloat text)) && (0 <=? parseFloat text)) eqn:Ev;
      [|split; [exact Hi|reflexivity]].
    match goal with |- context [updateAt _ _ ?f] => set (g := f) end.
    destruct (updateAt_some (historicalData st) index g Hi) as [data' Eu].
    rewrite Eu. split; [exact Hi|].
    cbn [analyzeDataQuality historicalData]. split.
    + unfold markOutliers. rewrite length_map. exact (updateAt_length _ _ _ _ Eu).
    + destruct (updateAt_nth _ _ _ _ Eu) as (d0 & _ & Hd).
      exists (mark data' (g d0)). split; [exact (markOutliers_nth _ _ _ Hd)|].
      unfold mark. destruct (exceedsThreshold data' (g d0)); repeat split.
  - apply nth_error_None in En. exact En.
Qed.

(** X12: [confirmCell] throws exactly when the index is outside the
    series; otherwise the point keeps its period, value and missing mark
    and becomes a confirmed point, and a missing point that is confirmed
    stays missing and carries no flag. *)
Theorem confirmCell_result :
  forall (st : State) (index : nat),
    match confirmCell st index with
    | None => (length (historicalData st) <= index)%nat
    | Some st' =>
        length (historicalData st') = length (historicalData st)
        /\ exists d d',
             nth_error (historicalData st) index = Some d
             /\ nth_error (historicalData st') index = Some d'
             /\ period d' = period d /\ accounts d' = accounts d
             /\ isMissing d' = isMissing d /\ dataType d' = Confirmed
             /\ (isMissing d = true -> isOutlier d' = false)
    end.
Proof.
  intros st index. unfold confirmCell.
  match goal with |- context [updateAt _ _ ?f] => set (g := f) end.
  destruct (updateAt (historicalData st) index g) as [data'|] eqn:Eu.
  - cbn [analyzeDataQuality historicalData]. split.
    + unfold markOutliers. rewrite length_map. exact (updateAt_length _ _ _ _ Eu).
    + destruct (updateAt_nth _ _ _ _ Eu) as (d & Hd0 & Hd).
      exists d, (mark data' (g d)). split; [exact Hd0|].
      split; [exact (markOutliers_nth _ _ _ Hd)|].
      unfold mark, exceedsThreshold.
      assert (Hg : isMissing (g d) = isMissing d) by reflexivity. rewrite Hg.
      destruct (isMissing d) eqn:Em; cbn [negb andb].
      * repeat split; auto.
      * match goal with |- context [if ?c then _ else _] => destruct c end;
          repeat split; auto; discriminate.
  - destruct (Nat.lt_ge_cases index (length (historicalData st))) as [Hlt|Hge];
      [|exact Hge].
    destruct (updateAt_some _ _ g Hlt) as [data' E]. congruence.
Qed.

End Editing.

(** ** Quarter labels *)

Set Warnings "-abstract-large-number".

Section Quarters.

Lemma natToString_digit :
  forall q, (q <= 9)%nat -> natToString q = String (digitChar q) EmptyString.
Proof.
  intros q H.
  assert (G : forallb (fun q => String.eqb (natToString q) (String (digitChar q) EmptyString))
                (seq 0 10) = true) by (vm_compute; reflexivity).
  rewrite forallb_forall in G. apply String.eqb_eq, G, in_seq. lia.
Qed.

Lemma year_bound : 9999%nat = (9 * 1000 + 999)%nat.
Proof. vm_compute. reflexivity. Qed.

Lemma natDigits_step :
  forall fuel n acc,
    natDigits (S fuel) n acc
    = if (n / 10 =? 0)%nat then String (digitChar (n mod 10)) acc
      else natDigits fuel (n / 10) (String (digitChar (n mod 10)) acc).
Proof. reflexivity. Qed.

Lemma natToString_year :
  forall y, (1000 <= y <= 9999)%nat -> natToString y = fourDigits y.
Proof.
  intros y H. rewrite year_bound in H. unfold natToString, fourDigits.
  assert (E : exists fuel, S y = S (S (S (S fuel)))) by (exists (y - 3)%nat; lia).
  destruct E as [fuel ->].
  assert (D1 : (y / 10 / 10 = y / 100)%nat) by (rewrite Nat.Div0.div_div; reflexivity).
  assert (D2 : (y / 100 / 10 = y / 1000)%nat) by (rewrite Nat.Div0.div_div; reflexivity).
  assert (L1 : (10 <= y / 10)%nat) by (apply Nat.div_le_lower_bound; lia).
  assert (L2 : (10 <= y / 100)%nat) by (apply Nat.div_le_lower_bound; lia).
  assert (L3 : (1 <= y / 1000)%nat) by (apply Nat.div_le_lower_bound; lia).
  assert (U3 : (y / 1000 < 10)%nat) by (apply Nat.Div0.div_lt_upper_bound; lia).
  rewrite natDigits_step.
  destruct (Nat.eqb_spec (y / 10) 0) as [Z|_]; [lia|].
  rewrite natDigits_step, D1.
  destruct (Nat.eqb_spec (y / 100) 0) as [Z|_]; [lia|].
  rewrite natDigits_step, D2.
  destruct (Nat.eqb_spec (y / 1000) 0) as [Z|_]; [lia|].
  rewrite natDigits_step.
  rewrite (Nat.div_small (y / 1000) 10), (Nat.mod_small (y / 1000) 10) by lia.
  reflexivity.
Qed.

Lemma digitChar_spec :
  forall k, (k <= 9)%nat -> isDigit (digitChar k) = true /\ digitValue (digitChar k) = k.
Proof.
  intros k H.
  assert (G : forallb (fun k => isDigit (digitChar k) && (digitValue (digitChar k) =? k)%nat)
                (seq 0 10) = true) by (vm_compute; reflexivity).
  rewrite forallb_forall in G. specialize (G k ltac:(apply in_seq; lia)).
  apply andb_true_iff in G as [G1 G2]. apply Nat.eqb_eq in G2. auto.
Qed.

(** The expression matches at the start of a label. *)
Lemma quarterLabel_matches :
  forall q y : nat,
    (q <= 9)%nat -> (1000 <= y <= 9999)%nat ->
    matchQuarterHere (quarterLabel q y) = Some (q, y).
Proof.
  intros q y Hq Hy. unfold quarterLabel.
  rewrite (natToString_digit q Hq), (natToString_year y Hy). unfold fourDigits.
  rewrite year_bound in Hy.
  cbn [append]. cbn [matchQuarterHere].
  assert (H3 : (y / 1000 <= 9)%nat).
  { assert (y / 1000 < 10)%nat by (apply Nat.Div0.div_lt_upper_bound; lia). lia. }
  assert (H2 : (y / 100 mod 10 <= 9)%nat)
    by (pose proof (Nat.mod_upper_bound (y / 100) 10); lia).
  assert (H1 : (y / 10 mod 10 <= 9)%nat)
    by (pose proof (Nat.mod_upper_bound (y / 10) 10); lia).
  assert (H0 : (y mod 10 <= 9)%nat) by (pose proof (Nat.mod_upper_bound y 10); lia).
  destruct (digitChar_spec q Hq) as [-> ->].
  destruct (digitChar_spec _ H3) as [-> ->]. destruct (digitChar_spec _ H2) as [-> ->].
  destruct (digitChar_spec _ H1) as [-> ->]. destruct (digitChar_spec _ H0) as [-> ->].
  cbn [Ascii.eqb Bool.eqb andb]. do 2 f_equal.
  pose proof (Nat.div_mod_eq y 10). pose proof (Nat.div_mod_eq (y / 10) 10).
  pose proof (Nat.div_mod_eq (y / 100) 10).
  assert (y / 10 / 10 = y / 100)%nat by (rewrite Nat.Div0.div_div; reflexivity).
  assert (y / 100 / 10 = y / 1000)%nat by (rewrite Nat.Div0.div_div; reflexivity).
  assert ((y / 1000) mod 10 = y / 1000)%nat by (apply Nat.mod_small; lia).
  pose proof (Nat.div_mod_eq (y / 1000) 10).
  lia.
Qed.

Lemma parseQuarter_here :
  forall s r, matchQuarterHere s = Some r -> parseQuarter s = Some r.
Proof.
  intros [|c rest] r H; [discriminate H|]. cbn [parseQuarter]. now rewrite H.
Qed.

(** X13: a label written for a quarter digit and a four-digit year reads
    back as that quarter and that year. *)
Theorem parseQuarter_quarterLabel :
  forall quarter year : nat,
    (quarter <= 9)%nat -> (1000 <= year <= 9999)%nat ->
    parseQuarter (quarterLabel quarter year) = Some (quarter, year).
Proof.
  intros quarter year Hq Hy.
  pose proof (quarterLabel_matches quarter year Hq Hy) as H.
  destruct (quarterLabel quarter year) as [|c rest]; [discriminate H|].
  cbn [parseQuarter]. now rewrite H.
Qed.

(** X14: a start label in which no quarter is found gives no labels at
    all; any other gives one label for each quarter asked for. *)
Theorem generateQuarters_length :
  forall (startQuarter : string) (numQuarters : nat),
    match parseQuarter startQuarter with
    | None => generateQuarters startQuarter numQuarters = []
    | Some _ => length (generateQuarters startQuarter numQuarters) = numQuarters
    end.
Proof.
  intros s n. unfold generateQuarters. destruct (parseQuarter s) as [qy|]; [|reflexivity].
  revert qy. induction n as [|n IH]; intros qy; simpl; [reflexivity|]. now rewrite IH.
Qed.

Lemma quartersFrom_nth :
  forall n i q y,
    (1 <= q <= 4)%nat -> (i < n)%nat ->
    nth_error (quartersFrom n (q, y)) i
    = Some (quarterLabel (fst (quarterAfter q y i)) (snd (quarterAfter q y i))).
Proof.
  induction n as [|n IH]; intros i q y Hq Hi; [lia|].
  destruct i as [|i]; cbn [quartersFrom nth_error fst snd].
  - unfold quarterAfter. cbn [fst snd]. rewrite Nat.add_0_r.
    rewrite (Nat.mod_small (q - 1) 4), (Nat.div_small (q - 1) 4) by lia.
    do 2 f_equal; lia.
  - unfold nextQuarter. destruct (4 <? S q)%nat eqn:E.
    + apply Nat.ltb_lt in E. assert (q = 4)%nat by lia. subst q.
      rewrite IH by lia. unfold quarterAfter. cbn [fst snd].
      replace (4 - 1 + S i)%nat with (i + 1 * 4)%nat by lia.
      rewrite Nat.Div0.mod_add, Nat.div_add by lia.
      replace (1 - 1 + i)%nat with i by lia. do 2 f_equal. lia.
    + apply Nat.ltb_ge in E. rewrite IH by lia. unfold quarterAfter. cbn [fst snd].
      replace (S q - 1 + i)%nat with (q - 1 + S i)%nat by lia. reflexivity.
Qed.

(** X15: from the label of quarter [q] (1 to 4) of a four-digit year [y],
    the label at position [i] is that of quarter [(q - 1 + i) mod 4 + 1] of
    year [y + (q - 1 + i) / 4]: the quarters run 1, 2, 3, 4 and the year
    moves on after each fourth quarter. *)
Theorem generateQuarters_nth :
  forall (q y numQuarters i : nat),
    (1 <= q <= 4)%nat -> (1000 <= y <= 9999)%nat -> (i < numQuarters)%nat ->
    nth_error (generateQuarters (quarterLabel q y) numQuarters) i
    = Some (quarterLabel ((q - 1 + i) mod 4 + 1) (y + (q - 1 + i) / 4)).
Proof.
  intros q y n i Hq Hy Hi. unfold generateQuarters.
  assert (P : parseQuarter (quarterLabel q y) = Some (q, y))
    by (apply parseQuarter_here, quarterLabel_matches; lia).
  rewrite P. now rewrite quartersFrom_nth.
Qed.

End Quarters.

(** *** Instances *)

Lemma analyzeDataQuality_few_points_witness :
  let data := map (fun v => mkPoint "" (Some v) false Original false) [10; 20; 30] in
  let st := mkState data None None false in
  (length (filter (fun d => negb (isMissing d)) (historicalData st)) < 8)%nat
  /\ exists q,
       dataQuality (@analyzeDataQuality JSMath_ref st) = Some q
       /\ (score q <= 60)%Z
       /\ In (InsufficientPoints 3) (issues q)
       /\ uncertaintyOf (dataQuality (@analyzeDataQuality JSMath_ref st)) = 8%Z.
Proof.
  intros data st. split; [vm_compute; lia|].
  apply (@analyzeDataQuality_few_points JSMath_ref st). vm_compute. lia.
Defined.

Lemma parseAndDisplayData_accepts_witness :
  let st := mkState [] None None true in
  let dataInput := "Q1 2020,10
Q2 2020,12
Q3 2020,-
Q4 2020,14
Q1 2021,15
Q2 2021,16

Q3 2021,17
Q4 2021,18"%string in
  ((forall line, In line (dataRows dataInput) -> rejectedRow line = false)
   /\ (8 <= length (dataRows dataInput))%nat)
  /\ exists data,
       parseData dataInput = inr data
       /\ length data = length (dataRows dataInput)
       /\ forallb parsedPoint data = true
       /\ @parseAndDisplayData JSMath_ref st dataInput
          = mkState (@markOutliers JSMath_ref data) (Some (@qualityReport JSMath_ref data))
              (dataErrorText st) false.
Proof.
  intros st dataInput.
  assert (H1 : forall line, In line (dataRows dataInput) -> rejectedRow line = false).
  { intros line Hin. vm_compute in Hin.
    repeat (destruct Hin as [<- | Hin]; [vm_compute; reflexivity|]). destruct Hin. }
  assert (H2 : (8 <= length (dataRows dataInput))%nat) by (vm_compute; lia).
  split; [split; assumption|].
  apply (@parseAndDisplayData_accepts JSMath_ref st dataInput H1 H2).
Defined.

Lemma parseQuarter_quarterLabel_witness :
  ((4 <= 9)%nat /\ (1000 <= 2024 <= 9999)%nat)
  /\ parseQuarter (quarterLabel 4 2024) = Some (4%nat, 2024%nat).
Proof.
  assert (H1 : (4 <= 9)%nat) by lia.
  assert (H2 : (1000 <= 2024 <= 9999)%nat)
    by (split; apply Nat.leb_le; vm_compute; reflexivity).
  split; [split; assumption|].
  apply (parseQuarter_quarterLabel 4 2024 H1 H2).
Defined.

Lemma generateQuarters_nth_witness :
  ((1 <= 3 <= 4)%nat /\ (1000 <= 2024 <= 9999)%nat /\ (6 < 8)%nat)
  /\ nth_error (generateQuarters (quarterLabel 3 2024) 8) 6
     = Some (quarterLabel 1 2026).
Proof.
  assert (H1 : (1 <= 3 <= 4)%nat) by lia.
  assert (H2 : (1000 <= 2024 <= 9999)%nat)
    by (split; apply Nat.leb_le; vm_compute; reflexivity).
  assert (H3 : (6 < 8)%nat) by lia.
  split; [repeat split; try apply H1; try apply H2; exact H3|].
  apply (generateQuarters_nth 3 2024 8 6 H1 H2 H3).
Defined.

Lemma analyzeDataQuality_small_series_witness :
  let data := map (fun v => mkPoint "" (Some v) false Original false) [10; 20; 30; 1000] in
  let st := mkState data None None false in
  (length (filter (fun d => negb (isMissing d)) (historicalData st)) < 5)%nat
  /\ historicalData (@analyzeDataQuality JSMath_ref st) = historicalData st
  /\ @countOutliers JSMath_ref (historicalData st) = O.
Proof.
  intros data st.
  assert (H : (length (filter (fun d => negb (isMissing d)) (historicalData st)) < 5)%nat)
    by (vm_compute; lia).
  split; [exact H|]. apply (@analyzeDataQuality_small_series JSMath_ref st H).
Defined.

(** A value written after a no-break space is read as the number, in a
    row of the input and in the text of a prompt; a line of ideographic
    spaces is a blank line. *)
Lemma parseLine_no_break_space :
  parseLine ("Q1 2020," ++ noBreakSpace ++ "8")%string
  = inr (mkPoint "Q1 2020" (Some 8) false Original false)
  /\ isBlank (ideographicSpace ++ ideographicSpace)%string = true.
Proof. split; vm_compute; reflexivity. Qed.

Lemma editCell_no_break_space :
  let data := map (fun v => mkPoint "" (Some v) false Original false) [1; 2; 3] in
  let st := mkState data None None false in
  option_map (fun st' => map accounts (historicalData st'))
    (@editCell JSMath_ref st 1 (Some (noBreakSpace ++ "45")%string))
  = Some [Some 1; Some 45; Some 3].
Proof. intros data st. vm_compute. reflexivity. Qed.

(** ** Interpolation *)

Section Interpolation.

Context {M : JSMath}.

Import FloatCompare.

Lemma findPrev_none :
  forall data i, (length data < i)%nat -> findPrev data i = None.
Proof.
  intros data [|i] H; [lia|]. simpl.
  assert (E : nth_error data i = None) by (apply nth_error_None; lia).
  now rewrite E.
Qed.

(** Within the series the backward search ends: at the nearest point
    before [i] that is not missing, or at the start. *)
Lemma findPrev_spec :
  forall data i, (i <= length data)%nat ->
    (exists j d, findPrev data i = Some (Some (j, d))
                 /\ (j < i)%nat /\ validAt data j d /\ missingBetween data (S j) i)
    \/ (findPrev data i = Some None /\ missingBetween data 0 i).
Proof.
  intros data. induction i as [|i IH]; intros Hi.
  - right. split; [reflexivity|]. intros k d Hk. lia.
  - simpl. destruct (nth_error data i) as [d|] eqn:En.
    2:{ apply nth_error_None in En. lia. }
    destruct (isMissing d) eqn:Em.
    + destruct (IH ltac:(lia)) as [(j & d0 & E & Hj & Hv & Hb) | [E Hb]].
      * left. exists j, d0. repeat split; try apply Hv; auto.
        intros k dk Hk Hnk. destruct (Nat.eq_dec k i) as [->|Hne].
        -- congruence.
        -- apply (Hb k dk); [lia|assumption].
      * right. split; [exact E|].
        intros k dk Hk Hnk. destruct (Nat.eq_dec k i) as [->|Hne].
        -- congruence.
        -- apply (Hb k dk); [lia|assumption].
    + left. exists i, d. repeat split; auto. intros k dk Hk. lia.
Qed.

Lemma findNextFrom_spec :
  forall rest i,
    match findNextFrom rest i with
    | Some (j, d) =>
        (i <= j)%nat /\ nth_error rest (j - i) = Some d /\ isMissing d = false
        /\ forall k dk, (k < j - i)%nat -> nth_error rest k = Some dk -> isMissing dk = true
    | None => forall k dk, nth_error rest k = Some dk -> isMissing dk = true
    end.
Proof.
  induction rest as [|d rest IH]; intros i; simpl.
  - intros [|k] dk H; discriminate.
  - destruct (isMissing d) eqn:Em.
    + specialize (IH (S i)). destruct (findNextFrom rest (S i)) as [[j dj]|].
      * destruct IH as (Hj & Hn & Hm & Hb).
        replace (j - i)%nat with (S (j - S i)) by lia. simpl.
        repeat split; auto; try lia.
        intros [|k] dk Hk Hnk; simpl in Hnk; [congruence|].
        apply (Hb k dk); [lia|assumption].
      * intros [|k] dk Hnk; simpl in Hnk; [congruence|]. now apply (IH k dk).
    + rewrite Nat.sub_diag. simpl. repeat split; auto. intros k dk Hk. lia.
Qed.

(** The forward search ends at the nearest point after [i] that is not
    missing, or at the end of the series. *)
Lemma findNext_spec :
  forall data i,
    (exists j d, findNext data i = Some (j, d)
                 /\ (i < j)%nat /\ validAt data j d /\ missingBetween data (S i) j)
    \/ (findNext data i = None /\ missingBetween data (S i) (length data)).
Proof.
  intros data i. unfold findNext.
  pose proof (findNextFrom_spec (skipn (S i) data) (S i)) as H.
  destruct (findNextFrom (skipn (S i) data) (S i)) as [[j d]|].
  - destruct H as (Hj & Hn & Hm & Hb). left. exists j, d.
    rewrite nth_error_skipn in Hn. replace (S i + (j - S i))%nat with j in Hn by lia.
    repeat split; auto.
    intros k dk Hk Hnk. apply (Hb (k - S i)%nat dk); [lia|].
    rewrite nth_error_skipn. now replace (S i + (k - S i))%nat with k by lia.
  - right. split; [reflexivity|].
    intros k dk Hk Hnk. apply (H (k - S i)%nat dk).
    rewrite nth_error_skipn. now replace (S i + (k - S i))%nat with k by lia.
Qed.

Lemma linearInterpolation_throws :
  forall data i, linearInterpolation data i = None <-> (length data < i)%nat.
Proof.
  intros data i. unfold linearInterpolation. split.
  - intros H. destruct (Nat.lt_ge_cases (length data) i) as [|Hle]; [assumption|].
    destruct (findPrev_spec data i Hle) as [(j & d & E & _) | [E _]];
      rewrite E in H; destruct (findNext data i) as [[? ?]|]; discriminate.
  - intros H. now rewrite findPrev_none.
Qed.

Lemma forwardFill_throws :
  forall data i, forwardFill data i = None <-> (length data < i)%nat.
Proof.
  intros data i. unfold forwardFill. split.
  - intros H. destruct (Nat.lt_ge_cases (length data) i) as [|Hle]; [assumption|].
    destruct (findPrev_spec data i Hle) as [(j & d & E & _) | [E _]];
      rewrite E in H; [discriminate|].
    destruct (findNext data i) as [[? ?]|]; discriminate.
  - intros H. now rewrite findPrev_none.
Qed.

(** The curve interpolation reads the series only through the two others. *)
Lemma gompertzInterpolation_cases :
  forall data i,
    gompertzInterpolation data i = linearInterpolation data i
    \/ exists v, gompertzInterpolation data i = Some (Some v) /\ isFinite v = true.
Proof.
  intros data i. unfold gompertzInterpolation.
  destruct (length _ <? 8)%nat; [now left|].
  destruct (fitGompertzCurve _) as [result|]; [|now left].
  destruct (negb (valid result)); [now left|].
  match goal with |- context [isFinite ?v] => destruct (isFinite v) eqn:F end;
    [right; eexists; split; [reflexivity|exact F] | now left].
Qed.

(** X16: the three interpolations throw only for an index beyond the end of
    the series: linear interpolation and forward fill exactly then, the
    curve interpolation at most then, and the curve interpolation returns
    the result of the linear one or a finite value of the fitted curve. *)
Theorem interpolation_index_error :
  forall (data : list DataPoint) (index : nat),
    (linearInterpolation data index = None <-> (length data < index)%nat)
    /\ (forwardFill data index = None <-> (length data < index)%nat)
    /\ (gompertzInterpolation data index = None -> (length data < index)%nat)
    /\ (gompertzInterpolation data index = linearInterpolation data index
        \/ exists v, gompertzInterpolation data index = Some (Some v)
                     /\ isFinite v = true).
Proof.
  intros data i. split; [apply linearInterpolation_throws|].
  split; [apply forwardFill_throws|]. split; [|apply gompertzInterpolation_cases].
  intros H. destruct (gompertzInterpolation_cases data i) as [E | (v & E & _)].
  - apply linearInterpolation_throws. now rewrite <- E.
  - rewrite E in H. discriminate H.
Qed.

(** X17: within the series, forward fill gives the value of the nearest
    point before the index that is not missing; if there is none, the value
    of the nearest such point after it; and [null] only if every other
    point is missing. *)
Theorem forwardFill_nearest :
  forall (data : list DataPoint) (index : nat),
    (index <= length data)%nat ->
    (exists j d, (j < index)%nat /\ validAt data j d /\ missingBetween data (S j) index
                 /\ forwardFill data index = Some (accounts d))
    \/ (missingBetween data 0 index
        /\ exists j d, (index < j)%nat /\ validAt data j d
                       /\ missingBetween data (S index) j
                       /\ forwardFill data index = Some (accounts d))
    \/ (missingBetween data 0 index /\ missingBetween data (S index) (length data)
        /\ forwardFill data index = Some None).
Proof.
  intros data i Hi. unfold forwardFill.
  destruct (findPrev_spec data i Hi) as [(j & d & E & Hj & Hv & Hb) | [E Hb]]; rewrite E.
  - left. exists j, d. auto.
  - right. destruct (findNext_spec data i) as [(j & d & En & Hj & Hv & Hn) | [En Hn]];
      rewrite En.
    + left. split; [exact Hb|]. exists j, d. auto.
    + right. auto.
Qed.

(** X18: where no point before the index, or no point after it, is
    present, linear interpolation is the forward fill: it copies the value
    of the nearest point on the other side. *)
Theorem linearInterpolation_one_sided :
  forall (data : list DataPoint) (index : nat),
    missingBetween data 0 index \/ missingBetween data (S index) (length data) ->
    linearInterpolation data index = forwardFill data index.
Proof.
  intros data i H. unfold linearInterpolation, forwardFill.
  destruct (Nat.lt_ge_cases (length data) i) as [Hlt|Hle];
    [now rewrite findPrev_none|].
  destruct (findPrev_spec data i Hle) as [(j & d & E & Hj & [Hn Hm] & Hb) | [E Hb]];
    rewrite E.
  - destruct (findNext_spec data i) as [(j' & d' & En & Hj' & [Hn' Hm'] & _) | [En _]];
      rewrite En; [|reflexivity].
    destruct H as [H|H].
    + rewrite (H j d) in Hm; [discriminate|lia|assumption].
    + rewrite (H j' d') in Hm'; [discriminate| |assumption].
      split; [lia|]. apply nth_error_Some. congruence.
  - destruct (findNext data i) as [[? ?]|]; reflexivity.
Qed.


(** *** Filling the missing points *)

Lemma interpolatedValue_some :
  forall method data i, (i <= length data)%nat ->
    exists r, interpolatedValue method data i = Some r.
Proof.
  intros method data i Hi.
  assert (L : exists r, linearInterpolation data i = Some r).
  { destruct (linearInterpolation data i) as [r|] eqn:E; [now exists r|].
    apply linearInterpolation_throws in E. lia. }
  destruct method; simpl.
  - eexists; reflexivity.
  - exact L.
  - destruct (gompertzInterpolation_cases data i) as [-> | (v & -> & _)];
      [exact L | eexists; reflexivity].
  - destruct (forwardFill data i) as [r|] eqn:E; [now exists r|].
    apply forwardFill_throws in E. lia.
Qed.

Lemma missingIndicesFrom_spec :
  forall data k i,
    In i (missingIndicesFrom data k)
    <-> (k <= i)%nat /\ exists d, nth_error data (i - k) = Some d /\ isMissing d = true.
Proof.
  induction data as [|d rest IH]; intros k i; simpl.
  - split; [intros []|]. intros (_ & d & H & _). destruct (i - k)%nat; discriminate.
  - assert (Hrest : In i (missingIndicesFrom rest (S k))
                    <-> (k < i)%nat /\ exists d0, nth_error rest (i - S k) = Some d0
                                                  /\ isMissing d0 = true).
    { rewrite IH. split; intros (H1 & H2); (split; [lia|exact H2]). }
    assert (Hstep : forall d0, (k < i)%nat ->
              nth_error (d :: rest) (i - k) = Some d0 <-> nth_error rest (i - S k) = Some d0).
    { intros d0 Hk. replace (i - k)%nat with (S (i - S k)) by lia. reflexivity. }
    destruct (isMissing d) eqn:Em; simpl; rewrite Hrest; split.
    + intros [<- | (Hk & d0 & H1 & H2)].
      * split; [lia|]. exists d. rewrite Nat.sub_diag. auto.
      * split; [lia|]. exists d0. split; [now apply Hstep|assumption].
    + intros (Hk & d0 & H1 & H2). destruct (Nat.eq_dec k i) as [E|Hne]; [now left|].
      right. split; [lia|]. exists d0. split; [apply Hstep; [lia|assumption]|assumption].
    + intros (Hk & d0 & H1 & H2). split; [lia|]. exists d0.
      split; [now apply Hstep|assumption].
    + intros (Hk & d0 & H1 & H2). destruct (Nat.eq_dec k i) as [E|Hne].
      * subst i. rewrite Nat.sub_diag in H1. simpl in H1. congruence.
      * split; [lia|]. exists d0. split; [apply Hstep; [lia|assumption]|assumption].
Qed.

Lemma missingIndices_spec :
  forall data i,
    In i (missingIndices data)
    <-> exists d, nth_error data i = Some d /\ isMissing d = true.
Proof.
  intros data i. unfold missingIndices. rewrite missingIndicesFrom_spec.
  rewrite Nat.sub_0_r. split; [intros [_ H]; exact H|intros H; split; [lia|exact H]].
Qed.

Lemma updateAt_Forall2 :
  forall (R : DataPoint -> DataPoint -> Prop) l0 l i f l',
    Forall2 R l0 l -> updateAt l i f = Some l' ->
    (forall d0 d, nth_error l0 i = Some d0 -> nth_error l i = Some d -> R d0 d -> R d0 (f d)) ->
    Forall2 R l0 l'.
Proof.
  intros R l0 l i f l' H. revert i l'.
  induction H as [|d0 d l0 l Hd Hl IH]; intros [|i] l' Hu Hf; simpl in Hu; try discriminate.
  - injection Hu as <-. constructor; [|exact Hl]. now apply Hf.
  - destruct (updateAt l i f) as [rest'|] eqn:E; [|discriminate].
    injection Hu as <-. constructor; [exact Hd|].
    apply (IH i rest' E). intros a b Ha Hb. now apply Hf.
Qed.

Lemma Forall2_compose :
  forall (A : Type) (R1 R2 R3 : A -> A -> Prop) l1 l2 l3,
    (forall a b c, R1 a b -> R2 b c -> R3 a c) ->
    Forall2 R1 l1 l2 -> Forall2 R2 l2 l3 -> Forall2 R3 l1 l3.
Proof.
  intros A R1 R2 R3 l1 l2 l3 Hc H12. revert l3.
  induction H12 as [|a b l1 l2 Hab _ IH]; intros l3 H23; inversion H23; subst;
    constructor; eauto.
Qed.

Lemma Forall2_refl :
  forall (A : Type) (R : A -> A -> Prop) l, (forall a, R a a) -> Forall2 R l l.
Proof. intros A R l H. induction l; constructor; auto. Qed.

Lemma fillMissing_filled :
  forall method indices data0 data,
    Forall2 filled data0 data ->
    (forall i, In i indices -> exists d, nth_error data0 i = Some d /\ isMissing d = true) ->
    exists data', fillMissing method indices data = Some data' /\ Forall2 filled data0 data'.
Proof.
  intros method. induction indices as [|i rest IH]; intros data0 data HF Hin; simpl.
  - now exists data.
  - assert (Hrest : forall j, In j rest ->
                      exists d, nth_error data0 j = Some d /\ isMissing d = true)
      by (intros j Hj; apply Hin; now right).
    destruct (Hin i (or_introl eq_refl)) as (d0 & Hd0 & Hm0).
    assert (Hlen : length data0 = length data) by exact (Forall2_length HF).
    assert (Hi : (i < length data)%nat).
    { rewrite <- Hlen. apply nth_error_Some. congruence. }
    destruct (interpolatedValue_some method data i ltac:(lia)) as [r ->].
    destruct r as [v|]; [|now apply IH].
    destruct (isFinite v) eqn:Fv; [|now apply IH].
    destruct (updateAt_some data i (fillPoint v) Hi) as [data1 E1]. rewrite E1.
    apply IH; [|exact Hrest].
    apply (updateAt_Forall2 filled data0 data i (fillPoint v) data1 HF E1).
    intros a b Ha Hb Hab. rewrite Hd0 in Ha. injection Ha as <-.
    right. split; [exact Hm0|]. exists v. split; [exact Fv|].
    destruct Hab as [-> | (_ & w & _ & ->)]; reflexivity.
Qed.

(** X19: [applyInterpolation] never throws.  It leaves the length of the
    series, every period and the error display as they were; a point that
    was present keeps its value and type; a point that was missing either
    stays exactly as it was or becomes a present, interpolated point with a
    finite value. *)
Theorem applyInterpolation_frame :
  forall (st : State) (method : InterpolationMethod),
    exists st',
      applyInterpolation st method = Some st'
      /\ Forall2 interpolated (historicalData st) (historicalData st')
      /\ dataErrorText st' = dataErrorText st
      /\ dataErrorShown st' = dataErrorShown st.
Proof.
  intros st method.
  assert (Hsame : Forall2 interpolated (historicalData st) (historicalData st)).
  { apply Forall2_refl. intros d. left. unfold sameButFlag. auto. }
  assert (Hc : forall a b c,
            filled a b -> sameButFlag b c /\ (isMissing b = true -> c = b) ->
            interpolated a c).
  { intros a b c Hab [Hs Hmiss]. destruct Hab as [-> | (Hma & v & Fv & ->)].
    - left. auto.
    - right. destruct Hs as (Hp & Ha & Hm & Ht). cbn in Hp, Ha, Hm, Ht.
      rewrite Hp, Ha, Hm, Ht. repeat split; auto. now exists v. }
  unfold applyInterpolation.
  destruct (missingIndices (historicalData st)) as [|i0 rest] eqn:Ei.
  - exists st. auto.
  - destruct (fillMissing_filled method (i0 :: rest) (historicalData st) (historicalData st))
      as (data' & Ef & HF).
    { apply Forall2_refl. intros d. now left. }
    { intros i Hi. rewrite <- Ei in Hi. now apply missingIndices_spec. }
    destruct method; try (exists st; now auto); rewrite Ef; eexists;
      (split; [reflexivity|]); (split; [|split; reflexivity]);
      cbn [analyzeDataQuality historicalData]; rewrite markOutliers_idempotent;
      exact (Forall2_compose _ _ _ _ _ _ _ Hc HF (markOutliers_frame data')).
Qed.

Lemma forwardFill_finite :
  forall data i d,
    fillable data -> nth_error data i = Some d -> isMissing d = true ->
    exists v, forwardFill data i = Some (Some v) /\ isFinite v = true.
Proof.
  intros data i d [Hfin Hex] Hn Hm.
  assert (Hi : (i < length data)%nat) by (apply nth_error_Some; congruence).
  assert (V : forall j dj, validAt data j dj ->
                exists v, accounts dj = Some v /\ isFinite v = true).
  { intros j dj [Hj Hmj]. rewrite forallb_forall in Hfin.
    specialize (Hfin dj (nth_error_In _ _ Hj)). unfold finiteIfValid in Hfin.
    rewrite Hmj in Hfin. simpl in Hfin.
    destruct (accounts dj) as [v|]; [now exists v|discriminate]. }
  unfold forwardFill.
  destruct (findPrev_spec data i ltac:(lia)) as [(j & dj & E & _ & Hv & _) | [E Hb]];
    rewrite E.
  { destruct (V j dj Hv) as (v & Ev & Fv). exists v. now rewrite Ev. }
  destruct (findNext_spec data i) as [(j & dj & En & _ & Hv & _) | [En Ha]]; rewrite En.
  { destruct (V j dj Hv) as (v & Ev & Fv). exists v. now rewrite Ev. }
  exfalso.
  apply existsb_exists in Hex as (dv & Hin & Hdv). apply negb_true_iff in Hdv.
  apply In_nth_error in Hin as [k Hk].
  assert (Hkl : (k < length data)%nat) by (apply nth_error_Some; congruence).
  destruct (Nat.lt_total k i) as [Hlt | [-> | Hgt]].
  - rewrite (Hb k dv) in Hdv; [discriminate|lia|assumption].
  - congruence.
  - rewrite (Ha k dv) in Hdv; [discriminate|lia|assumption].
Qed.

Lemma fillable_update :
  forall data i v data1,
    fillable data -> isFinite v = true -> updateAt data i (fillPoint v) = Some data1 ->
    fillable data1
    /\ Forall2 (fun d d1 => isMissing d = false -> isMissing d1 = false) data data1
    /\ exists d1, nth_error data1 i = Some d1 /\ isMissing d1 = false.
Proof.
  intros data i v data1 [Hfin Hex] Fv Eu.
  assert (HF : Forall2 (fun d d1 => (isMissing d = false -> isMissing d1 = false)
                                    /\ (finiteIfValid d = true -> finiteIfValid d1 = true))
                 data data1).
  { apply (updateAt_Forall2 _ data data i (fillPoint v) data1); [|exact Eu|].
    - apply Forall2_refl. auto.
    - intros a b Ha Hb _. split; [reflexivity|]. intros _.
      unfold finiteIfValid. simpl. exact Fv. }
  destruct (updateAt_nth _ _ _ _ Eu) as (d & Hd & Hd1).
  split; [split|split].
  - clear -Hfin HF. induction HF as [|a b l l' [_ Hab] _ IH]; [reflexivity|].
    simpl in *. apply andb_true_iff in Hfin as [Ha Hl]. now rewrite (Hab Ha), IH.
  - clear -Hex HF. induction HF as [|a b l l' [Hab _] _ IH]; [discriminate|].
    simpl in *. destruct (isMissing a) eqn:Ea; simpl in Hex.
    + rewrite (IH Hex). apply orb_true_r.
    + now rewrite (Hab eq_refl).
  - clear -HF. induction HF as [|a b l l' [Hab _] _ IH]; constructor; auto.
  - exists (fillPoint v d). auto.
Qed.

Lemma fillMissing_forward :
  forall indices data,
    fillable data ->
    (forall i, In i indices -> (i < length data)%nat) ->
    exists data',
      fillMissing MethodForward indices data = Some data'
      /\ fillable data'
      /\ Forall2 (fun d d' => isMissing d = false -> isMissing d' = false) data data'
      /\ forall i, In i indices -> exists d', nth_error data' i = Some d' /\ isMissing d' = false.
Proof.
  induction indices as [|i rest IH]; intros data Hf Hin.
  - exists data. simpl. repeat split; try apply Hf.
    + apply Forall2_refl. auto.
    + intros i [].
  - assert (Hi : (i < length data)%nat) by (apply Hin; now left).
    destruct (nth_error data i) as [d|] eqn:Hd; [|apply nth_error_None in Hd; lia].
    (* the series after the round for [i] *)
    assert (Step : exists data1,
               fillMissing MethodForward (i :: rest) data
               = fillMissing MethodForward rest data1
               /\ fillable data1
               /\ Forall2 (fun d d1 => isMissing d = false -> isMissing d1 = false) data data1
               /\ exists d1, nth_error data1 i = Some d1 /\ isMissing d1 = false).
    { cbn [fillMissing interpolatedValue].
      destruct (isMissing d) eqn:Em.
      - destruct (forwardFill_finite data i d Hf Hd Em) as (v & -> & Fv). rewrite Fv.
        destruct (updateAt_some data i (fillPoint v) Hi) as [data1 E1]. rewrite E1.
        exists data1. split; [auto|]. now apply (fillable_update data i v).
      - destruct (interpolatedValue_some MethodForward data i ltac:(lia)) as [r Er].
        cbn [interpolatedValue] in Er. rewrite Er.
        assert (Keep : exists data1,
                   fillMissing MethodForward rest data
                   = fillMissing MethodForward rest data1
                   /\ fillable data1
                   /\ Forall2 (fun d d1 => isMissing d = false -> isMissing d1 = false)
                        data data1
                   /\ exists d1, nth_error data1 i = Some d1 /\ isMissing d1 = false).
        { exists data. split; [auto|]. split; [exact Hf|]. split.
          - apply Forall2_refl. auto.
          - now exists d. }
        destruct r as [v|]; [|exact Keep].
        destruct (isFinite v) eqn:Fv; [|exact Keep].
        destruct (updateAt_some data i (fillPoint v) Hi) as [data1 E1]. rewrite E1.
        exists data1. split; [auto|]. now apply (fillable_update data i v). }
    destruct Step as (data1 & Hr & Hf1 & HF1 & d1 & Hd1 & Hm1).
    assert (Hlen : length data = length data1) by exact (Forall2_length HF1).
    destruct (IH data1 Hf1) as (data' & E & Hf' & HF' & Hall).
    { intros j Hj. rewrite <- Hlen. apply Hin. now right. }
    exists data'. split; [|split; [exact Hf'|split]].
    + now rewrite Hr.
    + apply (Forall2_compose _ _ _ _ _ _ _ (fun a b c Hab Hbc Ha => Hbc (Hab Ha)) HF1 HF').
    + intros j [<- | Hj]; [|now apply Hall].
      assert (Hn : exists d', nth_error data' i = Some d').
      { destruct (nth_error data' i) as [d'|] eqn:E'; [now exists d'|].
        apply nth_error_None in E'. rewrite <- (Forall2_length HF'), <- Hlen in E'. lia. }
      destruct Hn as [d' Hd']. exists d'. split; [exact Hd'|].
      clear -HF' Hd1 Hd' Hm1. revert i Hd1 Hd'.
      induction HF' as [|a b l l' Hab _ IH]; intros [|i] H1 H'; simpl in *;
        try discriminate.
      * injection H1 as ->. injection H' as ->. auto.
      * eauto.
Qed.


(** X20: if the points that are present all have finite values and at
    least one point is present, forward fill leaves no point missing, and
    every value of the series is then finite. *)
Theorem applyInterpolation_forward_complete :
  forall (st : State),
    forallb finiteIfValid (historicalData st) = true ->
    existsb (fun d => negb (isMissing d)) (historicalData st) = true ->
    exists st',
      applyInterpolation st MethodForward = Some st'
      /\ length (historicalData st') = length (historicalData st)
      /\ forallb (fun d => negb (isMissing d) && finiteIfValid d) (historicalData st') = true.
Proof.
  intros st Hfin Hex. unfold applyInterpolation.
  assert (Hf : fillable (historicalData st)) by (split; assumption).
  assert (G : forall data data' : list DataPoint,
            fillable data' ->
            Forall2 (fun d d' => isMissing d = false -> isMissing d' = false) data data' ->
            (forall i, In i (missingIndices data) ->
               exists d', nth_error data' i = Some d' /\ isMissing d' = false) ->
            forallb (fun d => negb (isMissing d) && finiteIfValid d) data' = true).
  { intros data data' [Hf' _] HF Hall. apply forallb_forall. intros d' Hin.
    rewrite forallb_forall in Hf'. rewrite (Hf' d' Hin), andb_true_r.
    apply In_nth_error in Hin as [k Hk].
    assert (Hd : exists d, nth_error data k = Some d).
    { destruct (nth_error data k) as [d|] eqn:E; [now exists d|].
      apply nth_error_None in E. rewrite (Forall2_length HF) in E.
      assert (k < length data')%nat by (apply nth_error_Some; congruence). lia. }
    destruct Hd as [d Hd]. destruct (isMissing d) eqn:Em.
    - destruct (Hall k) as (d2 & Hd2 & Hm2).
      { apply missingIndices_spec. now exists d. }
      rewrite Hk in Hd2. injection Hd2 as <-. now rewrite Hm2.
    - assert (isMissing d' = false) as ->; [|reflexivity].
      clear -HF Hd Hk Em. revert k Hd Hk.
      induction HF as [|a b l l' Hab _ IH]; intros [|k] H1 H'; simpl in *;
        try discriminate.
      + injection H1 as ->. injection H' as ->. auto.
      + eauto. }
  destruct (missingIndices (historicalData st)) as [|i0 rest] eqn:Ei.
  - exists st. split; [reflexivity|]. split; [reflexivity|].
    apply (G (historicalData st) (historicalData st) Hf).
    + apply Forall2_refl. auto.
    + rewrite Ei. intros i [].
  - destruct (fillMissing_forward (i0 :: rest) (historicalData st) Hf)
      as (data' & E & Hf' & HF & Hall).
    { intros i Hi. rewrite <- Ei in Hi. apply missingIndices_spec in Hi as (d & Hd & _).
      apply nth_error_Some. congruence. }
    rewrite E. eexists. split; [reflexivity|].
    cbn [analyzeDataQuality historicalData]. rewrite markOutliers_idempotent. split.
    + unfold markOutliers. rewrite length_map. symmetry. exact (Forall2_length HF).
    + assert (H' : forallb (fun d => negb (isMissing d) && finiteIfValid d) data' = true).
      { apply (G (historicalData st) data' Hf' HF). now rewrite Ei. }
      pose proof (markOutliers_frame data') as Fr. clear -H' Fr.
      induction Fr as [|a b l l' [(Hp & Ha & Hm & Ht) _] _ IH]; [reflexivity|].
      simpl in *. apply andb_true_iff in H' as [H1 H2]. rewrite (IH H2), andb_true_r.
      unfold finiteIfValid in *. now rewrite Hm, Ha.
Qed.

End Interpolation.

(** *** Instances *)

Lemma forwardFill_nearest_witness :
  let data := [mkPoint "Q1 2020" None true Missing false;
               mkPoint "Q2 2020" None true Missing false;
               mkPoint "Q3 2020" (Some 30) false Original false] in
  (1 <= length data)%nat
  /\ ((exists j d, (j < 1)%nat /\ validAt data j d /\ missingBetween data (S j) 1
                   /\ forwardFill data 1 = Some (accounts d))
      \/ (missingBetween data 0 1
          /\ exists j d, (1 < j)%nat /\ validAt data j d
                         /\ missingBetween data 2 j
                         /\ forwardFill data 1 = Some (accounts d))
      \/ (missingBetween data 0 1 /\ missingBetween data 2 (length data)
          /\ forwardFill data 1 = Some None)).
Proof.
  intros data. assert (H : (1 <= length data)%nat) by (simpl; lia).
  split; [exact H|]. apply (forwardFill_nearest data 1 H).
Defined.

Lemma linearInterpolation_one_sided_witness :
  let data := [mkPoint "Q1 2020" None true Missing false;
               mkPoint "Q2 2020" None true Missing false;
               mkPoint "Q3 2020" (Some 30) false Original false] in
  (missingBetween data 0 1 \/ missingBetween data 2 (length data))
  /\ linearInterpolation data 1 = forwardFill data 1.
Proof.
  intros data.
  assert (H : missingBetween data 0 1 \/ missingBetween data 2 (length data)).
  { left. intros k d Hk Hn. assert (k = 0)%nat by lia. subst k.
    simpl in Hn. injection Hn as <-. reflexivity. }
  split; [exact H|]. apply (linearInterpolation_one_sided data 1 H).
Defined.

Lemma applyInterpolation_forward_complete_witness :
  let data := [mkPoint "Q1 2020" None true Missing false;
               mkPoint "Q2 2020" (Some 20) false Original false;
               mkPoint "Q3 2020" None true Missing false;
               mkPoint "Q4 2020" (Some 40) false Original false;
               mkPoint "Q1 2021" None true Missing false] in
  let st := mkState data None None false in
  (forallb finiteIfValid (historicalData st) = true
   /\ existsb (fun d => negb (isMissing d)) (historicalData st) = true)
  /\ exists st',
       @applyInterpolation JSMath_ref st MethodForward = Some st'
       /\ length (historicalData st') = length (historicalData st)
       /\ forallb (fun d => negb (isMissing d) && finiteIfValid d) (historicalData st') = true.
Proof.
  intros data st.
  assert (H1 : forallb finiteIfValid (historicalData st) = true) by (vm_compute; reflexivity).
  assert (H2 : existsb (fun d => negb (isMissing d)) (historicalData st) = true)
    by (vm_compute; reflexivity).
  split; [split; assumption|].
  apply (@applyInterpolation_forward_complete JSMath_ref st H1 H2).
Defined.

(** ** The forecast *)

Set Warnings "-abstract-large-number".

Section Forecast.

Context {M : JSMath}.

Import FloatCompare.

(** The loop pushes the values of the rounds one after the other. *)
Lemma forecastLoop_spec :
  forall fitted sc baseOffset launch count i acc invalid,
    let row := forecastRow fitted sc baseOffset launch in
    forecastLoop (Some fitted) sc baseOffset launch count i acc invalid
    = Some
      (mkForecast (periods acc)
         (baseline acc ++ map (fun j => rowBaseline (row j)) (seq i count))
         (conservative acc ++ map (fun j => rowConservative (row j)) (seq i count))
         (moderate acc ++ map (fun j => rowModerate (row j)) (seq i count))
         (aggressive acc ++ map (fun j => rowAggressive (row j)) (seq i count))
         (uncertaintyPercent acc),
       invalid || existsb (fun j => rowInvalid (row j)) (seq i count)).
Proof.
  intros fitted sc baseOffset launch count. cbv zeta.
  induction count as [|count IH]; intros i acc invalid.
  - simpl. rewrite !app_nil_r, orb_false_r. now destruct acc.
  - cbn [forecastLoop seq map existsb]. unfold forecastRow at 1 2 3 4 5.
    destruct (forecastStep fitted sc launch (num_of_nat (baseOffset + i)))
      as [[[[b c] m] a] bad] eqn:E.
    rewrite IH. cbn [periods baseline conservative moderate aggressive uncertaintyPercent].
    unfold forecastRow at 5 6 7 8 9. rewrite E.
    cbn [rowBaseline rowConservative rowModerate rowAggressive rowInvalid].
    rewrite <- !app_assoc, orb_assoc. reflexivity.
Qed.

Lemma applyIntervention_keeps_finite :
  forall t bv p sp lq,
    isFinite bv = true -> isFinite (applyIntervention t bv p sp lq) = true.
Proof.
  intros t bv p sp lq H.
  destruct (applyIntervention_cases t bv p sp lq) as [-> | (adj & -> & Hf)]; assumption.
Qed.

(** A round pushes four finite values, or four NaN and raises the flag. *)
Lemma forecastStep_row :
  forall fitted sc launch t,
    let r := forecastStep fitted sc launch t in
    (isFinite (rowBaseline r) = true /\ isFinite (rowConservative r) = true
     /\ isFinite (rowModerate r) = true /\ isFinite (rowAggressive r) = true
     /\ rowInvalid r = false)
    \/ (isNaN (rowBaseline r) = true /\ isNaN (rowConservative r) = true
        /\ isNaN (rowModerate r) = true /\ isNaN (rowAggressive r) = true
        /\ rowInvalid r = true).
Proof.
  intros fitted sc launch t. cbv zeta. unfold forecastStep.
  destruct (isFinite (gompertzModel t (pK fitted) (pb fitted) (pt0 fitted))) eqn:Fb;
    cbn [negb]; cbv iota.
  - left. cbn [rowBaseline rowConservative rowModerate rowAggressive rowInvalid].
    rewrite !applyIntervention_keeps_finite by exact Fb. auto.
  - right. repeat split; reflexivity.
Qed.

Lemma nth_error_map_seq :
  forall (A : Type) (f : nat -> A) n i,
    (i < n)%nat -> nth_error (map f (seq 0 n)) i = Some (f i).
Proof.
  intros A f n i H. rewrite nth_error_map.
  now rewrite (nth_error_nth' (seq 0 n) O), seq_nth by (rewrite ?length_seq; lia).
Qed.

Lemma last_some :
  forall (l : list DataPoint),
    match last (map Some l) None with
    | None => l = []
    | Some d => exists l', l = l' ++ [d]
    end.
Proof.
  induction l as [|a l IH]; [reflexivity|].
  destruct l as [|b l].
  - simpl. now exists [].
  - change (last (map Some (a :: b :: l)) None) with (last (map Some (b :: l)) None).
    destruct (last (map Some (b :: l)) None) as [d|].
    + destruct IH as [l' ->]. now exists (a :: l').
    + discriminate.
Qed.

Lemma generateForecasts_eq :
  forall st fitted sc n platformLaunch l lastPoint,
    historicalData st = l ++ [lastPoint] ->
    let baseOffset := length (historicalData st) in
    let row := forecastRow fitted sc baseOffset (num_of_nat baseOffset + platformLaunch) in
    generateForecasts st (Some fitted) sc n platformLaunch
    = Some (mkForecast (tl (generateQuarters (period lastPoint) (S n)))
              (map (fun j => rowBaseline (row j)) (seq 0 n))
              (map (fun j => rowConservative (row j)) (seq 0 n))
              (map (fun j => rowModerate (row j)) (seq 0 n))
              (map (fun j => rowAggressive (row j)) (seq 0 n))
              (uncertaintyOf (dataQuality st)),
            existsb (fun j => rowInvalid (row j)) (seq 0 n)).
Proof.
  intros st fitted sc n launch l lastPoint Hl. cbv zeta. unfold generateForecasts.
  assert (E : last (map Some (historicalData st)) None = Some lastPoint).
  { rewrite Hl, map_app. simpl. now rewrite last_last. }
  rewrite E, forecastLoop_spec. reflexivity.
Qed.

(** Without fitted parameters the first round throws; with no round to
    run, the forecast is empty. *)
Lemma generateForecasts_null :
  forall st sc n platformLaunch l lastPoint,
    historicalData st = l ++ [lastPoint] ->
    generateForecasts st None sc n platformLaunch
    = match n with
      | O => Some (mkForecast (tl (generateQuarters (period lastPoint) 1)) [] [] [] []
                     (uncertaintyOf (dataQuality st)), false)
      | S _ => None
      end.
Proof.
  intros st sc n launch l lastPoint Hl. unfold generateForecasts.
  assert (E : last (map Some (historicalData st)) None = Some lastPoint).
  { rewrite Hl, map_app. simpl. now rewrite last_last. }
  rewrite E. destruct n; reflexivity.
Qed.

Lemma tl_quarters_length :
  forall s n,
    length (tl (generateQuarters s (S n)))
    = match parseQuarter s with Some _ => n | None => O end.
Proof.
  intros s n. unfold generateQuarters. destruct (parseQuarter s) as [qy|]; [|reflexivity].
  cbn [quartersFrom tl]. generalize (nextQuarter qy). clear.
  induction n as [|n IH]; intros qy; simpl; [reflexivity|]. now rewrite IH.
Qed.

(** X21: a forecast throws exactly on an empty series and, for a series
    that is not empty, when there are no fitted parameters and at least one
    quarter is asked for.  Otherwise each of the four value lists gets one
    entry per forecast quarter, while the list of periods gets as many only
    if a quarter is found in the period of the last point, and is empty
    otherwise; the uncertainty is 2, 5 or 8 percent. *)
Theorem generateForecasts_shape :
  forall (st : State) (fittedParams : option Params) (sc : ScenarioParams)
         (forecastQuarters : nat) (platformLaunch : float),
    match generateForecasts st fittedParams sc forecastQuarters platformLaunch with
    | None =>
        historicalData st = []
        \/ (fittedParams = None /\ (0 < forecastQuarters)%nat)
    | Some (f, _) =>
        exists l lastPoint,
          historicalData st = l ++ [lastPoint]
          /\ (fittedParams = None -> forecastQuarters = O)
          /\ length (baseline f) = forecastQuarters
          /\ length (conservative f) = forecastQuarters
          /\ length (moderate f) = forecastQuarters
          /\ length (aggressive f) = forecastQuarters
          /\ length (periods f)
             = match parseQuarter (period lastPoint) with
               | Some _ => forecastQuarters
               | None => O
               end
          /\ In (uncertaintyPercent f) [2; 5; 8]%Z
    end.
Proof.
  intros st fittedParams sc n launch.
  assert (U : In (uncertaintyOf (dataQuality st)) [2; 5; 8]%Z).
  { unfold uncertaintyOf. destruct (95 <=? _)%Z; [now left|].
    destruct (80 <=? _)%Z; [right; now left | right; right; now left]. }
  pose proof (last_some (historicalData st)) as L.
  destruct (last (map Some (historicalData st)) None) as [lastPoint|] eqn:E.
  2:{ unfold generateForecasts. rewrite E. now left. }
  destruct L as [l Hl]. destruct fittedParams as [fitted|].
  - rewrite (generateForecasts_eq st fitted sc n launch l lastPoint Hl).
    exists l, lastPoint.
    cbn [baseline conservative moderate aggressive periods uncertaintyPercent].
    rewrite !length_map, !length_seq, tl_quarters_length.
    repeat split; auto. discriminate.
  - rewrite (generateForecasts_null st sc n launch l lastPoint Hl).
    destruct n as [|n]; [|right; split; [reflexivity|lia]].
    exists l, lastPoint.
    cbn [baseline conservative moderate aggressive periods uncertaintyPercent].
    rewrite tl_quarters_length. repeat split; auto.
Qed.

(** X22: in every row of a forecast the four values are finite, or the
    four are NaN; and the flag of invalid forecasts is raised exactly when
    some baseline value is NaN, so the test of the scenario values at line
    1053 never adds to it. *)
Theorem generateForecasts_rows :
  forall (st : State) (fittedParams : option Params) (sc : ScenarioParams)
         (forecastQuarters : nat) (platformLaunch : float),
    match generateForecasts st fittedParams sc forecastQuarters platformLaunch with
    | None => True
    | Some (f, hasInvalidForecasts) =>
        (forall i, (i < forecastQuarters)%nat ->
           exists b c m a,
             nth_error (baseline f) i = Some b /\ nth_error (conservative f) i = Some c
             /\ nth_error (moderate f) i = Some m /\ nth_error (aggressive f) i = Some a
             /\ ((isFinite b = true /\ isFinite c = true
                  /\ isFinite m = true /\ isFinite a = true)
                 \/ (isNaN b = true /\ isNaN c = true
                     /\ isNaN m = true /\ isNaN a = true)))
        /\ hasInvalidForecasts = existsb isNaN (baseline f)
    end.
Proof.
  intros st fittedParams sc n launch.
  pose proof (last_some (historicalData st)) as L.
  destruct (last (map Some (historicalData st)) None) as [lastPoint|] eqn:E.
  2:{ unfold generateForecasts. rewrite E. exact I. }
  destruct L as [l Hl]. destruct fittedParams as [fitted|].
  2:{ rewrite (generateForecasts_null st sc n launch l lastPoint Hl).
      destruct n; [|exact I]. split; [intros i Hi; lia|reflexivity]. }
  rewrite (generateForecasts_eq st fitted sc n launch l lastPoint Hl).
  cbn [baseline conservative moderate aggressive].
  set (row := forecastRow fitted sc _ _). split.
  - intros i Hi. exists (rowBaseline (row i)), (rowConservative (row i)),
                        (rowModerate (row i)), (rowAggressive (row i)).
    rewrite !nth_error_map_seq by exact Hi. repeat split.
    destruct (forecastStep_row fitted sc
                (num_of_nat (length (historicalData st)) + launch)
                (num_of_nat (length (historicalData st) + i)))
      as [(H1 & H2 & H3 & H4 & _) | (H1 & H2 & H3 & H4 & _)]; [left|right]; auto.
  - generalize (seq 0 n) as js.
    induction js as [|j js IH]; [reflexivity|]. simpl. rewrite IH. f_equal.
    destruct (forecastStep_row fitted sc
                (num_of_nat (length (historicalData st)) + launch)
                (num_of_nat (length (historicalData st) + j)))
      as [(H1 & _ & _ & _ & H5) | (H1 & _ & _ & _ & H5)];
      fold (forecastRow fitted sc (length (historicalData st))
              (num_of_nat (length (historicalData st)) + launch) j) in H1, H5;
      fold row in H1, H5; rewrite H5.
    + apply isFinite_not_nan in H1. now rewrite <- H1.
    + now rewrite H1.
Qed.

(** X23: in a forecast quarter before the platform launch the three
    scenarios show the baseline value. *)
Theorem generateForecasts_before_launch :
  forall (st : State) (fittedParams : option Params) (sc : ScenarioParams)
         (forecastQuarters : nat) (platformLaunch : float),
    match generateForecasts st fittedParams sc forecastQuarters platformLaunch with
    | None => True
    | Some (f, _) =>
        let baseOffset := length (historicalData st) in
        forall i, (i < forecastQuarters)%nat ->
          (num_of_nat (baseOffset + i) <? num_of_nat baseOffset + platformLaunch) = true ->
          nth_error (conservative f) i = nth_error (baseline f) i
          /\ nth_error (moderate f) i = nth_error (baseline f) i
          /\ nth_error (aggressive f) i = nth_error (baseline f) i
    end.
Proof.
  intros st fittedParams sc n launch.
  pose proof (last_some (historicalData st)) as L.
  destruct (last (map Some (historicalData st)) None) as [lastPoint|] eqn:E.
  2:{ unfold generateForecasts. rewrite E. exact I. }
  destruct L as [l Hl]. destruct fittedParams as [fitted|].
  2:{ rewrite (generateForecasts_null st sc n launch l lastPoint Hl).
      destruct n; [|exact I]. intros baseOffset i Hi. lia. }
  rewrite (generateForecasts_eq st fitted sc n launch l lastPoint Hl).
  cbn [baseline conservative moderate aggressive]. cbv zeta.
  intros i Hi Hlt. rewrite !nth_error_map_seq by exact Hi.
  unfold forecastRow, forecastStep.
  destruct (negb (isFinite (gompertzModel _ _ _ _))); [repeat split|].
  cbn [rowBaseline rowConservative rowModerate rowAggressive].
  assert (B : forall bv sp,
            applyIntervention (num_of_nat (length (historicalData st) + i)) bv fitted sp
              (num_of_nat (length (historicalData st)) + launch) = bv).
  { intros bv sp. unfold applyIntervention.
    destruct (negb (isFinite _) || negb (isFinite bv)); [reflexivity|].
    destruct (negb (isFinite (pK fitted)) || _ || _); [reflexivity|].
    now rewrite Hlt. }
  rewrite !B. repeat split.
Qed.

(** X24: with fitted parameters, when the period of the last point is the
    label of quarter [q] (1 to 4) of a four-digit year, the forecast is
    made and its periods are the labels of the quarters that follow it, in
    order. *)
Theorem generateForecasts_periods :
  forall (st : State) (fitted : Params) (sc : ScenarioParams)
         (forecastQuarters : nat) (platformLaunch : float)
         (l : list DataPoint) (lastPoint : DataPoint) (q y : nat),
    historicalData st = l ++ [lastPoint] ->
    period lastPoint = quarterLabel q y ->
    (1 <= q <= 4)%nat -> (1000 <= y <= 9999)%nat ->
    exists f invalid,
      generateForecasts st (Some fitted) sc forecastQuarters platformLaunch
      = Some (f, invalid)
      /\ periods f
         = map (fun i => quarterLabel (fst (quarterAfter q y (S i)))
                                      (snd (quarterAfter q y (S i))))
               (seq 0 forecastQuarters).
Proof.
  intros st fitted sc n launch l lastPoint q y Hl Hp Hq Hy.
  rewrite (generateForecasts_eq st fitted sc n launch l lastPoint Hl).
  eexists. eexists. split; [reflexivity|]. cbn [periods].
  unfold generateQuarters.
  rewrite Hp, (parseQuarter_here _ _ (quarterLabel_matches q y ltac:(lia) Hy)).
  apply nth_error_ext. intros i.
  destruct (Nat.lt_ge_cases i n) as [Hi|Hi].
  - rewrite nth_error_map_seq by exact Hi.
    change (tl (quartersFrom (S n) (q, y))) with (quartersFrom n (nextQuarter (q, y))).
    pose proof (quartersFrom_nth (S n) (S i) q y Hq ltac:(lia)) as H.
    exact H.
  - transitivity (@None string).
    + apply nth_error_None. cbn [quartersFrom tl].
      generalize (nextQuarter (q, y)). clear -Hi. revert i Hi.
      induction n as [|n IH]; intros i Hi qy; simpl; [lia|].
      destruct i as [|i]; [lia|]. simpl. specialize (IH i ltac:(lia) (nextQuarter qy)). lia.
    + symmetry. apply nth_error_None. rewrite length_map, length_seq. exact Hi.
Qed.

End Forecast.

(** *** Instances *)

Lemma generateForecasts_periods_witness :
  let l := [mkPoint "Q2 2024" (Some 10) false Original false] in
  let lastPoint := mkPoint "Q3 2024" (Some 20) false Original false in
  let st := mkState (l ++ [lastPoint]) None None false in
  let fitted := mkParams 100 0.2 3 in
  let ip := mkIntervention 0.2 1 0.05 8 8 10 in
  let sc := mkScenarios ip ip ip in
  (historicalData st = l ++ [lastPoint]
   /\ period lastPoint = quarterLabel 3 2024
   /\ (1 <= 3 <= 4)%nat /\ (1000 <= 2024 <= 9999)%nat)
  /\ exists f invalid,
       @generateForecasts JSMath_ref st (Some fitted) sc 3 2 = Some (f, invalid)
       /\ periods f = ["Q4 2024"; "Q1 2025"; "Q2 2025"]%string.
Proof.
  intros l lastPoint st fitted ip sc.
  assert (H1 : historicalData st = l ++ [lastPoint]) by reflexivity.
  assert (H2 : period lastPoint = quarterLabel 3 2024) by (vm_compute; reflexivity).
  assert (H3 : (1 <= 3 <= 4)%nat) by lia.
  assert (H4 : (1000 <= 2024 <= 9999)%nat)
    by (split; apply Nat.leb_le; vm_compute; reflexivity).
  split; [repeat split; try assumption; try apply H3; apply H4|].
  destruct (@generateForecasts_periods JSMath_ref st fitted sc 3 2 l lastPoint 3 2024
              H1 H2 H3 H4) as (f & invalid & E & P).
  exists f, invalid. split; [exact E|]. rewrite P. vm_compute. reflexivity.
Defined.

(** ** More on the order of the numbers *)

Module FloatFacts.

Import FloatCompare Rounding FloatOrder.

Local Open Scope Z_scope.

(** The number after a valid positive number, in the order of ranks. *)
Lemma rank_succ :
  forall s m e, valid_binary (S754_finite s m e) = true ->
    rank (Zpos m + 1) e = rank (Zpos m) e + 1.
Proof.
  intros s m e V. destruct (valid_finite s m e V) as (He & Hm & Hn & Hc).
  pose proof (Zdigits2_spec (Zpos m) ltac:(lia)) as [Dlo Dhi].
  pose proof (Zdigits2_nonneg (Zpos m) ltac:(lia)) as Dpos.
  set (d := Zdigits2 (Zpos m)) in *.
  assert (R0 : rank (Zpos m) e = (e - emin) * halfRange + Zpos m).
  { unfold rank. fold d. rewrite Hc, Z.sub_diag. unfold scaled.
    now rewrite Z.ltb_irrefl, rne_div_0. }
  rewrite R0. rewrite fexp_val in Hc.
  destruct (Z_lt_le_dec (Zpos m + 1) (2 ^ d)) as [Hlt|Hge].
  - assert (D1 : Zdigits2 (Zpos m + 1) = d)
      by (apply Zdigits2_unique; [lia|]; gen_pow; lia).
    unfold rank. rewrite D1, fexp_val.
    replace (Z.max (d + e - 53) (-1074)) with e by lia.
    rewrite Z.sub_diag. unfold scaled. rewrite Z.ltb_irrefl, rne_div_0. lia.
  - assert (E : Zpos m + 1 = 2 ^ d) by lia.
    assert (D1 : Zdigits2 (Zpos m + 1) = d + 1).
    { apply Zdigits2_unique; [lia|]. replace (d + 1 - 1) with d by lia.
      rewrite Z.pow_add_r by lia. change (2 ^ 1) with 2. gen_pow. lia. }
    unfold rank. rewrite D1, fexp_val.
    destruct (Z_lt_le_dec (d + e - 53) (-1074)) as [Hsub|Hnorm].
    + assert (d < 53).
      { destruct (Z_lt_le_dec d 53) as [|Hd]; [assumption|].
        assert (e = -1074) by lia. lia. }
      replace (Z.max (d + 1 + e - 53) (-1074)) with e by lia.
      rewrite Z.sub_diag. unfold scaled. rewrite Z.ltb_irrefl, rne_div_0. lia.
    + assert (Hd53 : d = 53) by lia.
      replace (Z.max (d + 1 + e - 53) (-1074)) with (e + 1) by lia.
      replace (e + 1 - e) with 1 by lia. unfold scaled.
      change (1 <? 0) with false. cbv iota.
      rewrite E, Hd53 in *. replace (2 ^ 53) with (2 ^ 52 * 2 ^ 1) by reflexivity.
      rewrite rne_div_exact by lia. rewrite halfRange_val, emin_val.
      replace (Zpos m) with (2 ^ 53 - 1) by lia.
      change (2 ^ 53) with 9007199254740992. change (2 ^ 52) with 4503599627370496. lia.
Qed.

Lemma three_halves : Prim2SF 1.5 = S754_finite false 6755399441055744 (-52).
Proof. reflexivity. Qed.

(** One and a half times a positive finite number is above it. *)
Lemma mul_three_halves_above :
  forall x, isFinite x = true -> 0 < ord x -> ord x < ord (x * 1.5)%float.
Proof.
  intros x F Hx. destruct (finite_pos_spec x F Hx) as (m & e & Ex).
  pose proof (Prim2SF_valid x) as V. rewrite Ex in V.
  destruct (valid_finite false m e V) as (He & Hm & Hn & Hc).
  pose proof (ordF_finite_bounds false m e V) as B.
  pose proof (ordF_rank false m e V) as Rk.
  unfold ord. rewrite mul_spec. unfold SF64mul. rewrite Ex, three_halves.
  destruct (SFmul_ord false m e (S754_finite false 6755399441055744 (-52)) V
              eq_refl ltac:(discriminate)) as [_ ->].
  cbn [SFis_infinity SFmant SFexp cond_Zopp]. unfold ordS. cbn [SFsign].
  rewrite Rk in *.
  assert (E3 : Zpos m * Zpos 6755399441055744 = (Zpos m * 3) * 2 ^ 51) by
    (change (2 ^ 51) with 2251799813685248; lia).
  assert (G : rank (Zpos m) e < rank (Zpos m * Zpos 6755399441055744) (e + -52)).
  { rewrite E3. replace (e + -52) with ((e - 1) - 51) by lia.
    rewrite rank_scale by lia.
    destruct (Z.eq_dec (Zpos m) 1) as [E1|N1].
    - assert (e = -1074).
      { destruct (Z_lt_le_dec (-1074) e) as [Hl|]; [|lia].
        specialize (Hn Hl). rewrite halfRange_val in Hn.
        change (2 ^ 52) with 4503599627370496 in Hn. lia. }
      subst e. rewrite E1. vm_compute. reflexivity.
    - pose proof (rank_succ false m e V) as S.
      assert (L : rank (Zpos m + 1) e <= rank (Zpos m * 3) (e - 1)).
      { rewrite <- (rank_scale (Zpos m + 1) e 1) by lia.
        apply rank_mono; [|]; change (2 ^ 1) with 2; lia. }
      lia. }
  destruct (Zpos m * Zpos 6755399441055744) as [|p|p] eqn:Ep; try lia.
  simpl roundedOrd. lia.
Qed.

(** A number that is not finite stays so when it is multiplied, and when
    something is subtracted from it. *)
Lemma not_finite_spec :
  forall x, isFinite x = false ->
    Prim2SF x = S754_nan \/ exists s, Prim2SF x = S754_infinity s.
Proof.
  intros x H.
  assert (G : Prim2SF x <> S754_nan -> SFis_infinity (Prim2SF x) = false -> False).
  { intros N I. assert (isFinite x = true) by (now apply isFinite_spec). congruence. }
  destruct (Prim2SF x) as [s|s| |s m e].
  - exfalso. apply G; [discriminate|reflexivity].
  - right. now exists s.
  - now left.
  - exfalso. apply G; [discriminate|reflexivity].
Qed.

Lemma not_finite_intro :
  forall x, Prim2SF x = S754_nan \/ (exists s, Prim2SF x = S754_infinity s) ->
    isFinite x = false.
Proof.
  intros x H. destruct (isFinite x) eqn:F; [|reflexivity].
  apply isFinite_spec in F as [N I]. destruct H as [H | [s H]]; rewrite H in *;
    [congruence|discriminate].
Qed.

Lemma mul_not_finite :
  forall x c, isFinite x = false -> isFinite (x * c)%float = false.
Proof.
  intros x c H. apply not_finite_intro. rewrite mul_spec. unfold SF64mul.
  destruct (not_finite_spec x H) as [-> | [s ->]];
    destruct (Prim2SF c) as [sc|sc| |sc mc ec]; simpl; eauto.
Qed.

Lemma sub_not_finite :
  forall x y, isFinite x = false -> isFinite (x - y)%float = false.
Proof.
  intros x y H. apply not_finite_intro. rewrite sub_spec. unfold SF64sub.
  destruct (not_finite_spec x H) as [-> | [s ->]];
    destruct (Prim2SF y) as [sy|sy| |sy my ey]; simpl; eauto.
  destruct s, sy; eauto.
Qed.

End FloatFacts.

(** ** The grid search and the refinement *)

Section FitSearch.

Context {M : JSMath}.

Import FloatCompare Rounding FloatOrder FloatFacts.

Lemma fold_left_pointwise :
  forall (A B : Type) (f g : A -> B -> A) (l : list B) (a : A),
    (forall a b, f a b = g a b) -> fold_left f l a = fold_left g l a.
Proof.
  intros A B f g l. induction l as [|b l IH]; intros a H; simpl; [reflexivity|].
  rewrite H. now apply IH.
Qed.

Lemma fold_left_flat_map :
  forall (A B S : Type) (f : S -> B -> S) (g : A -> list B) (l : list A) (s : S),
    fold_left f (flat_map g l) s = fold_left (fun s a => fold_left f (g a) s) l s.
Proof.
  intros A B S f g l. induction l as [|a l IH]; intros s; simpl; [reflexivity|].
  now rewrite fold_left_app, IH.
Qed.

Lemma fold_left_map :
  forall (A B S : Type) (f : S -> B -> S) (g : A -> B) (l : list A) (s : S),
    fold_left f (map g l) s = fold_left (fun s a => f s (g a)) l s.
Proof.
  intros A B S f g l. induction l as [|a l IH]; intros s; simpl; [reflexivity|]. apply IH.
Qed.

(** The three nested loops are one loop over the combinations. *)
Lemma gridSearch_fold :
  forall data n maxAccounts,
    gridSearch data n maxAccounts
    = fold_left (tryTriple data) (gridCandidates n maxAccounts) (mkSearch None infinity 0).
Proof.
  intros data n mx. unfold gridSearch, gridCandidates.
  rewrite fold_left_flat_map. apply fold_left_pointwise. intros s k.
  cbv zeta. destruct (mx * k <=? mx); [reflexivity|].
  rewrite fold_left_flat_map. apply fold_left_pointwise. intros s' b.
  destruct ((b <=? 0) || (1.0 <? b)); [reflexivity|].
  now rewrite fold_left_map.
Qed.

Lemma gridCandidates_spec :
  forall n maxAccounts K b t0,
    In (K, b, t0) (gridCandidates n maxAccounts) ->
    (exists k_mult, In k_mult K_steps /\ K = maxAccounts * k_mult)
    /\ (K <=? maxAccounts) = false
    /\ In b b_steps /\ In t0 (t0_steps n).
Proof.
  intros n mx K b t0 H. unfold gridCandidates in H.
  apply in_flat_map in H as (k & Hk & H). cbv zeta in H.
  destruct (mx * k <=? mx) eqn:G; [destruct H|].
  apply in_flat_map in H as (b' & Hb & H).
  destruct ((b' <=? 0) || (1.0 <? b')); [destruct H|].
  apply in_map_iff in H as (t & E & Ht). injection E as <- <- <-.
  split; [now exists k|]. auto.
Qed.

Lemma finite_below_infinity :
  forall e, isFinite e = true -> (e <? infinity) = true.
Proof.
  intros e F. apply isFinite_ord in F as [N B]. apply ltb_ord.
  split; [exact N|]. split; [reflexivity|]. exact (proj2 B).
Qed.

Lemma tryTriple_step :
  forall data s c,
    goodSearch data s ->
    let s' := tryTriple data s c in
    goodSearch data s'
    /\ (ord (bestError s') <= ord (bestError s))%Z
    /\ (bestParams s' = bestParams s \/ bestParams s' = Some (paramsOf c))
    /\ (bestParams s <> None -> bestParams s' <> None)
    /\ (forall e, errorOf data c = Some e -> isFinite e = true ->
          (ord (bestError s') <= ord e)%Z /\ bestParams s' <> None).
Proof.
  intros data s [[K b] t0] [Nb Hs]. cbv zeta. unfold tryTriple, tryCandidate, errorOf.
  destruct (candidateError data 0 K b t0 0) as [e|] eqn:Ee.
  2:{ split; [split; assumption|]. split; [lia|]. split; [now left|]. split; [auto|].
      intros e' He'. discriminate. }
  destruct (isFinite e) eqn:Fe; cbn [andb].
  2:{ split; [split; assumption|]. split; [lia|]. split; [now left|]. split; [auto|].
      intros e' He' Fe'. injection He' as <-. congruence. }
  destruct (e <? bestError s) eqn:Lt.
  - apply ltb_ord in Lt as (Ne & _ & Lt).
    assert (G : goodSearch data (mkSearch (Some (mkParams K b t0)) e (S (validFits s)))).
    { split; [exact Ne|]. cbn. split; [exact Ee|exact Fe]. }
    split; [exact G|]. cbn [bestParams bestError].
    split; [lia|]. split; [now right|]. split; [discriminate|].
    intros e' He' _. injection He' as <-. split; [lia|discriminate].
  - pose proof (isFinite_not_nan e Fe) as Ne.
    pose proof (ltb_false_ord e (bestError s) Ne Nb Lt) as Le.
    split; [split; assumption|]. split; [lia|]. split; [now left|]. split; [auto|].
    intros e' He' _. injection He' as <-. split; [exact Le|].
    destruct (bestParams s); [discriminate|].
    rewrite Hs, (finite_below_infinity e Fe) in Lt. discriminate.
Qed.

Lemma search_fold :
  forall data cs s,
    goodSearch data s ->
    let s' := fold_left (tryTriple data) cs s in
    goodSearch data s'
    /\ (ord (bestError s') <= ord (bestError s))%Z
    /\ (bestParams s' = bestParams s
        \/ exists c, In c cs /\ bestParams s' = Some (paramsOf c))
    /\ (bestParams s <> None -> bestParams s' <> None)
    /\ (forall c e, In c cs -> errorOf data c = Some e -> isFinite e = true ->
          (ord (bestError s') <= ord e)%Z /\ bestParams s' <> None).
Proof.
  intros data. induction cs as [|c cs IH]; intros s Hs; cbv zeta.
  - simpl. split; [exact Hs|]. split; [lia|]. split; [now left|]. split; [auto|].
    intros c e [].
  - cbn [fold_left].
    destruct (tryTriple_step data s c Hs) as (G1 & L1 & P1 & S1 & A1).
    destruct (IH _ G1) as (G2 & L2 & P2 & S2 & A2).
    split; [exact G2|]. split; [lia|]. split; [|split; [auto|]].
    + destruct P2 as [P2 | (c' & Hc' & P2)].
      * rewrite P2. destruct P1 as [P1 | P1]; [now left|].
        right. exists c. split; [now left|exact P1].
      * right. exists c'. split; [now right|exact P2].
    + intros c' e [<- | Hin] He Fe.
      * destruct (A1 e He Fe) as [Le Hn]. split; [lia|auto].
      * now apply (A2 c' e).
Qed.

Lemma gridSearch_winner_in :
  forall data n maxAccounts p,
    bestParams (gridSearch data n maxAccounts) = Some p ->
    In (pK p, pb p, pt0 p) (gridCandidates n maxAccounts).
Proof.
  intros data n mx p H. rewrite gridSearch_fold in H.
  assert (G0 : goodSearch data (mkSearch None infinity 0)) by (split; reflexivity).
  destruct (search_fold data (gridCandidates n mx) _ G0) as (_ & _ & P & _).
  rewrite H in P. destruct P as [P | ([[K b] t0] & Hc & P)]; [discriminate P|].
  injection P as ->. exact Hc.
Qed.

(** X25: the grid search keeps a combination of least error: its winner is
    one of the combinations that pass the guards, with a finite error that
    no other such combination with a finite error undercuts; and it has no
    winner only if no combination has a finite error. *)
Theorem gridSearch_least_error :
  forall (data : list float) (n maxAccounts : float),
    let s := gridSearch data n maxAccounts in
    match bestParams s with
    | Some p =>
        In (pK p, pb p, pt0 p) (gridCandidates n maxAccounts)
        /\ ((exists k_mult, In k_mult K_steps /\ pK p = maxAccounts * k_mult)
            /\ (pK p <=? maxAccounts) = false
            /\ In (pb p) b_steps /\ In (pt0 p) (t0_steps n))
        /\ errorOf data (pK p, pb p, pt0 p) = Some (bestError s)
        /\ isFinite (bestError s) = true
        /\ forall c e, In c (gridCandidates n maxAccounts) ->
             errorOf data c = Some e -> isFinite e = true ->
             (e <? bestError s) = false
    | None =>
        forall c e, In c (gridCandidates n maxAccounts) ->
          errorOf data c = Some e -> isFinite e = false
    end.
Proof.
  intros data n mx. cbv zeta. rewrite gridSearch_fold.
  assert (G0 : goodSearch data (mkSearch None infinity 0)) by (split; reflexivity).
  destruct (search_fold data (gridCandidates n mx) _ G0) as ([Nb G] & _ & P & _ & A).
  set (s := fold_left (tryTriple data) (gridCandidates n mx) (mkSearch None infinity 0)) in *.
  destruct (bestParams s) as [p|] eqn:Ep.
  - destruct G as [Ge Gf].
    assert (Hin : In (pK p, pb p, pt0 p) (gridCandidates n mx)).
    { destruct P as [P | ([[K b] t0] & Hc & P)]; [discriminate P|].
      injection P as ->. exact Hc. }
    split; [exact Hin|]. split; [exact (gridCandidates_spec _ _ _ _ _ Hin)|].
    split; [exact Ge|split; [exact Gf|]].
    intros c e Hc He Fe. destruct (A c e Hc He Fe) as [Le _].
    destruct (e <? bestError s) eqn:Lt; [|reflexivity].
    apply ltb_ord in Lt as (_ & _ & Lt). lia.
  - intros c e Hin He. destruct (isFinite e) eqn:Fe; [|reflexivity].
    destruct (A c e Hin He Fe) as [_ Hn]. congruence.
Qed.

(** One round of the refinement: it stops at its start, or goes on from
    parameters within the bounds. *)
Lemma refine_step :
  forall iters data n maxAccounts p,
    refine (S iters) data n maxAccounts p = p
    \/ exists p', withinBounds maxAccounts p'
                  /\ refine (S iters) data n maxAccounts p
                     = refine iters data n maxAccounts p'.
Proof.
  intros iters data n mx p. cbn [refine].
  destruct (gradients data 0 p 0 0 0) as [[[gK gB] gT]|]; [|now left].
  destruct (negb (isFinite gK) || negb (isFinite gB) || negb (isFinite gT)); [now left|].
  match goal with |- context [if ?c then _ else _] => destruct c eqn:C end; [|now left].
  right. eexists. split; [|reflexivity].
  repeat (apply andb_true_iff in C as [C ?]). unfold withinBounds. cbn [pK pb pt0].
  repeat split; assumption.
Qed.

(** The capacity after the refinement is that of the start or is above
    the maximum. *)
Lemma refine_K :
  forall iters data n maxAccounts p,
    refine iters data n maxAccounts p = p
    \/ (maxAccounts <? pK (refine iters data n maxAccounts p)) = true.
Proof.
  induction iters as [|iters IH]; intros data n mx p; [now left|].
  destruct (refine_step iters data n mx p) as [E | (p' & W & E)]; [now left|].
  right. rewrite E. destruct (IH data n mx p') as [-> | H]; [apply W|exact H].
Qed.

(** X26: the refinement returns the parameters it started from or
    parameters within its bounds: [K] between the maximum of the series and
    five times the maximum, [b] between 0.01 and 1, all three finite. *)
Theorem refine_within_bounds :
  forall (data : list float) (n maxAccounts : float) (p : Params),
    refine iterations data n maxAccounts p = p
    \/ withinBounds maxAccounts (refine iterations data n maxAccounts p).
Proof.
  intros data n mx. generalize iterations as iters.
  induction iters as [|iters IH]; intros p; [now left|].
  destruct (refine_step iters data n mx p) as [E | (p' & W & E)]; [now left|].
  right. rewrite E. destruct (IH p') as [-> | H]; assumption.
Qed.

Lemma refine_not_finite :
  forall iters data n maxAccounts p,
    isFinite (pK p) = false -> refine iters data n maxAccounts p = p.
Proof.
  intros [|iters] data n mx p H; [reflexivity|]. cbn [refine].
  destruct (gradients data 0 p 0 0 0) as [[[gK gB] gT]|]; [|reflexivity].
  destruct (negb (isFinite gK) || negb (isFinite gB) || negb (isFinite gT)); [reflexivity|].
  rewrite (sub_not_finite (pK p) (learningRate * gK / n) H).
  rewrite andb_false_r. reflexivity.
Qed.

Lemma initialParams_K :
  forall data n maxAccounts,
    pK (initialParams data n maxAccounts) = maxAccounts * 1.5
    \/ ((exists k_mult, pK (initialParams data n maxAccounts) = maxAccounts * k_mult)
        /\ (pK (initialParams data n maxAccounts) <=? maxAccounts) = false).
Proof.
  intros data n mx. unfold initialParams.
  destruct (bestParams (gridSearch data n mx)) as [p|] eqn:E; [|now left].
  right. apply gridSearch_winner_in, gridCandidates_spec in E as ((k & _ & Ek) & G & _).
  split; [now exists k|exact G].
Qed.

(** A square root that is a number is not negative. *)
Lemma sqrt_nonneg :
  forall x, is_nan (sqrt x) = false -> (0 <=? sqrt x) = true.
Proof.
  intros x N. apply leb_ord. split; [reflexivity|]. split; [exact N|].
  rewrite ord_zero. pose proof (Prim2SF_valid (sqrt x)) as V.
  apply is_nan_false in N. unfold ord. rewrite sqrt_spec in *.
  pose proof (ordF_nonneg _ V) as B. pose proof halfRange_pos as HH.
  assert (S : forall s m e l,
            binary_round_aux prec emax s m e l = S754_nan
            \/ SFsign (binary_round_aux prec emax s m e l) = s).
  { intros s m e l. unfold binary_round_aux.
    destruct (shr_fexp prec emax m e l) as [mrs' e'].
    destruct (shr_fexp prec emax _ e' loc_Exact) as [mrs'' e''].
    destruct (shr_m mrs''); auto. destruct (e'' <=? emax - prec)%Z; auto. }
  unfold SF64sqrt, SFsqrt in *.
  destruct (Prim2SF x) as [s|[]| |[] m e]; try congruence.
  - unfold ordS. simpl. destruct s; lia.
  - unfold ordS. simpl SFsign. cbv iota. lia.
  - destruct (SFsqrt_core_binary prec emax (Zpos m) e) as [[mz ez] lz].
    destruct (S false mz ez lz) as [E | E]; [congruence|].
    unfold ordS. rewrite E. lia.
Qed.

Lemma clamp_b_ord :
  (ord 0 < ord 0.05)%Z /\ (ord 0.05 <= ord 0.5)%Z /\ (ord 0.5 <= ord 1)%Z.
Proof. repeat split; vm_compute; congruence. Qed.

Lemma refinedParams_not_finite :
  forall data : list float,
    isFinite (Math_max_list data) = false ->
    isFinite (pK (refinedParams data)) = false.
Proof.
  intros data H. unfold refinedParams.
  assert (Ki : isFinite (pK (initialParams data (num_of_nat (length data))
                               (Math_max_list data))) = false).
  { destruct (initialParams_K data (num_of_nat (length data)) (Math_max_list data))
      as [-> | [[k ->] _]]; now apply mul_not_finite. }
  now rewrite refine_not_finite.
Qed.

(** X27: a series whose maximum is not a finite number is not fitted; the
    empty series, whose maximum is minus infinity, is one. *)
Theorem fitGompertzCurve_no_maximum :
  forall data : list float,
    isFinite (Math_max_list data) = false -> fitGompertzCurve data = None.
Proof.
  intros data H. rewrite fitGompertzCurve_eq.
  pose proof (refinedParams_not_finite data H) as K0.
  destruct (isFinite (pK (refinedParams data))); [discriminate K0|reflexivity].
Qed.

(** NaN and plus infinity, once met, stay the maximum. *)
Lemma Math_max_top :
  forall x y,
    topNumber x \/ topNumber y -> topNumber (Math_max x y).
Proof.
  assert (U : forall z, (ord z <= ordInfinity)%Z).
  { intros z. unfold ord, ordS.
    pose proof (ordF_nonneg _ (Prim2SF_valid z)). destruct (SFsign (Prim2SF z)); lia. }
  intros x y H. unfold topNumber in *.
  destruct (is_nan x) eqn:Nx; [left; apply Math_max_nan; now left|].
  destruct (is_nan y) eqn:Ny; [left; apply Math_max_nan; now right|].
  right. destruct (Math_max_ord x y Nx Ny) as [_ ->].
  pose proof (U x). pose proof (U y).
  destruct H as [[H|H]|[H|H]]; try discriminate; lia.
Qed.

Lemma Math_max_list_top :
  forall data acc,
    topNumber acc \/ (exists x, In x data /\ topNumber x) ->
    topNumber (fold_left Math_max data acc).
Proof.
  induction data as [|d rest IH]; intros acc H; simpl.
  - destruct H as [H | (x & [] & _)]. exact H.
  - apply IH. destruct H as [H | (x & [<- | Hin] & Hx)].
    + left. apply Math_max_top. now left.
    + left. apply Math_max_top. now right.
    + right. now exists x.
Qed.

(** X28: a series in which a value is NaN or plus infinity is not fitted. *)
Theorem fitGompertzCurve_rejects_nan :
  forall (data : list float) (x : float),
    In x data -> isNaN x = true \/ x = infinity ->
    fitGompertzCurve data = None.
Proof.
  intros data x Hin Hx.
  assert (T : topNumber (Math_max_list data)).
  { apply Math_max_list_top. right. exists x. split; [exact Hin|].
    destruct Hx as [Hx | ->]; [now left|now right]. }
  assert (F : isFinite (Math_max_list data) = false).
  { destruct (isFinite (Math_max_list data)) eqn:F; [|reflexivity].
    apply isFinite_ord in F as [N B]. destruct T as [T|T]; [congruence|lia]. }
  rewrite fitGompertzCurve_eq, (refinedParams_not_finite data F). reflexivity.
Qed.

(** The capacity before the corrections is above a positive maximum. *)
Lemma refinedParams_K :
  forall data,
    (0 <? Math_max_list data) = true ->
    isFinite (pK (refinedParams data)) = true ->
    (Math_max_list data <? pK (refinedParams data)) = true.
Proof.
  intros data Hpos. unfold refinedParams.
  set (n := num_of_nat (length data)). set (mx := Math_max_list data) in *.
  destruct (refine_K iterations data n mx (initialParams data n mx)) as [-> | W];
    [|intros _; exact W].
  intros F. pose proof (isFinite_not_nan _ F) as NK.
  apply ltb_ord in Hpos as (_ & Nm & Hpos). rewrite ord_zero in Hpos.
  destruct (initialParams_K data n mx) as [E | [_ G]].
  - rewrite E in *. apply ltb_ord. split; [exact Nm|]. split; [exact NK|].
    apply mul_three_halves_above; [|exact Hpos].
    destruct (isFinite mx) eqn:Fm; [reflexivity|].
    rewrite (mul_not_finite mx 1.5 Fm) in F. discriminate.
  - rewrite (ltb_negb_leb _ _ Nm NK), G. reflexivity.
Qed.

(** X29: the parameters and the error of a fit that is returned: [t0] is
    finite, [b] lies above 0 and not above 1, the root mean square error is
    not negative (it may be infinite), and for a series with a positive
    maximum [K] is finite and above that maximum. *)
Theorem fitGompertzCurve_result :
  forall (data : list float) (r : FitResult),
    fitGompertzCurve data = Some r ->
    isFinite (pt0 (params r)) = true
    /\ ((0 <? pb (params r)) = true /\ (pb (params r) <=? 1) = true)
    /\ (0 <=? rmse r) = true
    /\ ((0 <? Math_max_list data) = true ->
        isFinite (pK (params r)) = true
        /\ (Math_max_list data <? pK (params r)) = true).
Proof.
  intros data r Hfit. rewrite fitGompertzCurve_eq in Hfit.
  pose proof (refinedParams_K data) as HK.
  revert Hfit HK. generalize (refinedParams data) as p0. intros p0 Hfit HK.
  destruct (negb (isFinite (pK p0)) || negb (isFinite (pb p0)) || negb (isFinite (pt0 p0)))
    eqn:G; [discriminate|].
  apply orb_false_iff in G as [G Ft]. apply orb_false_iff in G as [FK Fb].
  apply negb_false_iff in FK, Fb, Ft.
  injection Hfit as <-. unfold fitQuality. cbn [params rmse]. cbn [correctParams pK pb pt0].
  unfold correctParams. cbn [pK pb pt0].
  split; [exact Ft|]. split; [|split].
  - pose proof (isFinite_not_nan _ Fb) as Nb.
    destruct ((pb p0 <=? 0) || (1.0 <? pb p0)) eqn:C.
    + destruct (Math_min_ord 0.5 (pb p0) eq_refl Nb) as [N1 E1].
      destruct (Math_max_ord 0.05 _ eq_refl N1) as [N2 E2].
      destruct clamp_b_ord as (C1 & C2 & C3).
      split; [apply ltb_ord|apply leb_ord]; (split; [try reflexivity; exact N2|]);
        (split; [try reflexivity; exact N2|]); rewrite E2, E1; lia.
    + apply orb_false_iff in C as [C0 C1]. split.
      * rewrite (ltb_negb_leb 0 (pb p0) eq_refl Nb), C0. reflexivity.
      * rewrite (leb_negb_ltb (pb p0) 1 Nb eq_refl), C1. reflexivity.
  - match goal with |- context [isFinite (sqrt ?q)] => destruct (isFinite (sqrt q)) eqn:Fs end.
    + apply sqrt_nonneg. now apply isFinite_not_nan.
    + reflexivity.
  - intros Hpos. specialize (HK Hpos FK).
    assert (L : (pK p0 <=? Math_max_list data) = false).
    { apply ltb_ord in HK as (Nm & NK & HK).
      destruct (pK p0 <=? Math_max_list data) eqn:L; [|reflexivity].
      apply leb_ord in L as (_ & _ & L). lia. }
    rewrite L. split; assumption.
Qed.

End FitSearch.

(** *** Instances, with the builtins of [JSMath_ref] *)

Lemma fitGompertzCurve_no_maximum_witness :
  isFinite (Math_max_list []) = false /\ @fitGompertzCurve JSMath_ref [] = None.
Proof.
  split; [reflexivity|].
  apply (@fitGompertzCurve_no_maximum JSMath_ref []). reflexivity.
Defined.

Lemma fitGompertzCurve_rejects_nan_witness :
  (In nan [1; nan; 3] /\ (isNaN nan = true \/ nan = infinity))
  /\ @fitGompertzCurve JSMath_ref [1; nan; 3] = None.
Proof.
  assert (H1 : In nan [1; nan; 3]) by (right; left; reflexivity).
  assert (H2 : isNaN nan = true \/ nan = infinity) by (left; reflexivity).
  split; [split; assumption|].
  apply (@fitGompertzCurve_rejects_nan JSMath_ref [1; nan; 3] nan H1 H2).
Defined.

Lemma fitGompertzCurve_result_witness :
  exists r, @fitGompertzCurve JSMath_ref SAMPLE_accounts = Some r
            /\ isFinite (pt0 (params r)) = true
            /\ (0 <? pb (params r)) = true /\ (pb (params r) <=? 1) = true
            /\ (0 <=? rmse r) = true
            /\ (Math_max_list SAMPLE_accounts <? pK (params r)) = true.
Proof.
  destruct (@fitGompertzCurve JSMath_ref SAMPLE_accounts) as [r|] eqn:E.
  - exists r. split; [reflexivity|].
    destruct (@fitGompertzCurve_result JSMath_ref SAMPLE_accounts r E)
      as (H1 & [H2 H3] & H4 & H5).
    repeat split; try assumption. apply H5. vm_compute. reflexivity.
  - vm_compute in E. discriminate E.
Defined.

(** ** The outlier flag through the operations on the series *)

Section Flags.

Context {M : JSMath}.



End Flags.

(** ** The stepwise [exp_stairs] meets the four conditions *)

Module StairsFacts.

Import FloatCompare Rounding FloatOrder.

Lemma exp_stairs_cases :
  forall x, is_nan x = false ->
    (exp_stairs x = 0.25 /\ (x <? -1) = true)
    \/ (exp_stairs x = 0.5 /\ (x <? -1) = false /\ (x <? 0) = true)
    \/ (exp_stairs x = 1 /\ (x <? 0) = false /\ (x <? 1) = true)
    \/ (exp_stairs x = 2 /\ (x <? 1) = false).
Proof.
  intros x N. unfold exp_stairs. rewrite N.
  destruct (x <? -1); [now left|]. destruct (x <? 0); [right; now left|].
  destruct (x <? 1); [right; right; now left | right; right; now right].
Qed.

Lemma exp_stairs_not_nan : forall x, is_nan (exp_stairs x) = false -> is_nan x = false.
Proof.
  intros x H. unfold exp_stairs in H. destruct (is_nan x); [discriminate H|reflexivity].
Qed.

Lemma exp_stairs_nonnegative : exp_nonnegative exp_stairs.
Proof.
  intros x H. apply exp_stairs_not_nan in H.
  destruct (exp_stairs_cases x H) as [[-> _] | [[-> _] | [[-> _] | [-> _]]]]; reflexivity.
Qed.

Lemma exp_stairs_at_most_one : exp_at_most_one exp_stairs.
Proof.
  intros x Hx H. apply exp_stairs_not_nan in H.
  destruct (exp_stairs_cases x H) as [[-> _] | [[-> _] | [[-> _] | [-> L]]]];
    try reflexivity.
  apply leb_ord in Hx as (_ & _ & Hx).
  pose proof (ltb_false_ord x 1 H eq_refl L) as G.
  assert (E : (ord 0 < ord 1)%Z) by reflexivity. lia.
Qed.



End StairsFacts.

(** ** The curve, for the real exponential *)

Section CurveClaims.

Context {M : JSMath}.

Import FloatCompare Rounding FloatOrder CurveFacts.

(** C8, as the code has it: for a [Math.exp] that returns no negative
    number, and at most 1 on an argument that is not positive, the model
    answers NaN or a finite value from 0 to the capacity [K], both
    included: the value 0 is reached when [K * exp (-700)] underflows. *)
Theorem gompertzModel_bounded :
  exp_nonnegative Math_exp -> exp_at_most_one Math_exp ->
  forall t K b t0 : float,
    let v := gompertzModel t K b t0 in
    v = nan
    \/ (isFinite v = true /\ (0 <=? v) = true /\ (v <=? K) = true /\ (0 <? K) = true).
Proof.
  intros Hnn Hle1 t K b t0. cbv zeta. unfold gompertzModel.
  destruct (negb (isFinite K) || negb (isFinite b) || negb (isFinite t0)) eqn:G1;
    [now left|].
  destruct ((K <=? 0) || (b <=? 0)) eqn:G2; [now left|].
  set (inner := Math_exp (Math_max (-700) (Math_min 700 (- b * (t - t0))))).
  destruct (isFinite inner) eqn:Fi; simpl; [|now left].
  set (e2 := Math_exp (Math_max (-700) (Math_min 700 (- inner)))).
  destruct (isFinite (K * e2)) eqn:Fr; simpl; [right|now left].
  split; [exact Fr|].
  (* the capacity is positive *)
  apply orb_false_iff in G1 as [G1 _]. apply orb_false_iff in G1 as [FK _].
  apply negb_false_iff in FK. apply orb_false_iff in G2 as [K0 _].
  destruct (isFinite_ord K FK) as [NK BK].
  assert (PK : (0 < ord K)%Z).
  { destruct (Z_lt_le_dec 0 (ord K)) as [|Hc]; [assumption|].
    assert ((K <=? 0) = true) by (apply leb_ord; rewrite ord_zero; auto). congruence. }
  (* the second exponential lies between 0 and 1 *)
  destruct (isFinite_ord inner Fi) as [Ni _].
  pose proof (Hnn _ Ni) as I0. fold inner in I0.
  apply leb_ord in I0 as (_ & _ & I0). rewrite ord_zero in I0.
  assert (Nneg : is_nan (- inner) = false) by now rewrite is_nan_opp.
  destruct (clamp_ord (- inner) Nneg) as [No Eo].
  rewrite ord_opp in Eo. pose proof ord_700 as [P7 _].
  assert (Ho : (Math_max (-700) (Math_min 700 (- inner)) <=? 0) = true).
  { apply leb_ord. rewrite ord_zero, Eo. repeat split; auto. lia. }
  assert (Ne : is_nan e2 = false).
  { destruct (is_nan e2) eqn:Ne; [|reflexivity].
    pose proof (mul_nan_r K e2 Ne) as X.
    pose proof (isFinite_not_nan _ Fr). congruence. }
  pose proof (Hnn _ Ne) as E0. pose proof (Hle1 _ Ho Ne) as E1.
  fold e2 in E0, E1.
  apply leb_ord in E0 as (_ & _ & E0). apply leb_ord in E1 as (_ & _ & E1).
  rewrite ord_zero in E0.
  (* and the product by the capacity keeps the order *)
  destruct (mul_ord_mono_pos K 0 e2 FK PK eq_refl Ne ltac:(rewrite ord_zero; lia))
    as (_ & Nr & L0).
  destruct (mul_ord_mono_pos K e2 1 FK PK Ne eq_refl E1) as (_ & _ & L1).
  rewrite mul_zero_ord in L0 by assumption. rewrite mul_one_ord in L1 by assumption.
  repeat split; [apply leb_ord | apply leb_ord | apply ltb_ord];
    rewrite ?ord_zero; auto.
Qed.


End CurveClaims.

(** *** Instances and counterexamples *)



Lemma gompertzModel_bounded_witness :
  (exp_nonnegative exp_stairs /\ exp_at_most_one exp_stairs)
  /\ (@gompertzModel JSMath_stairs (-10) 100 0.2 3 = nan
      \/ (isFinite (@gompertzModel JSMath_stairs (-10) 100 0.2 3) = true
          /\ (0 <=? @gompertzModel JSMath_stairs (-10) 100 0.2 3) = true
          /\ (@gompertzModel JSMath_stairs (-10) 100 0.2 3 <=? 100) = true
          /\ (0 <? 100) = true)).
Proof.
  split; [split; [exact StairsFacts.exp_stairs_nonnegative
                 | exact StairsFacts.exp_stairs_at_most_one]|].
  apply (@gompertzModel_bounded JSMath_stairs StairsFacts.exp_stairs_nonnegative
           StairsFacts.exp_stairs_at_most_one).
Defined.

(** The claim of C8 as the spec words it fails: with the capacity
    [K = 1e-20], [b = 1], [t0 = 10] and [t = 0] the parameters are valid,
    the second exponential is [exp (-700)], about [9.86e-305], and its
    product by [K] underflows: the model answers 0, which is not above 0. *)
Lemma gompertzModel_underflow :
  (isFinite 1e-20 = true /\ (0 <? 1e-20) = true /\ (0 <? 1) = true)
  /\ @gompertzModel JSMath_ref 0 1e-20 1 10 = 0
  /\ (0 <? @gompertzModel JSMath_ref 0 1e-20 1 10) = false.
Proof. repeat split; vm_compute; reflexivity. Qed.

